(** * A small compiler pipeline and its virtual machine

    Shallow embedding of the pipeline of [compiler_core]: lexer, typed
    AST and semantic analysis, three-address IR, the IR optimizer, the
    bytecode, the peephole cleaner and the bytecode VM, followed by the
    properties proved about them.

    Conventions of the embedding.
    - A Python [str] is a [string]; source text and operand names are
      taken to be ASCII.  The class [\d] of [re], which holds decimal
      digits beyond those of ASCII, is a parameter ([re_digit]) of the
      optimizer, with [Py.is_digit] as its instance for running the
      definitions on examples.
    - A Python [float] is a binary64 [float] of [PrimFloat].
    - A Python [dict] used as a map is a [gmap]; a [set] is a [gset].
    - A Python list used as a stack ([append]/[pop]) is a [list] whose
      head is the top of the stack.
    - A raised exception is the [Raise] case of [result].
    - The builtins [float(str)] and [str(float)] are parameters
      ([py_float], [py_repr]) of the sections that need them; [Py] gives
      decimal instances for running the definitions on examples. *)

From Stdlib Require Import ZArith String Ascii List Bool Lia.
From Stdlib Require Import Floats.PrimFloat Floats.FloatOps Floats.SpecFloat.
From Stdlib Require Floats.FloatAxioms.
From stdpp Require Import gmap strings list pretty.

Open Scope string_scope.
Open Scope list_scope.

(** ** Python values and builtins *)

Module Py.

Inductive py_exn :=
| ZeroDivisionError
| OverflowError
| ValueError
| IndexError
| RuntimeError (msg : string).

Inductive result (A : Type) :=
| Ok (a : A)
| Raise (e : py_exn).
Arguments Ok {A} a.
Arguments Raise {A} e.

Definition bind {A B} (r : result A) (k : A -> result B) : result B :=
  match r with
  | Ok a => k a
  | Raise e => Raise e
  end.

Definition is_ok {A} (r : result A) : bool :=
  match r with Ok _ => true | Raise _ => false end.

(** [float(z)] for a Python int: the nearest binary64 (ties to even). *)
Definition float_of_int (z : Z) : float :=
  SF2Prim (binary_normalize prec emax z 0 false).

(** [int(v)]: truncation toward zero; infinities raise [OverflowError]
    and NaN raises [ValueError]. *)
Definition int_of_float (v : float) : result Z :=
  match Prim2SF v with
  | S754_zero _ => Ok 0%Z
  | S754_finite s m e =>
      let a := match e with
               | Z0 => Zpos m
               | Zpos p => (Zpos m * 2 ^ Zpos p)%Z
               | Zneg p => (Zpos m / 2 ^ Zpos p)%Z
               end in
      Ok (if s then (- a)%Z else a)
  | S754_infinity _ => Raise OverflowError
  | S754_nan => Raise ValueError
  end.

(** [v.is_integer()] *)
Definition is_integer (v : float) : bool :=
  match Prim2SF v with
  | S754_zero _ => true
  | S754_finite _ m e =>
      match e with
      | Zneg p => (Zpos m mod 2 ^ Zpos p =? 0)%Z
      | _ => true
      end
  | _ => false
  end.

(** [v != 0.0] *)
Definition nonzero (v : float) : bool := negb (PrimFloat.eqb v 0%float).

Definition of_bool (b : bool) : float := if b then 1%float else 0%float.

(** [a / b] on floats: a zero divisor raises. *)
Definition truediv (a b : float) : result float :=
  if PrimFloat.eqb b 0%float then Raise ZeroDivisionError
  else Ok (PrimFloat.div a b).

(** [x % y] on ints: the sign follows the divisor, a zero divisor raises. *)
Definition int_mod (x y : Z) : result Z :=
  if (y =? 0)%Z then Raise ZeroDivisionError else Ok (x mod y)%Z.

(** [sep.join(lines)] *)
Definition join (sep : string) (lines : list string) : string :=
  String.concat sep lines.

(** *** Decimal instances of [float(str)] and [str(float)]

    [dec_float] reads the plain decimal literals [-ddd] and [-ddd.ddd]
    whose digits form an integer below 2^53 with at most 22 fractional
    digits: there the quotient of two exact doubles is the correctly
    rounded value Python computes.  Other strings read as no number.
    [dec_repr] prints the exact decimal expansion of a finite double,
    which is what Python prints when that expansion is short. *)

Definition is_digit (c : ascii) : bool :=
  (48 <=? nat_of_ascii c)%nat && (nat_of_ascii c <=? 57)%nat.

Definition digit_val (c : ascii) : Z := Z.of_nat (nat_of_ascii c - 48).

Fixpoint digits_val (acc : Z) (s : string) : option Z :=
  match s with
  | EmptyString => Some acc
  | String c s' =>
      if is_digit c then digits_val (10 * acc + digit_val c)%Z s' else None
  end.

Fixpoint split_dot (s : string) : string * option string :=
  match s with
  | EmptyString => (EmptyString, None)
  | String c s' =>
      if Ascii.eqb c "."%char then (EmptyString, Some s')
      else let '(a, b) := split_dot s' in (String c a, b)
  end.

Definition dec_unsigned (s : string) : option float :=
  let '(ip, fp) := split_dot s in
  let fp' := match fp with Some f => f | None => EmptyString end in
  match ip, fp with
  | EmptyString, _ => None
  | _, Some EmptyString => None
  | _, _ =>
      match digits_val 0 (ip +:+ fp') with
      | Some m =>
          let k := Z.of_nat (String.length fp') in
          if (m <? 2 ^ 53)%Z && (k <=? 22)%Z
          then Some (PrimFloat.div (float_of_int m) (float_of_int (10 ^ k)))
          else None
      | None => None
      end
  end.

Definition dec_float (s : string) : option float :=
  match s with
  | String "-"%char s' => option_map PrimFloat.opp (dec_unsigned s')
  | _ => dec_unsigned s
  end.

Fixpoint pad_zeros (n : nat) (s : string) : string :=
  match n with
  | O => s
  | S n' => if (String.length s <? S n')%nat then pad_zeros n' ("0" +:+ s) else s
  end.

Fixpoint strip_zeros_rev (s : list ascii) : list ascii :=
  match s with
  | "0"%char :: s' => strip_zeros_rev s'
  | _ => s
  end.

Definition strip_trailing_zeros (s : string) : string :=
  string_of_list_ascii (rev (strip_zeros_rev (rev (list_ascii_of_string s)))).

Definition dec_repr (v : float) : string :=
  match Prim2SF v with
  | S754_zero s => if s then "-0.0" else "0.0"
  | S754_infinity s => if s then "-inf" else "inf"
  | S754_nan => "nan"
  | S754_finite s m e =>
      let sign := if s then "-" else "" in
      match e with
      | Zneg p =>
          let k := Pos.to_nat p in
          let scaled := (Zpos m * 5 ^ Zpos p)%Z in
          let ip := (scaled / 10 ^ Zpos p)%Z in
          let fp := (scaled mod 10 ^ Zpos p)%Z in
          let frac := strip_trailing_zeros (pad_zeros k (pretty fp)) in
          sign +:+ pretty ip +:+ "." +:+ (if String.eqb frac "" then "0" else frac)
      | _ => sign +:+ pretty (Zpos m * 2 ^ e)%Z +:+ ".0"
      end
  end.

End Py.
Export Py.

(** ** Loops over lists that thread a state *)

Module Util.

(** [for x in l: ...] where each round updates the state and yields a
    result for [x]. *)
Definition map_accum {S A B} (f : S -> A -> S * B) : S -> list A -> S * list B :=
  fix go st l :=
    match l with
    | [] => (st, [])
    | x :: l' =>
        let '(st1, y) := f st x in
        let '(st2, ys) := go st1 l' in
        (st2, y :: ys)
    end.

(** The same over [zip(ps, l)], rebuilding [l]: its elements past the
    length of [ps] are not visited. *)
Definition zip_accum {S P A} (f : S -> P -> A -> S * A)
  : S -> list P -> list A -> S * list A :=
  fix go st ps l {struct l} :=
    match l with
    | [] => (st, [])
    | x :: l' =>
        match ps with
        | [] => (st, l)
        | p :: ps' =>
            let '(st1, x') := f st p x in
            let '(st2, l'') := go st1 ps' l' in
            (st2, x' :: l'')
        end
    end.

(** [x in (a, b, ...)] on strings. *)
Definition in_list (x : string) (l : list string) : bool :=
  existsb (String.eqb x) l.

End Util.
Export Util.

(** ** domain/tokens.py *)

Module Tokens.

Inductive TokenType :=
| PLUS | MINUS | STAR | SLASH | PERCENT
| LPAREN | RPAREN | LBRACE | RBRACE
| COMMA | SEMI | BANG | ASSIGN
| LT | LE | GT | GE
| EQ | NE
| AND | OR
| IDENT | INT_LIT | FLOAT_LIT | BOOL_LIT
| KW_INT | KW_FLOAT | KW_BOOL | KW_VOID
| KW_IF | KW_ELSE | KW_WHILE | KW_FOR
| KW_RETURN | KW_PRINT
| EOF.

Definition TokenType_eqb (a b : TokenType) : bool :=
  match a, b with
  | PLUS, PLUS | MINUS, MINUS | STAR, STAR | SLASH, SLASH | PERCENT, PERCENT
  | LPAREN, LPAREN | RPAREN, RPAREN | LBRACE, LBRACE | RBRACE, RBRACE
  | COMMA, COMMA | SEMI, SEMI | BANG, BANG | ASSIGN, ASSIGN
  | LT, LT | LE, LE | GT, GT | GE, GE | EQ, EQ | NE, NE | AND, AND | OR, OR
  | IDENT, IDENT | INT_LIT, INT_LIT | FLOAT_LIT, FLOAT_LIT | BOOL_LIT, BOOL_LIT
  | KW_INT, KW_INT | KW_FLOAT, KW_FLOAT | KW_BOOL, KW_BOOL | KW_VOID, KW_VOID
  | KW_IF, KW_IF | KW_ELSE, KW_ELSE | KW_WHILE, KW_WHILE | KW_FOR, KW_FOR
  | KW_RETURN, KW_RETURN | KW_PRINT, KW_PRINT | EOF, EOF => true
  | _, _ => false
  end.

(** The [KEYWORDS] table; a word that is no key is an identifier. *)
Definition KEYWORDS (lexeme : string) : option TokenType :=
  if String.eqb lexeme "int" then Some KW_INT
  else if String.eqb lexeme "float" then Some KW_FLOAT
  else if String.eqb lexeme "bool" then Some KW_BOOL
  else if String.eqb lexeme "void" then Some KW_VOID
  else if String.eqb lexeme "if" then Some KW_IF
  else if String.eqb lexeme "else" then Some KW_ELSE
  else if String.eqb lexeme "while" then Some KW_WHILE
  else if String.eqb lexeme "for" then Some KW_FOR
  else if String.eqb lexeme "return" then Some KW_RETURN
  else if String.eqb lexeme "print" then Some KW_PRINT
  else if String.eqb lexeme "true" then Some BOOL_LIT
  else if String.eqb lexeme "false" then Some BOOL_LIT
  else None.

Record Token := mkToken {
  type : TokenType;
  lexeme : string;
  line : nat;
  col : nat
}.

End Tokens.

(** ** domain/errors.py *)

Module Errors.

Record ParseError := mkParseError {
  message : string;
  line : nat;
  col : nat
}.

End Errors.

(** ** pipeline/lexer.py *)

Module Lexer.
Import Tokens.

(** The fields [src], [pos] and [n] are kept as the unread suffix
    [src[pos:]]; [_peek] past its end reads the NUL character, as the
    source does past [n]. *)
Record Lexer := mkLexer {
  rest : list ascii;
  line : nat;
  col : nat
}.

Definition NUL : ascii := "000"%char.
Definition NL : ascii := "010"%char.
Definition TAB : ascii := "009"%char.
Definition CR : ascii := "013"%char.

Definition init (src : string) : Lexer :=
  mkLexer (list_ascii_of_string src) 1 1.

Definition _peek (lx : Lexer) (k : nat) : ascii := nth k (rest lx) NUL.

Definition _advance (lx : Lexer) : Lexer * ascii :=
  let ch := _peek lx 0 in
  (if Ascii.eqb ch NL
   then mkLexer (tl (rest lx)) (S (line lx)) 1
   else mkLexer (tl (rest lx)) (line lx) (S (col lx)),
   ch).

Definition _add (ttype : TokenType) (lexeme : string) (line col : nat) : Token :=
  mkToken ttype lexeme line col.

(** Character classes of [str], on ASCII. *)
Definition isdigit (c : ascii) : bool := Py.is_digit c.

Definition isalpha (c : ascii) : bool :=
  let n := nat_of_ascii c in
  ((65 <=? n)%nat && (n <=? 90)%nat) || ((97 <=? n)%nat && (n <=? 122)%nat).

Definition isalnum (c : ascii) : bool := isalpha c || isdigit c.

Definition is_space (c : ascii) : bool :=
  Ascii.eqb c " "%char || Ascii.eqb c TAB || Ascii.eqb c CR || Ascii.eqb c NL.

(** [while self._peek() not in ('\n', '\0'): self._advance()] *)
Fixpoint skip_line (k : nat) (lx : Lexer) : Lexer :=
  match k with
  | O => lx
  | S k' =>
      let ch := _peek lx 0 in
      if Ascii.eqb ch NL || Ascii.eqb ch NUL then lx
      else skip_line k' (fst (_advance lx))
  end.

(** The inner loop of a block comment: [true] when it stopped in front
    of the closing pair, [false] when it met NUL, where the source
    returns from [_skip_ws_and_comments]. *)
Fixpoint skip_block (k : nat) (lx : Lexer) : option (Lexer * bool) :=
  match k with
  | O => None
  | S k' =>
      if Ascii.eqb (_peek lx 0) "*"%char && Ascii.eqb (_peek lx 1) "/"%char
      then Some (lx, true)
      else if Ascii.eqb (_peek lx 0) NUL then Some (lx, false)
      else skip_block k' (fst (_advance lx))
  end.

(** [_skip_ws_and_comments]; [None] when the fuel [k] does not cover the
    iterations of the [while True] loop. *)
Fixpoint skip_loop (k : nat) (lx : Lexer) : option Lexer :=
  match k with
  | O => None
  | S k' =>
      let ch := _peek lx 0 in
      if is_space ch then skip_loop k' (fst (_advance lx))
      else if Ascii.eqb ch "/"%char && Ascii.eqb (_peek lx 1) "/"%char
      then skip_loop k' (skip_line (length (rest lx)) lx)
      else if Ascii.eqb ch "/"%char && Ascii.eqb (_peek lx 1) "*"%char
      then
        let lx1 := fst (_advance (fst (_advance lx))) in
        match skip_block (S (length (rest lx1))) lx1 with
        | None => None
        | Some (lx2, false) => Some lx2
        | Some (lx2, true) => skip_loop k' (fst (_advance (fst (_advance lx2))))
        end
      else Some lx
  end.

Definition _skip_ws_and_comments (lx : Lexer) : option Lexer :=
  skip_loop (S (length (rest lx))) lx.

(** [while p(self._peek()): lex.append(self._advance())] *)
Fixpoint take_while (p : ascii -> bool) (k : nat) (lx : Lexer) (lex : list ascii)
  : Lexer * list ascii :=
  match k with
  | O => (lx, lex)
  | S k' =>
      if p (_peek lx 0)
      then let '(lx', ch) := _advance lx in take_while p k' lx' (lex ++ [ch])
      else (lx, lex)
  end.

Definition two_char (two : string) : option TokenType :=
  if String.eqb two "<=" then Some LE
  else if String.eqb two ">=" then Some GE
  else if String.eqb two "==" then Some EQ
  else if String.eqb two "!=" then Some NE
  else if String.eqb two "&&" then Some AND
  else if String.eqb two "||" then Some OR
  else None.

Definition single_map (ch : ascii) : option TokenType :=
  if Ascii.eqb ch "+" then Some PLUS
  else if Ascii.eqb ch "-" then Some MINUS
  else if Ascii.eqb ch "*" then Some STAR
  else if Ascii.eqb ch "/" then Some SLASH
  else if Ascii.eqb ch "%" then Some PERCENT
  else if Ascii.eqb ch "(" then Some LPAREN
  else if Ascii.eqb ch ")" then Some RPAREN
  else if Ascii.eqb ch "{" then Some LBRACE
  else if Ascii.eqb ch "}" then Some RBRACE
  else if Ascii.eqb ch "," then Some COMMA
  else if Ascii.eqb ch ";" then Some SEMI
  else if Ascii.eqb ch "!" then Some BANG
  else if Ascii.eqb ch "=" then Some ASSIGN
  else if Ascii.eqb ch "<" then Some LT
  else if Ascii.eqb ch ">" then Some GT
  else None.

(** One iteration of the loop of [tokenize] after the skip: either the
    final token list ([inl]) or the next state and the tokens so far. *)
Definition scan (lx : Lexer) (out : list Token)
  : list Token + Lexer * list Token :=
  let start_line := line lx in
  let start_col := col lx in
  let ch := _peek lx 0 in
  if Ascii.eqb ch NUL
  then inl (out ++ [_add EOF "" start_line start_col])
  else if isalpha ch || Ascii.eqb ch "_"%char
  then
    let '(lx', lex) :=
      take_while (fun c => isalnum c || Ascii.eqb c "_"%char)
                 (length (rest lx)) lx [] in
    let lexeme := string_of_list_ascii lex in
    let ttype := match KEYWORDS lexeme with Some t => t | None => IDENT end in
    inr (lx', out ++ [_add ttype lexeme start_line start_col])
  else if isdigit ch
  then
    let '(lx1, lex1) := take_while isdigit (length (rest lx)) lx [] in
    let '(lx2, lex2, is_float) :=
      if Ascii.eqb (_peek lx1 0) "."%char && isdigit (_peek lx1 1)
      then
        let '(lx1', dot) := _advance lx1 in
        let '(lx2, lex2) :=
          take_while isdigit (length (rest lx1')) lx1' (lex1 ++ [dot]) in
        (lx2, lex2, true)
      else (lx1, lex1, false) in
    inr (lx2, out ++ [_add (if is_float then FLOAT_LIT else INT_LIT)
                           (string_of_list_ascii lex2) start_line start_col])
  else
    let two := string_of_list_ascii [ch; _peek lx 1] in
    match two_char two with
    | Some t =>
        inr (fst (_advance (fst (_advance lx))),
             out ++ [_add t two start_line start_col])
    | None =>
        match single_map ch with
        | Some t =>
            inr (fst (_advance lx),
                 out ++ [_add t (string_of_list_ascii [ch]) start_line start_col])
        | None => inr (fst (_advance lx), out)
        end
    end.

(** The [while True] loop of [tokenize]; [None] when the fuel runs out. *)
Fixpoint tokenize_loop (k : nat) (lx : Lexer) (out : list Token)
  : option (list Token) :=
  match k with
  | O => None
  | S k' =>
      match _skip_ws_and_comments lx with
      | None => None
      | Some lx1 =>
          match scan lx1 out with
          | inl toks => Some toks
          | inr (lx2, out') => tokenize_loop k' lx2 out'
          end
      end
  end.

Definition tokenize (lx : Lexer) : option (list Token) :=
  tokenize_loop (S (length (rest lx))) lx [].

Definition lex (src : string) : option (list Token) := tokenize (init src).

End Lexer.

(** ** domain/ast_nodes.py *)

Module Ast.

(** The [value] of a [Literal]: the parser stores an [int], a [float]
    or a [bool]. *)
Inductive lit :=
| LInt (z : Z)
| LFloat (f : float)
| LBool (b : bool).

(** Expression nodes; the last field of each is the [inferred_type]
    slot of the class [Expr], [None] until semantics fills it. *)
#[warnings="-register-all"]
Inductive Expr :=
| Assign (name : string) (value : Expr) (line col : nat) (inferred_type : option string)
| Call (name : string) (args : list Expr) (line col : nat) (inferred_type : option string)
| Literal (value : lit) (kind : string) (inferred_type : option string)
| Var (name : string) (line col : nat) (inferred_type : option string)
| Unary (op : string) (right : Expr) (inferred_type : option string)
| Binary (left : Expr) (op : string) (right : Expr) (inferred_type : option string)
| Grouping (expr : Expr) (inferred_type : option string).

Record Param := mkParam {
  ptype : string;
  pname : string
}.

(** Statement nodes.  The field [body: 'Block'] of a [FunctionDecl] is
    kept as the statement list of that block. *)
#[warnings="-register-all"]
Inductive Stmt :=
| FunctionDecl (return_type name : string) (params : list Param) (body : list Stmt)
| Block (statements : list Stmt)
| VarDecl (var_type name : string) (init : option Expr) (line col : nat)
| If (cond : Expr) (then_branch : Stmt) (else_branch : option Stmt)
| While (cond : Expr) (body : Stmt)
| For (init : option Stmt) (cond : option Expr) (post : option Stmt) (body : Stmt)
| Print (expr : Expr)
| Return (expr : option Expr)
| ExprStmt (expr : Expr).

Record Program := mkProgram { body : list Stmt }.

(** Induction over the trees, with the lists and options of children. *)
Section Induction.
Variable P : Expr -> Prop.
Hypothesis HAssign : forall n v l c t, P v -> P (Assign n v l c t).
Hypothesis HCall : forall n args l c t, Forall P args -> P (Call n args l c t).
Hypothesis HLiteral : forall v k t, P (Literal v k t).
Hypothesis HVar : forall n l c t, P (Var n l c t).
Hypothesis HUnary : forall o r t, P r -> P (Unary o r t).
Hypothesis HBinary : forall a o b t, P a -> P b -> P (Binary a o b t).
Hypothesis HGrouping : forall e t, P e -> P (Grouping e t).

Fixpoint Expr_induct (e : Expr) : P e :=
  match e with
  | Assign n v l c t => HAssign n v l c t (Expr_induct v)
  | Call n args l c t =>
      HCall n args l c t
        ((fix go (xs : list Expr) : Forall P xs :=
            match xs with
            | [] => @List.Forall_nil _ P
            | x :: xs' => @List.Forall_cons _ P x xs' (Expr_induct x) (go xs')
            end) args)
  | Literal v k t => HLiteral v k t
  | Var n l c t => HVar n l c t
  | Unary o r t => HUnary o r t (Expr_induct r)
  | Binary a o b t => HBinary a o b t (Expr_induct a) (Expr_induct b)
  | Grouping e' t => HGrouping e' t (Expr_induct e')
  end.
End Induction.

Definition option_Forall {A} (P : A -> Prop) (o : option A) : Prop :=
  match o with
  | Some a => P a
  | None => True
  end.

Section StmtInduction.
Variable P : Stmt -> Prop.
Hypothesis HFunctionDecl : forall rt n ps b, Forall P b -> P (FunctionDecl rt n ps b).
Hypothesis HBlock : forall ss, Forall P ss -> P (Block ss).
Hypothesis HVarDecl : forall t n i l c, P (VarDecl t n i l c).
Hypothesis HIf : forall c t e, P t -> option_Forall P e -> P (If c t e).
Hypothesis HWhile : forall c b, P b -> P (While c b).
Hypothesis HFor : forall i c p b,
  option_Forall P i -> option_Forall P p -> P b -> P (For i c p b).
Hypothesis HPrint : forall e, P (Print e).
Hypothesis HReturn : forall e, P (Return e).
Hypothesis HExprStmt : forall e, P (ExprStmt e).

Fixpoint Stmt_induct (s : Stmt) : P s :=
  let go_list :=
    fix go (xs : list Stmt) : Forall P xs :=
      match xs with
      | [] => @List.Forall_nil _ P
      | x :: xs' => @List.Forall_cons _ P x xs' (Stmt_induct x) (go xs')
      end in
  let go_opt (o : option Stmt) : option_Forall P o :=
    match o with
    | Some x => Stmt_induct x
    | None => I
    end in
  match s with
  | FunctionDecl rt n ps b => HFunctionDecl rt n ps b (go_list b)
  | Block ss => HBlock ss (go_list ss)
  | VarDecl t n i l c => HVarDecl t n i l c
  | If c t e => HIf c t e (Stmt_induct t) (go_opt e)
  | While c b => HWhile c b (Stmt_induct b)
  | For i c p b => HFor i c p b (go_opt i) (go_opt p) (Stmt_induct b)
  | Print e => HPrint e
  | Return e => HReturn e
  | ExprStmt e => HExprStmt e
  end.
End StmtInduction.

Definition inferred_type (e : Expr) : option string :=
  match e with
  | Assign _ _ _ _ t | Call _ _ _ _ t | Literal _ _ t | Var _ _ _ t
  | Unary _ _ t | Binary _ _ _ t | Grouping _ t => t
  end.

(** [node.inferred_type = t] *)
Definition set_inferred (e : Expr) (t : string) : Expr :=
  match e with
  | Assign n v l c _ => Assign n v l c (Some t)
  | Call n a l c _ => Call n a l c (Some t)
  | Literal v k _ => Literal v k (Some t)
  | Var n l c _ => Var n l c (Some t)
  | Unary o r _ => Unary o r (Some t)
  | Binary a o b _ => Binary a o b (Some t)
  | Grouping e _ => Grouping e (Some t)
  end.

(** *** JSON helpers

    The dictionaries the projections build: a [dict] keeps its keys in
    insertion order, and assigning to a key that is present replaces
    its value in place. *)
#[warnings="-register-all"]
Inductive json :=
| JNone
| JBool (b : bool)
| JInt (z : Z)
| JFloat (f : float)
| JStr (s : string)
| JList (l : list json)
| JDict (d : list (string * json)).

Definition pydict := list (string * json).

Fixpoint dict_set (d : pydict) (k : string) (v : json) : pydict :=
  match d with
  | [] => [(k, v)]
  | (k', v') :: d' =>
      if String.eqb k' k then (k, v) :: d' else (k', v') :: dict_set d' k v
  end.

Fixpoint dict_get (d : pydict) (k : string) : option json :=
  match d with
  | [] => None
  | (k', v') :: d' => if String.eqb k' k then Some v' else dict_get d' k
  end.

Definition json_of_lit (v : lit) : json :=
  match v with
  | LInt z => JInt z
  | LFloat f => JFloat f
  | LBool b => JBool b
  end.

Definition json_of_nat (n : nat) : json := JInt (Z.of_nat n).

Definition json_of_option {A} (f : A -> json) (o : option A) : json :=
  match o with
  | Some a => f a
  | None => JNone
  end.

Definition param_to_dict (p : Param) : json :=
  JDict [("type", JStr (ptype p)); ("name", JStr (pname p))].

(** [ast_to_dict] on an expression node. *)
Fixpoint ast_to_dict_expr (node : Expr) : pydict :=
  match node with
  | Assign name value line col _ =>
      [("type", JStr "Assign"); ("name", JStr name);
       ("value", JDict (ast_to_dict_expr value));
       ("line", json_of_nat line); ("col", json_of_nat col)]
  | Call name args line col _ =>
      [("type", JStr "Call"); ("name", JStr name);
       ("args", JList (map (fun a => JDict (ast_to_dict_expr a)) args));
       ("line", json_of_nat line); ("col", json_of_nat col)]
  | Literal value kind _ =>
      [("type", JStr "Literal"); ("value", json_of_lit value); ("kind", JStr kind)]
  | Var name line col _ =>
      [("type", JStr "Var"); ("name", JStr name);
       ("line", json_of_nat line); ("col", json_of_nat col)]
  | Unary op rhs _ =>
      [("type", JStr "Unary"); ("op", JStr op);
       ("right", JDict (ast_to_dict_expr rhs))]
  | Binary lhs op rhs _ =>
      [("type", JStr "Binary"); ("op", JStr op);
       ("left", JDict (ast_to_dict_expr lhs));
       ("right", JDict (ast_to_dict_expr rhs))]
  | Grouping expr _ =>
      [("type", JStr "Grouping"); ("expr", JDict (ast_to_dict_expr expr))]
  end.

Definition expr_json (e : Expr) : json := JDict (ast_to_dict_expr e).

(** [ast_to_dict] on a statement node. *)
Fixpoint ast_to_dict_stmt (node : Stmt) : pydict :=
  match node with
  | FunctionDecl return_type name params body =>
      [("type", JStr "FunctionDecl"); ("return_type", JStr return_type);
       ("name", JStr name); ("params", JList (map param_to_dict params));
       ("body", JDict [("type", JStr "Block");
                       ("statements",
                        JList (map (fun s => JDict (ast_to_dict_stmt s)) body))])]
  | Block statements =>
      [("type", JStr "Block");
       ("statements", JList (map (fun s => JDict (ast_to_dict_stmt s)) statements))]
  | VarDecl var_type name init line col =>
      [("type", JStr "VarDecl"); ("var_type", JStr var_type); ("name", JStr name);
       ("init", json_of_option expr_json init);
       ("line", json_of_nat line); ("col", json_of_nat col)]
  | If cond then_branch else_branch =>
      [("type", JStr "If"); ("cond", expr_json cond);
       ("then", JDict (ast_to_dict_stmt then_branch));
       ("else", match else_branch with
                | Some s => JDict (ast_to_dict_stmt s)
                | None => JNone
                end)]
  | While cond body =>
      [("type", JStr "While"); ("cond", expr_json cond);
       ("body", JDict (ast_to_dict_stmt body))]
  | For init cond post body =>
      [("type", JStr "For");
       ("init", match init with
                | Some s => JDict (ast_to_dict_stmt s)
                | None => JNone
                end);
       ("cond", json_of_option expr_json cond);
       ("post", match post with
                | Some s => JDict (ast_to_dict_stmt s)
                | None => JNone
                end);
       ("body", JDict (ast_to_dict_stmt body))]
  | Print expr => [("type", JStr "Print"); ("expr", expr_json expr)]
  | Return expr => [("type", JStr "Return"); ("expr", json_of_option expr_json expr)]
  | ExprStmt expr => [("type", JStr "ExprStmt"); ("expr", expr_json expr)]
  end.

(** [ast_to_dict] on the root. *)
Definition ast_to_dict (node : Program) : pydict :=
  [("type", JStr "Program");
   ("body", JList (map (fun s => JDict (ast_to_dict_stmt s)) (body node)))].

(** [typed_ast_to_dict] on an expression node: the raw projection, the
    [inferred] entry, then the children projected again with types. *)
Fixpoint typed_ast_to_dict_expr (node : Expr) : pydict :=
  let base := ast_to_dict_expr node in
  let base := dict_set base "inferred"
                (json_of_option JStr (inferred_type node)) in
  match node with
  | Assign _ value _ _ _ =>
      dict_set base "value" (JDict (typed_ast_to_dict_expr value))
  | Call _ args _ _ _ =>
      dict_set base "args"
        (JList (map (fun a => JDict (typed_ast_to_dict_expr a)) args))
  | Unary _ rhs _ =>
      dict_set base "right" (JDict (typed_ast_to_dict_expr rhs))
  | Binary lhs _ rhs _ =>
      let base := dict_set base "left" (JDict (typed_ast_to_dict_expr lhs)) in
      dict_set base "right" (JDict (typed_ast_to_dict_expr rhs))
  | Grouping expr _ =>
      dict_set base "expr" (JDict (typed_ast_to_dict_expr expr))
  | _ => base
  end.

Definition typed_expr_json (e : Expr) : json := JDict (typed_ast_to_dict_expr e).

(** [typed_ast_to_dict] on a statement node.  There is no case for
    [VarDecl]: its raw projection is returned as it is. *)
Fixpoint typed_ast_to_dict_stmt (node : Stmt) : pydict :=
  let base := ast_to_dict_stmt node in
  match node with
  | FunctionDecl _ _ _ body =>
      dict_set base "body"
        (JDict (let base := ast_to_dict_stmt (Block body) in
                dict_set base "statements"
                  (JList (map (fun s => JDict (typed_ast_to_dict_stmt s)) body))))
  | Block statements =>
      dict_set base "statements"
        (JList (map (fun s => JDict (typed_ast_to_dict_stmt s)) statements))
  | If cond then_branch else_branch =>
      let base := dict_set base "cond" (typed_expr_json cond) in
      let base := dict_set base "then" (JDict (typed_ast_to_dict_stmt then_branch)) in
      match else_branch with
      | Some s => dict_set base "else" (JDict (typed_ast_to_dict_stmt s))
      | None => base
      end
  | While cond body =>
      let base := dict_set base "cond" (typed_expr_json cond) in
      dict_set base "body" (JDict (typed_ast_to_dict_stmt body))
  | For init cond post body =>
      let base := match init with
                  | Some s => dict_set base "init" (JDict (typed_ast_to_dict_stmt s))
                  | None => base
                  end in
      let base := match cond with
                  | Some c => dict_set base "cond" (typed_expr_json c)
                  | None => base
                  end in
      let base := match post with
                  | Some s => dict_set base "post" (JDict (typed_ast_to_dict_stmt s))
                  | None => base
                  end in
      dict_set base "body" (JDict (typed_ast_to_dict_stmt body))
  | Print expr => dict_set base "expr" (typed_expr_json expr)
  | Return (Some expr) => dict_set base "expr" (typed_expr_json expr)
  | ExprStmt expr => dict_set base "expr" (typed_expr_json expr)
  | _ => base
  end.

(** [typed_ast_to_dict] on the root. *)
Definition typed_ast_to_dict (node : Program) : pydict :=
  let base := ast_to_dict node in
  dict_set base "body"
    (JList (map (fun s => JDict (typed_ast_to_dict_stmt s)) (body node))).

End Ast.

(** ** domain/symbol_table.py *)

Module SymbolTable.

Record Symbol := mkSymbol {
  name : string;
  type : string
}.

(** A scope is its [symbols]; its [parent] is the scope pushed before
    it, which is the next element of the stack. *)
Definition Scope := gmap string Symbol.

(** [self.scopes], the current scope first. *)
Definition SymbolTable := list Scope.

Definition Scope_define (s : Scope) (name type_ : string) : Scope * bool :=
  match s !! name with
  | Some _ => (s, false)
  | None => (<[name := mkSymbol name type_]> s, true)
  end.

(** [Scope.resolve] from the scope on top of [scopes]. *)
Fixpoint Scope_resolve (scopes : list Scope) (name : string) : option Symbol :=
  match scopes with
  | [] => None
  | scope :: parents =>
      match scope !! name with
      | Some sym => Some sym
      | None => Scope_resolve parents name
      end
  end.

(** [SymbolTable()] *)
Definition new : SymbolTable := [(∅ : Scope)].

Definition push_scope (st : SymbolTable) : SymbolTable := (∅ : Scope) :: st.

Definition pop_scope (st : SymbolTable) : SymbolTable := tl st.

(** [current()] raises [IndexError] on an empty stack; the analyzer
    never empties it (see [Semantics_facts.visit_stmt_depth]), and here
    [define] then answers [False] and [resolve] answers [None]. *)
Definition define (st : SymbolTable) (name type_ : string) : SymbolTable * bool :=
  match st with
  | [] => ([], false)
  | cur :: parents =>
      let '(cur', ok) := Scope_define cur name type_ in (cur' :: parents, ok)
  end.

Definition resolve (st : SymbolTable) (name : string) : option Symbol :=
  Scope_resolve st name.

(** [to_json]: the scopes from level 0, each with its name-to-type map. *)
Definition to_json (st : SymbolTable) : list (nat * gmap string string) :=
  imap (fun idx scope => (idx, type <$> scope)) (rev st).

End SymbolTable.

(** ** pipeline/semantics.py *)

Module Semantics.
Import Ast Errors.

Definition BOOL := "bool".
Definition INT := "int".
Definition FLOAT := "float".
Definition VOID := "void".
Definition ERROR := "error".

Definition NUMERIC (t : string) : bool := String.eqb t INT || String.eqb t FLOAT.

Record FuncSig := mkFuncSig {
  ret : string;
  params : list (string * string)
}.

Record SemanticAnalyzer := mkAnalyzer {
  symtab : SymbolTable.SymbolTable;
  errors : list ParseError;
  funcs : gmap string FuncSig;
  current_ret : option string
}.

Definition new : SemanticAnalyzer := mkAnalyzer SymbolTable.new [] ∅ None.

Definition with_symtab (a : SemanticAnalyzer) (st : SymbolTable.SymbolTable) :=
  mkAnalyzer st (errors a) (funcs a) (current_ret a).

Definition with_ret (a : SemanticAnalyzer) (r : option string) :=
  mkAnalyzer (symtab a) (errors a) (funcs a) r.

Definition err (a : SemanticAnalyzer) (line col : nat) (msg : string) :=
  mkAnalyzer (symtab a) (errors a ++ [mkParseError msg line col])
             (funcs a) (current_ret a).

Definition push_scope (a : SemanticAnalyzer) :=
  with_symtab a (SymbolTable.push_scope (symtab a)).

Definition pop_scope (a : SemanticAnalyzer) :=
  with_symtab a (SymbolTable.pop_scope (symtab a)).

Definition define (a : SemanticAnalyzer) (name type_ : string) :=
  let '(st, ok) := SymbolTable.define (symtab a) name type_ in
  (with_symtab a st, ok).

Definition assignable (to_type from_type : string) : bool :=
  if String.eqb to_type from_type then true
  else if String.eqb to_type FLOAT && String.eqb from_type INT then true
  else if String.eqb to_type VOID then String.eqb from_type VOID
  else false.

(** [visit_expr] and the [visit_*] methods of the expression nodes: the
    analyzer after the visit, the node with its slot filled, and the
    type returned. *)
Fixpoint visit_expr (a : SemanticAnalyzer) (node : Expr)
  : SemanticAnalyzer * Expr * string :=
  match node with
  | Assign name value line col it =>
      match SymbolTable.resolve (symtab a) name with
      | None =>
          let a := err a line col ("Undeclared variable '" +:+ name +:+ "'") in
          let '(a, value', _) := visit_expr a value in
          (a, Assign name value' line col (Some ERROR), ERROR)
      | Some sym =>
          let '(a, value', val_t) := visit_expr a value in
          if negb (assignable (SymbolTable.type sym) val_t)
          then
            (err a line col ("Cannot assign " +:+ val_t +:+ " to "
                             +:+ SymbolTable.type sym +:+ " variable '"
                             +:+ name +:+ "'"),
             Assign name value' line col (Some ERROR), ERROR)
          else (a, Assign name value' line col (Some (SymbolTable.type sym)),
                SymbolTable.type sym)
      end
  | Call name args line col it =>
      match funcs a !! name with
      | None =>
          let a := err a line col ("Call to undefined function '" +:+ name +:+ "'") in
          let '(a, args') :=
            map_accum (fun a x => let '(a', x', _) := visit_expr a x in (a', x'))
                      a args in
          (a, Call name args' line col (Some ERROR), ERROR)
      | Some sig =>
          let a :=
            if negb (length args =? length (params sig))%nat
            then err a line col
                   ("Function '" +:+ name +:+ "' expects "
                    +:+ pretty (length (params sig)) +:+ " arg(s), got "
                    +:+ pretty (length args))
            else a in
          let '(a, args') :=
            zip_accum
              (fun a (p : string * string) arg =>
                 let '(a', arg', at_) := visit_expr a arg in
                 (if negb (assignable (fst p) at_)
                  then err a' line col
                         ("Argument type " +:+ at_
                          +:+ " incompatible with parameter " +:+ fst p
                          +:+ " in call to '" +:+ name +:+ "'")
                  else a',
                  arg'))
              a (params sig) args in
          (a, Call name args' line col (Some (ret sig)), ret sig)
      end
  | Literal value kind it => (a, Literal value kind (Some kind), kind)
  | Var name line col it =>
      match SymbolTable.resolve (symtab a) name with
      | None =>
          (err a line col ("Undeclared variable '" +:+ name +:+ "'"),
           Var name line col (Some ERROR), ERROR)
      | Some sym =>
          (a, Var name line col (Some (SymbolTable.type sym)), SymbolTable.type sym)
      end
  | Unary op rhs it =>
      let '(a, rhs', t) := visit_expr a rhs in
      if String.eqb op "!" then
        if negb (String.eqb t BOOL)
        then (err a 0 0 "'!' requires bool", Unary op rhs' (Some ERROR), ERROR)
        else (a, Unary op rhs' (Some BOOL), BOOL)
      else if in_list op ["+"; "-"] then
        if negb (NUMERIC t)
        then (err a 0 0 ("Unary '" +:+ op +:+ "' requires numeric operand"),
              Unary op rhs' (Some ERROR), ERROR)
        else (a, Unary op rhs' (Some t), t)
      else (a, Unary op rhs' (Some ERROR), ERROR)
  | Binary lhs op rhs it =>
      let '(a, lhs', lt) := visit_expr a lhs in
      let '(a, rhs', rt) := visit_expr a rhs in
      let done_ (a : SemanticAnalyzer) (t : string) :=
        (a, Binary lhs' op rhs' (Some t), t) in
      if in_list op ["+"; "-"; "*"; "/"] then
        if NUMERIC lt && NUMERIC rt
        then done_ a (if String.eqb FLOAT lt || String.eqb FLOAT rt then FLOAT else INT)
        else done_ (err a 0 0 ("Operator '" +:+ op +:+ "' requires numeric operands")) ERROR
      else if String.eqb op "%" then
        if String.eqb lt INT && String.eqb rt INT
        then done_ a INT
        else done_ (err a 0 0 "'%' requires int operands") ERROR
      else if in_list op ["<"; "<="; ">"; ">="] then
        if NUMERIC lt && NUMERIC rt
        then done_ a BOOL
        else done_ (err a 0 0 ("Operator '" +:+ op +:+ "' requires numeric operands")) ERROR
      else if in_list op ["=="; "!="] then
        if String.eqb lt rt && negb (String.eqb lt ERROR)
        then done_ a BOOL
        else done_ (err a 0 0 "'=='/'!=' require operands of the same type") ERROR
      else if in_list op ["&&"; "||"] then
        if String.eqb lt BOOL && String.eqb rt BOOL
        then done_ a BOOL
        else done_ (err a 0 0 "'&&'/'||' require bool operands") ERROR
      else done_ (err a 0 0 ("Unknown operator '" +:+ op +:+ "'")) ERROR
  | Grouping expr it =>
      let '(a, expr', t) := visit_expr a expr in
      (a, Grouping expr' (Some t), t)
  end.

Definition visit_opt {A} (f : SemanticAnalyzer -> A -> SemanticAnalyzer * A)
  (a : SemanticAnalyzer) (o : option A) : SemanticAnalyzer * option A :=
  match o with
  | Some x => let '(a', x') := f a x in (a', Some x')
  | None => (a, None)
  end.

(** The second half of [visit_vardecl]: the initializer. *)
Definition visit_init (a : SemanticAnalyzer)
  (var_type name : string) (init : option Expr) (line col : nat)
  : SemanticAnalyzer * Stmt :=
  match init with
  | Some e =>
      let '(a, e', t) := visit_expr a e in
      (if negb (assignable var_type t)
       then err a line col ("Cannot assign " +:+ t +:+ " to " +:+ var_type
                            +:+ " in declaration '" +:+ name +:+ "'")
       else a,
       VarDecl var_type name (Some e') line col)
  | None => (a, VarDecl var_type name None line col)
  end.

Definition visit_vardecl (a : SemanticAnalyzer)
  (var_type name : string) (init : option Expr) (line col : nat)
  : SemanticAnalyzer * Stmt :=
  let '(a, ok) := define a name var_type in
  let a := if negb ok
           then err a line col ("Redeclaration of '" +:+ name +:+ "'")
           else a in
  visit_init a var_type name init line col.

Definition visit_cond (a : SemanticAnalyzer) (cond : Expr) (msg : string)
  : SemanticAnalyzer * Expr :=
  let '(a, cond', t) := visit_expr a cond in
  (if negb (String.eqb t BOOL) then err a 0 0 msg else a, cond').

Definition visit_return (a : SemanticAnalyzer) (expr : option Expr)
  : SemanticAnalyzer * Stmt :=
  match current_ret a with
  | None =>
      match expr with
      | Some e => let '(a, e', _) := visit_expr a e in (a, Return (Some e'))
      | None => (a, Return None)
      end
  | Some cur =>
      match expr with
      | None =>
          (if negb (String.eqb cur VOID)
           then err a 0 0 ("Return value required for function returning " +:+ cur)
           else a,
           Return None)
      | Some e =>
          let '(a, e', t) := visit_expr a e in
          (if negb (assignable cur t)
           then err a 0 0 ("Cannot return " +:+ t
                           +:+ " from function returning " +:+ cur)
           else a,
           Return (Some e'))
      end
  end.

(** One round of the loop of [visit_block], over the statement visitor
    it calls. *)
Definition block_item
  (visit : SemanticAnalyzer -> Stmt -> SemanticAnalyzer * Stmt)
  (a : SemanticAnalyzer) (s : Stmt) : SemanticAnalyzer * Stmt :=
  match s with
  | FunctionDecl _ _ _ _ =>
      (err a 0 0 "Nested function declarations not allowed", s)
  | _ => visit a s
  end.

(** [visit_block] *)
Definition visit_block_with
  (visit : SemanticAnalyzer -> Stmt -> SemanticAnalyzer * Stmt)
  (a : SemanticAnalyzer) (statements : list Stmt)
  : SemanticAnalyzer * list Stmt :=
  let a := push_scope a in
  let '(a, statements') := map_accum (block_item visit) a statements in
  (pop_scope a, statements').

(** [visit_stmt] with [visit_if], [visit_while] and [visit_for]; a
    [FunctionDecl] met here is returned untouched. *)
Fixpoint visit_stmt (a : SemanticAnalyzer) (node : Stmt) : SemanticAnalyzer * Stmt :=
  match node with
  | Block statements =>
      let '(a, statements') := visit_block_with visit_stmt a statements in
      (a, Block statements')
  | VarDecl var_type name init line col => visit_vardecl a var_type name init line col
  | If cond then_branch else_branch =>
      let '(a, cond') := visit_cond a cond "if condition must be bool" in
      let '(a, then') := visit_stmt a then_branch in
      let '(a, else') := visit_opt visit_stmt a else_branch in
      (a, If cond' then' else')
  | While cond body =>
      let '(a, cond') := visit_cond a cond "while condition must be bool" in
      let '(a, body') := visit_stmt a body in
      (a, While cond' body')
  | For init cond post body =>
      let a := push_scope a in
      let '(a, init') := visit_opt visit_stmt a init in
      let '(a, cond') :=
        visit_opt (fun a c => visit_cond a c "for condition must be bool") a cond in
      let '(a, post') := visit_opt visit_stmt a post in
      let '(a, body') := visit_stmt a body in
      (pop_scope a, For init' cond' post' body')
  | Print expr =>
      let '(a, expr', _) := visit_expr a expr in (a, Print expr')
  | Return expr => visit_return a expr
  | ExprStmt expr =>
      let '(a, expr', _) := visit_expr a expr in (a, ExprStmt expr')
  | FunctionDecl _ _ _ _ => (a, node)
  end.

Definition visit_block : SemanticAnalyzer -> list Stmt -> SemanticAnalyzer * list Stmt :=
  visit_block_with visit_stmt.

Definition define_params (a : SemanticAnalyzer) (ps : list Param) : SemanticAnalyzer :=
  fold_left
    (fun a p =>
       let '(a, ok) := define a (pname p) (ptype p) in
       if negb ok then err a 0 0 ("Parameter redeclared: " +:+ pname p) else a)
    ps a.

Definition visit_function (a : SemanticAnalyzer)
  (return_type name : string) (ps : list Param) (body : list Stmt)
  : SemanticAnalyzer * Stmt :=
  let saved_ret := current_ret a in
  let a := with_ret a (Some return_type) in
  let a := push_scope a in
  let a := define_params a ps in
  let '(a, body') := visit_block a body in
  let a := pop_scope a in
  let a := with_ret a saved_ret in
  (a, FunctionDecl return_type name ps body').

Definition collect_signatures (a : SemanticAnalyzer) (body : list Stmt) :=
  fold_left
    (fun a s =>
       match s with
       | FunctionDecl return_type name ps _ =>
           match funcs a !! name with
           | Some _ => err a 0 0 ("Redeclaration of function '" +:+ name +:+ "'")
           | None =>
               mkAnalyzer (symtab a) (errors a)
                 (<[name := mkFuncSig return_type
                              (map (fun p => (ptype p, pname p)) ps)]> (funcs a))
                 (current_ret a)
           end
       | _ => a
       end)
    body a.

Definition visit_top (a : SemanticAnalyzer) (s : Stmt) : SemanticAnalyzer * Stmt :=
  match s with
  | FunctionDecl return_type name ps body => visit_function a return_type name ps body
  | _ => visit_stmt a s
  end.

Definition visit_program (a : SemanticAnalyzer) (node : Program)
  : SemanticAnalyzer * Program :=
  let a := collect_signatures a (body node) in
  let '(a, body') := map_accum visit_top a (body node) in
  (a, mkProgram body').

Record analysis := mkAnalysis {
  typed_root : Program;
  typed_json : pydict;
  symbol_table : list (nat * gmap string string);
  result_errors : list ParseError;
  func_table : gmap string FuncSig
}.

Definition analyze (ast_root : Program) : analysis :=
  let '(analyzer, typed_root) := visit_program new ast_root in
  mkAnalysis typed_root (typed_ast_to_dict typed_root)
             (SymbolTable.to_json (symtab analyzer))
             (errors analyzer) (funcs analyzer).

End Semantics.

(** ** pipeline/ir.py *)

Module IR.
Import Ast.

Inductive IRInstr :=
| Label (name : string)
| Goto (label : string)
| IfFalse (cond label : string)
| AssignInstr (dst src : string)
| BinOp (dst op left right : string)
| UnaryOp (dst op operand : string)
| PrintInstr (value : string)
| ReturnInstr (value : option string)
| FuncStart (name : string) (params : list string)
| FuncEnd (name : string)
| CallInstr (dst : option string) (name : string) (args : list string).

Definition render (i : IRInstr) : string :=
  match i with
  | Label name => name +:+ ":"
  | Goto label => "goto " +:+ label
  | IfFalse cond label => "iffalse " +:+ cond +:+ " goto " +:+ label
  | AssignInstr dst src => dst +:+ " = " +:+ src
  | BinOp dst op l r => dst +:+ " = " +:+ l +:+ " " +:+ op +:+ " " +:+ r
  | UnaryOp dst op operand => dst +:+ " = " +:+ op +:+ operand
  | PrintInstr value => "print " +:+ value
  | ReturnInstr (Some value) => "return " +:+ value
  | ReturnInstr None => "return"
  | FuncStart name params =>
      "func " +:+ name +:+ "(" +:+ Py.join ", " params +:+ ")"
  | FuncEnd name => "endfunc " +:+ name
  | CallInstr dst name args =>
      "call " +:+ default "_" dst +:+ " = " +:+ name
      +:+ "(" +:+ Py.join ", " args +:+ ")"
  end.

Record IRBuilder := mkBuilder {
  code : list IRInstr;
  temp_counter : nat;
  label_counter : nat
}.

Definition new : IRBuilder := mkBuilder [] 0 0.

Definition emit (b : IRBuilder) (i : IRInstr) : IRBuilder :=
  mkBuilder (code b ++ [i]) (temp_counter b) (label_counter b).

Definition new_temp (b : IRBuilder) : IRBuilder * string :=
  let n := S (temp_counter b) in
  (mkBuilder (code b) n (label_counter b), "t" +:+ pretty n).

Definition new_label (b : IRBuilder) (base : string) : IRBuilder * string :=
  let n := S (label_counter b) in
  (mkBuilder (code b) (temp_counter b) n, base +:+ pretty n).

Section Builder.
(** [str(x)] for a float [x]. *)
Variable py_repr : float -> string.

(** [str(e.value)] *)
Definition str_lit (v : lit) : string :=
  match v with
  | LInt z => pretty z
  | LFloat f => py_repr f
  | LBool b => if b then "True" else "False"
  end.

(** [bool(e.value)] *)
Definition bool_lit (v : lit) : bool :=
  match v with
  | LInt z => negb (z =? 0)%Z
  | LFloat f => Py.nonzero f
  | LBool b => b
  end.

Fixpoint gen_expr (b : IRBuilder) (e : Expr) : IRBuilder * string :=
  match e with
  | Literal value kind _ =>
      if String.eqb kind "bool"
      then (b, if bool_lit value then "1" else "0")
      else (b, str_lit value)
  | Var name _ _ _ => (b, name)
  | Assign name value _ _ _ =>
      let '(b, rhs) := gen_expr b value in
      (emit b (AssignInstr name rhs), name)
  | Unary op rhs _ =>
      let '(b, t) := new_temp b in
      let '(b, r) := gen_expr b rhs in
      (emit b (UnaryOp t op r), t)
  | Binary lhs op rhs _ =>
      let '(b, t) := new_temp b in
      let '(b, l) := gen_expr b lhs in
      let '(b, r) := gen_expr b rhs in
      (emit b (BinOp t op l r), t)
  | Grouping expr _ => gen_expr b expr
  | Call name args _ _ it =>
      let '(b, dst) :=
        match it with
        | Some "void" => (b, None)
        | _ => let '(b, t) := new_temp b in (b, Some t)
        end in
      let '(b, args') := map_accum gen_expr b args in
      (emit b (CallInstr dst name args'), default "0" dst)
  end.

(** [gen_stmt].  In the [Block] case the [return] stands in the body of
    the [for] loop, so the loop ends after its first round; on an empty
    block no case applies.  The body of a [FunctionDecl] is a block. *)
Fixpoint gen_stmt (b : IRBuilder) (s : Stmt) : IRBuilder :=
  let gen_block (b : IRBuilder) (statements : list Stmt) : IRBuilder :=
    match statements with
    | st :: _ => gen_stmt b st
    | [] => b
    end in
  match s with
  | Block statements => gen_block b statements
  | VarDecl _ name init _ _ =>
      match init with
      | Some e => let '(b, v) := gen_expr b e in emit b (AssignInstr name v)
      | None => b
      end
  | If cond then_branch else_branch =>
      let '(b, else_lbl) := new_label b "Lelse" in
      let '(b, end_lbl) := new_label b "Lend" in
      let '(b, c) := gen_expr b cond in
      let b := emit b (IfFalse c else_lbl) in
      let b := gen_stmt b then_branch in
      let b := emit b (Goto end_lbl) in
      let b := emit b (Label else_lbl) in
      let b := match else_branch with
               | Some s' => gen_stmt b s'
               | None => b
               end in
      emit b (Label end_lbl)
  | While cond body =>
      let '(b, start) := new_label b "Lwhile" in
      let '(b, end_) := new_label b "Lwend" in
      let b := emit b (Label start) in
      let '(b, c) := gen_expr b cond in
      let b := emit b (IfFalse c end_) in
      let b := gen_stmt b body in
      let b := emit b (Goto start) in
      emit b (Label end_)
  | For init cond post body =>
      let '(b, start) := new_label b "Lfor" in
      let '(b, end_) := new_label b "Lfend" in
      let b := match init with
               | Some s' => gen_stmt b s'
               | None => b
               end in
      let b := emit b (Label start) in
      let b := match cond with
               | Some c => let '(b, v) := gen_expr b c in emit b (IfFalse v end_)
               | None => b
               end in
      let b := gen_stmt b body in
      let b := match post with
               | Some s' => gen_stmt b s'
               | None => b
               end in
      let b := emit b (Goto start) in
      emit b (Label end_)
  | Print expr => let '(b, v) := gen_expr b expr in emit b (PrintInstr v)
  | Return expr =>
      match expr with
      | Some e => let '(b, v) := gen_expr b e in emit b (ReturnInstr (Some v))
      | None => emit b (ReturnInstr None)
      end
  | ExprStmt expr => fst (gen_expr b expr)
  | FunctionDecl _ name params body =>
      let b := emit b (FuncStart name (map pname params)) in
      let b := gen_block b body in
      emit b (FuncEnd name)
  end.

Definition gen (b : IRBuilder) (root : Program) : list IRInstr :=
  code (fold_left gen_stmt (body root) b).

Definition ir_gen (typed_root : Program) : list IRInstr := gen new typed_root.

End Builder.

End IR.

(** ** pipeline/optimizer.py *)

Module Optimizer.
Import IR.

Section Passes.
(** The class [\d] of [re] on the characters of a [str]: the decimal
    digits of every script, those of ASCII among them. *)
Variable re_digit : ascii -> bool.
(** [float(x)] for a string [x]: [None] where it raises. *)
Variable py_float : string -> option float.
(** [str(x)] for a float [x]. *)
Variable py_repr : float -> string.

(** [\d*$] after the first digit: [$] also matches in front of a final
    newline. *)
Fixpoint digits_end (s : string) : bool :=
  match s with
  | EmptyString => true
  | String c s' =>
      if re_digit c then digits_end s'
      else Ascii.eqb c "010"%char && String.eqb s' ""
  end.

(** [TEMP_RE.match(name) is not None] for [^t\d+$]. *)
Definition is_temp (name : string) : bool :=
  match name with
  | String "t"%char (String c s') => re_digit c && digits_end s'
  | _ => false
  end.

Definition is_const (x : string) : bool :=
  match py_float x with
  | Some _ => true
  | None => in_list x ["0"; "1"]
  end.

(** The handler reads ['0'] and ['1'] with [float] again. *)
Definition const_val (x : string) : option float :=
  match py_float x with
  | Some v => Some v
  | None => if in_list x ["0"; "1"] then py_float x else None
  end.

Definition fmt_num (x : float) : string :=
  if Py.is_integer x
  then match Py.int_of_float x with
       | Ok z => pretty z
       | Raise _ => py_repr x
       end
  else py_repr x.

Definition of_res (res : bool) : option string := Some (if res then "1" else "0").

Definition eval_bin (op a b : string) : option string :=
  match const_val a, const_val b with
  | Some av, Some bv =>
      if String.eqb op "+" then Some (fmt_num (PrimFloat.add av bv))
      else if String.eqb op "-" then Some (fmt_num (PrimFloat.sub av bv))
      else if String.eqb op "*" then Some (fmt_num (PrimFloat.mul av bv))
      else if String.eqb op "/" then
        if PrimFloat.eqb bv 0%float then None
        else Some (fmt_num (PrimFloat.div av bv))
      else if String.eqb op "%" then
        if Py.is_integer av && Py.is_integer bv && Py.nonzero bv
        then match Py.int_of_float av, Py.int_of_float bv with
             | Ok x, Ok y => Some (fmt_num (Py.float_of_int (x mod y)))
             | _, _ => None
             end
        else None
      else if String.eqb op "<" then of_res (PrimFloat.ltb av bv)
      else if String.eqb op "<=" then of_res (PrimFloat.leb av bv)
      else if String.eqb op ">" then of_res (PrimFloat.ltb bv av)
      else if String.eqb op ">=" then of_res (PrimFloat.leb bv av)
      else if String.eqb op "==" then of_res (PrimFloat.eqb av bv)
      else if String.eqb op "!=" then of_res (negb (PrimFloat.eqb av bv))
      else if String.eqb op "&&" then of_res (Py.nonzero av && Py.nonzero bv)
      else if String.eqb op "||" then of_res (Py.nonzero av || Py.nonzero bv)
      else None
  | _, _ => None
  end.

Definition eval_unary (op a : string) : option string :=
  match const_val a with
  | None => None
  | Some av =>
      if String.eqb op "!" then Some (if Py.nonzero av then "0" else "1")
      else if String.eqb op "+" then Some (fmt_num av)
      else if String.eqb op "-" then Some (fmt_num (PrimFloat.opp av))
      else None
  end.

(** [is_const(x) and const_val(x) == k] *)
Definition const_is (x : string) (k : float) : bool :=
  is_const x &&
  match const_val x with
  | Some v => PrimFloat.eqb v k
  | None => false
  end.

Definition fold_instr (ins : IRInstr) : IRInstr :=
  match ins with
  | BinOp dst op l r =>
      match (if is_const l && is_const r then eval_bin op l r else None) with
      | Some val => AssignInstr dst val
      | None =>
          if in_list op ["+"; "-"] && const_is r 0%float then AssignInstr dst l
          else if String.eqb op "*" && const_is r 1%float then AssignInstr dst l
          else if String.eqb op "/" && const_is r 1%float then AssignInstr dst l
          else if String.eqb op "*" && const_is r 0%float then AssignInstr dst "0"
          else if String.eqb op "*" && const_is l 0%float then AssignInstr dst "0"
          else ins
      end
  | UnaryOp dst op operand =>
      match (if is_const operand then eval_unary op operand else None) with
      | Some val => AssignInstr dst val
      | None => ins
      end
  | _ => ins
  end.

Definition constant_fold (ir : list IRInstr) : list IRInstr := map fold_instr ir.

Definition used_vars (ins : IRInstr) : list string :=
  match ins with
  | BinOp _ _ l r => [l; r]
  | UnaryOp _ _ operand => [operand]
  | AssignInstr _ src => [src]
  | IfFalse cond _ => [cond]
  | PrintInstr value => [value]
  | ReturnInstr (Some value) => [value]
  | _ => []
  end.

Definition defined_var (ins : IRInstr) : option string :=
  match ins with
  | AssignInstr dst _ | BinOp dst _ _ _ | UnaryOp dst _ _ => Some dst
  | _ => None
  end.

Definition has_side_effect (ins : IRInstr) : bool :=
  match ins with
  | PrintInstr _ | ReturnInstr _ | IfFalse _ _ | Goto _ | Label _ => true
  | AssignInstr dst _ => negb (is_temp dst)
  | _ => false
  end.

(** [for u in used_vars(ins): if not is_const(u): live.add(u)] *)
Definition add_used (live : gset string) (ins : IRInstr) : gset string :=
  fold_left (fun live u => if is_const u then live else {[u]} ∪ live)
            (used_vars ins) live.

(** One round of the loop of [dce]: the live set and [out_rev]. *)
Definition dce_step (st : gset string * list IRInstr) (ins : IRInstr)
  : gset string * list IRInstr :=
  let '(live, out_rev) := st in
  let d := defined_var ins in
  let d_live := match d with
                | Some x => bool_decide (x ∈ live)
                | None => false
                end in
  let d_none := match d with
                | Some _ => false
                | None => true
                end in
  if has_side_effect ins || d_live || d_none
  then
    let live := add_used live ins in
    let live := match d with
                | Some x => if bool_decide (x ∈ live) then live ∖ {[x]} else live
                | None => live
                end in
    (live, out_rev ++ [ins])
  else (add_used live ins, out_rev).

Definition dce (ir : list IRInstr) : list IRInstr :=
  rev (snd (fold_left dce_step (rev ir) (∅, []))).

Definition optimize_ir (ir : list IRInstr) : list IRInstr :=
  dce (constant_fold ir).

End Passes.

End Optimizer.

(** ** pipeline/codegen.py *)

Module Codegen.

Inductive BCInstr :=
| BLabel (name : string)
| BJmp (label : string)
| BIfFalse (cond label : string)
| BMov (dst src : string)
| BUnary (dst op src : string)
| BBin (dst op left right : string)
| BPrint (value : string)
| BRet (value : option string)
| BFunc (name : string) (params : list string)
| BEndFunc (name : string)
| BCall (dst : option string) (name : string) (args : list string).

Definition render (i : BCInstr) : string :=
  match i with
  | BLabel name => name +:+ ":"
  | BJmp label => "JMP " +:+ label
  | BIfFalse cond label => "IFFALSE " +:+ cond +:+ " " +:+ label
  | BMov dst src => "MOV " +:+ dst +:+ ", " +:+ src
  | BUnary dst op src => "UNARY " +:+ dst +:+ ", " +:+ op +:+ ", " +:+ src
  | BBin dst op l r =>
      "BIN " +:+ dst +:+ ", " +:+ op +:+ ", " +:+ l +:+ ", " +:+ r
  | BPrint value => "PRINT " +:+ value
  | BRet (Some value) => "RET " +:+ value
  | BRet None => "RET"
  | BFunc name params => "FUNC " +:+ name +:+ "(" +:+ Py.join ", " params +:+ ")"
  | BEndFunc name => "ENDFUNC " +:+ name
  | BCall dst name args =>
      "CALL " +:+ default "_" dst +:+ " = " +:+ name
      +:+ "(" +:+ Py.join ", " args +:+ ")"
  end.

Definition gen_instr (ins : IR.IRInstr) : BCInstr :=
  match ins with
  | IR.Label name => BLabel name
  | IR.Goto label => BJmp label
  | IR.IfFalse cond label => BIfFalse cond label
  | IR.AssignInstr dst src => BMov dst src
  | IR.UnaryOp dst op operand => BUnary dst op operand
  | IR.BinOp dst op l r => BBin dst op l r
  | IR.PrintInstr value => BPrint value
  | IR.ReturnInstr value => BRet value
  | IR.FuncStart name params => BFunc name params
  | IR.FuncEnd name => BEndFunc name
  | IR.CallInstr dst name args => BCall dst name args
  end.

Definition codegen (ir : list IR.IRInstr) : list BCInstr := map gen_instr ir.

End Codegen.

(** ** pipeline/peephole.py *)

Module Peephole.
Import Codegen.

Definition is_mov_self (ins : BCInstr) : bool :=
  match ins with
  | BMov dst src => String.eqb dst src
  | _ => false
  end.

Definition remove_mov_self (code : list BCInstr) : list BCInstr :=
  List.filter (fun ins => negb (is_mov_self ins)) code.

(** [isinstance(ins, BJmp) and i + 1 < n and isinstance(code[i+1], BLabel)
    and code[i+1].name == ins.label], for [ins] in front of [rest]. *)
Definition jmp_to_next (ins : BCInstr) (rest : list BCInstr) : bool :=
  match ins, rest with
  | BJmp label, BLabel name :: _ => String.eqb name label
  | _, _ => false
  end.

Fixpoint remove_jmp_to_next_label (code : list BCInstr) : list BCInstr :=
  match code with
  | [] => []
  | ins :: rest =>
      if jmp_to_next ins rest then remove_jmp_to_next_label rest
      else ins :: remove_jmp_to_next_label rest
  end.

(** The first loop of [collapse_consecutive_labels]: [out], [label_map]
    and [prev_label] after each instruction. *)
Definition collapse_step
  (st : list BCInstr * gmap string string * option string) (ins : BCInstr)
  : list BCInstr * gmap string string * option string :=
  let '(out, label_map, prev_label) := st in
  match ins with
  | BLabel name =>
      match prev_label with
      | None => (out ++ [ins], label_map, Some name)
      | Some prev => (out, <[name := prev]> label_map, prev_label)
      end
  | _ => (out ++ [ins], label_map, None)
  end.

(** [remap]: [while name in label_map: name = label_map[name]], with
    [None] when [k] rounds do not leave the map. *)
Fixpoint remap_loop (label_map : gmap string string) (k : nat) (name : string)
  : option string :=
  match label_map !! name with
  | None => Some name
  | Some name' =>
      match k with
      | O => None
      | S k' => remap_loop label_map k' name'
      end
  end.

(** A walk that leaves the map does so within [size label_map] rounds
    (see [Peephole_facts.remap_loop_fuel]); past that it runs forever. *)
Definition remap (label_map : gmap string string) (name : string) : option string :=
  remap_loop label_map (size label_map) name.

Definition remap_instr (label_map : gmap string string) (ins : BCInstr)
  : option BCInstr :=
  match ins with
  | BJmp label => BJmp <$> remap label_map label
  | BIfFalse cond label => BIfFalse cond <$> remap label_map label
  | _ => Some ins
  end.

(** [None] when a [remap] does not return. *)
Definition collapse_consecutive_labels (code : list BCInstr) : option (list BCInstr) :=
  let '(out, label_map, _) := fold_left collapse_step code ([], ∅, None) in
  mapM (remap_instr label_map) out.

Definition peephole (code : list BCInstr) : option (list BCInstr) :=
  let code := remove_mov_self code in
  let code := remove_jmp_to_next_label code in
  collapse_consecutive_labels code.

End Peephole.

(** ** pipeline/vm.py *)

Module VM.
Import Codegen.

(** The object an [env] field refers to: the dictionary [global_env]
    itself, or a dictionary made by a [CALL], which only that field
    refers to. *)
Inductive env_ref :=
| EGlobal
| ELocal (d : gmap string float).

Record Frame := mkFrame {
  frame_env : env_ref;
  ret_pc : nat;
  ret_dst : option string
}.

(** An entry of [func_meta]. *)
Record FuncMeta := mkMeta {
  start : nat;
  end_ : nat;
  params : list string
}.

Record VM := mkVM {
  code : list BCInstr;
  labels : gmap string nat;
  func_meta : gmap string FuncMeta;
  pc : nat;
  n : nat;
  stack : list Frame;
  global_env : gmap string float;
  env : env_ref;
  output : list string
}.

(** One round of the loop of [_index], on instruction [i]. *)
Definition index_step
  (st : gmap string nat * gmap string FuncMeta * list string)
  (i : nat) (ins : BCInstr)
  : gmap string nat * gmap string FuncMeta * list string :=
  let '(labels, func_meta, func_stack) := st in
  match ins with
  | BLabel name => (<[name := i]> labels, func_meta, func_stack)
  | BFunc name params =>
      (labels, <[name := mkMeta i i params]> func_meta, name :: func_stack)
  | BEndFunc _ =>
      match func_stack with
      | name :: func_stack' =>
          (labels,
           alter (fun m => mkMeta (start m) i (params m)) name func_meta,
           func_stack')
      | [] => st
      end
  | _ => st
  end.

Fixpoint index_from (i : nat) (code : list BCInstr)
  (st : gmap string nat * gmap string FuncMeta * list string)
  : gmap string nat * gmap string FuncMeta * list string :=
  match code with
  | [] => st
  | ins :: code' => index_from (S i) code' (index_step st i ins)
  end.

Definition _index (code : list BCInstr) : gmap string nat * gmap string FuncMeta :=
  fst (index_from 0 code (∅, ∅, [])).

(** [VM(code)] *)
Definition init (code : list BCInstr) : VM :=
  let '(labels, func_meta) := _index code in
  mkVM code labels func_meta 0 (length code) [] ∅ EGlobal [].

(** The dictionary a reference denotes in the state [vm]. *)
Definition deref (vm : VM) (r : env_ref) : gmap string float :=
  match r with
  | EGlobal => global_env vm
  | ELocal d => d
  end.

Definition cur_env (vm : VM) : gmap string float := deref vm (env vm).

Definition with_pc (vm : VM) (pc' : nat) : VM :=
  mkVM (code vm) (labels vm) (func_meta vm) pc' (n vm) (stack vm)
       (global_env vm) (env vm) (output vm).

Definition with_stack (vm : VM) (stack' : list Frame) : VM :=
  mkVM (code vm) (labels vm) (func_meta vm) (pc vm) (n vm) stack'
       (global_env vm) (env vm) (output vm).

Definition with_env (vm : VM) (env' : env_ref) : VM :=
  mkVM (code vm) (labels vm) (func_meta vm) (pc vm) (n vm) (stack vm)
       (global_env vm) env' (output vm).

Definition with_output (vm : VM) (output' : list string) : VM :=
  mkVM (code vm) (labels vm) (func_meta vm) (pc vm) (n vm) (stack vm)
       (global_env vm) (env vm) output'.

Definition _is_true (v : float) : bool := Py.nonzero v.

(** [self.env[name] = val]: the write lands in the dictionary that
    [env] refers to. *)
Definition _set (vm : VM) (name : string) (val : float) : VM :=
  match env vm with
  | EGlobal =>
      mkVM (code vm) (labels vm) (func_meta vm) (pc vm) (n vm) (stack vm)
           (<[name := val]> (global_env vm)) EGlobal (output vm)
  | ELocal d => with_env vm (ELocal (<[name := val]> d))
  end.

Section Machine.
(** [float(x)] for a string [x]: [None] where it raises. *)
Variable py_float : string -> option float.
(** [str(x)] for a float [x]. *)
Variable py_repr : float -> string.

Definition _parse_num (x : string) : option float := py_float x.

Definition _fmt (v : float) : string :=
  if Py.is_integer v
  then match Py.int_of_float v with
       | Ok z => pretty z
       | Raise _ => py_repr v
       end
  else py_repr v.

Definition _get (vm : VM) (x : string) : float :=
  match _parse_num x with
  | Some v => v
  | None =>
      match cur_env vm !! x with
      | Some v => v
      | None => default 0%float (global_env vm !! x)
      end
  end.

Definition unary (op : string) (a : float) : result float :=
  if String.eqb op "!" then Ok (if _is_true a then 0%float else 1%float)
  else if String.eqb op "+" then Ok a
  else if String.eqb op "-" then Ok (PrimFloat.opp a)
  else Raise (RuntimeError ("Unknown unary op " +:+ op)).

Definition binary (op : string) (a b : float) : result float :=
  if String.eqb op "+" then Ok (PrimFloat.add a b)
  else if String.eqb op "-" then Ok (PrimFloat.sub a b)
  else if String.eqb op "*" then Ok (PrimFloat.mul a b)
  else if String.eqb op "/" then Py.truediv a b
  else if String.eqb op "%" then
    Py.bind (Py.int_of_float a) (fun x =>
    Py.bind (Py.int_of_float b) (fun y =>
    Py.bind (Py.int_mod x y) (fun r => Ok (Py.float_of_int r))))
  else if String.eqb op "<" then Ok (Py.of_bool (PrimFloat.ltb a b))
  else if String.eqb op "<=" then Ok (Py.of_bool (PrimFloat.leb a b))
  else if String.eqb op ">" then Ok (Py.of_bool (PrimFloat.ltb b a))
  else if String.eqb op ">=" then Ok (Py.of_bool (PrimFloat.leb b a))
  else if String.eqb op "==" then Ok (Py.of_bool (PrimFloat.eqb a b))
  else if String.eqb op "!=" then Ok (Py.of_bool (negb (PrimFloat.eqb a b)))
  else if String.eqb op "&&" then Ok (Py.of_bool (Py.nonzero a && Py.nonzero b))
  else if String.eqb op "||" then Ok (Py.of_bool (Py.nonzero a || Py.nonzero b))
  else Raise (RuntimeError ("Unknown bin op " +:+ op)).

(** The fresh environment of a call:
    [for i, p in enumerate(params): env[p] = arg_vals[i] if i < len(arg_vals) else 0.0] *)
Fixpoint bind_params (params : list string) (arg_vals : list float)
  (d : gmap string float) : gmap string float :=
  match params with
  | [] => d
  | p :: params' =>
      match arg_vals with
      | v :: arg_vals' => bind_params params' arg_vals' (<[p := v]> d)
      | [] => bind_params params' [] (<[p := 0%float]> d)
      end
  end.

(** Popping a frame: the caller's environment is current again and its
    destination, when there is one, receives [val]. *)
Definition do_return (vm : VM) (frame : Frame) (rest : list Frame) (val : float) : VM :=
  let vm := with_stack vm rest in
  let vm := with_env vm (frame_env frame) in
  let vm := match ret_dst frame with
            | Some dst => _set vm dst val
            | None => vm
            end in
  with_pc vm (ret_pc frame).

(** [step]: the state after the instruction and the flag returned. *)
Definition step (vm : VM) : result (VM * bool) :=
  if (n vm <=? pc vm)%nat then Ok (vm, false)
  else
    match code vm !! pc vm with
    | None => Raise IndexError
    | Some ins =>
        let vm := with_pc vm (S (pc vm)) in
        match ins with
        | BFunc name _ =>
            match stack vm with
            | [] =>
                let end_ := match func_meta vm !! name with
                            | Some meta => end_ meta
                            | None => pc vm - 1
                            end in
                Ok (with_pc vm (end_ + 1), true)
            | _ :: _ => Ok (vm, true)
            end
        | BEndFunc _ =>
            match stack vm with
            | frame :: rest => Ok (do_return vm frame rest 0%float, true)
            | [] => Ok (vm, true)
            end
        | BLabel _ => Ok (vm, true)
        | BJmp label =>
            Ok (with_pc vm (default (pc vm) (labels vm !! label)), true)
        | BIfFalse cond label =>
            if negb (_is_true (_get vm cond))
            then Ok (with_pc vm (default (pc vm) (labels vm !! label)), true)
            else Ok (vm, true)
        | BMov dst src => Ok (_set vm dst (_get vm src), true)
        | BUnary dst op src =>
            Py.bind (unary op (_get vm src)) (fun v => Ok (_set vm dst v, true))
        | BBin dst op l r =>
            Py.bind (binary op (_get vm l) (_get vm r))
                    (fun v => Ok (_set vm dst v, true))
        | BPrint value =>
            Ok (with_output vm (output vm ++ [_fmt (_get vm value)]), true)
        | BCall dst name args =>
            match func_meta vm !! name with
            | None => Ok (vm, true)
            | Some meta =>
                let arg_vals := map (_get vm) args in
                let vm' := with_stack vm (mkFrame (env vm) (pc vm) dst :: stack vm) in
                let vm' := with_env vm' (ELocal (bind_params (params meta) arg_vals ∅)) in
                Ok (with_pc vm' (start meta + 1), true)
            end
        | BRet value =>
            match stack vm with
            | [] => Ok (with_pc vm (n vm), false)
            | frame :: rest =>
                let ret_val := match value with
                               | Some x => _get vm x
                               | None => 0%float
                               end in
                Ok (do_return vm frame rest ret_val, true)
            end
        end
    end.

(** [while self.step(): pass], for at most [fuel] steps: [None] when the
    machine is still running after them. *)
Fixpoint run_loop (fuel : nat) (vm : VM) : option (result VM) :=
  match fuel with
  | O => None
  | S fuel' =>
      match step vm with
      | Raise e => Some (Raise e)
      | Ok (vm', false) => Some (Ok vm')
      | Ok (vm', true) => run_loop fuel' vm'
      end
  end.

Definition final_output (vm : VM) : string :=
  Py.join (String "010"%char EmptyString) (output vm).

(** [run(bytecode)] *)
Definition run (fuel : nat) (bytecode : list BCInstr) : option (result string) :=
  match run_loop fuel (init bytecode) with
  | Some (Ok vm) => Some (Ok (final_output vm))
  | Some (Raise e) => Some (Raise e)
  | None => None
  end.

End Machine.

End VM.

(** * Verification *)

(** ** Facts about the lexer *)

Module Lexer_facts.
Import Tokens Lexer.

(** The text holds a ['*'] directly followed by a ['/']. *)
Fixpoint has_close (l : list ascii) : bool :=
  match l with
  | [] => false
  | c :: l' =>
      (Ascii.eqb c "*"%char
       && match l' with
          | c' :: _ => Ascii.eqb c' "/"%char
          | [] => false
          end)
      || has_close l'
  end.

(** [j] rounds of the loop of [tokenize] that all go on: the state and
    the tokens after them. *)
Fixpoint rounds (j : nat) (lx : Lexer) (out : list Token)
  : option (Lexer * list Token) :=
  match j with
  | O => Some (lx, out)
  | S j' =>
      match _skip_ws_and_comments lx with
      | None => None
      | Some lx1 =>
          match scan lx1 out with
          | inl _ => None
          | inr (lx2, out') => rounds j' lx2 out'
          end
      end
  end.

Definition size (lx : Lexer) : nat := length (rest lx).


Ltac size_lia := unfold size in *; lia.

Lemma advance_rest lx : rest (_advance lx).1 = tl (rest lx).
Proof. unfold _advance. cbn. by destruct (Ascii.eqb _ _). Qed.

Lemma peek_nonempty lx :
  _peek lx 0 <> NUL -> exists c l, rest lx = c :: l.
Proof.
  unfold _peek. destruct (rest lx) as [|c l]; simpl; [done|]. eauto.
Qed.

Lemma advance_size lx :
  _peek lx 0 <> NUL -> S (size (_advance lx).1) = size lx.
Proof.
  intros (c & l & H)%peek_nonempty. unfold size.
  by rewrite advance_rest, H.
Qed.

Lemma advance_size_le lx : size (_advance lx).1 <= size lx.
Proof.
  unfold size. rewrite advance_rest. destruct (rest lx); simpl; size_lia.
Qed.

Lemma peek_advance lx k : _peek (_advance lx).1 k = _peek lx (S k).
Proof.
  unfold _peek. rewrite advance_rest.
  destruct (rest lx); simpl; [by destruct k|done].
Qed.

(** From here on [_advance] is used through the three lemmas above. *)
#[local] Opaque _advance.

Lemma eqb_neq_NUL (ch c : ascii) : Ascii.eqb ch c = true -> c <> NUL -> ch <> NUL.
Proof. intros ->%Ascii.eqb_eq. done. Qed.

Lemma skip_line_size k lx : size (skip_line k lx) <= size lx.
Proof.
  revert lx. induction k as [|k IH]; intros lx; cbn [skip_line]; [done|].
  destruct (_ || _); [done|].
  etrans; [apply IH|apply advance_size_le].
Qed.

Lemma skip_line_progress k lx :
  _peek lx 0 <> NUL -> _peek lx 0 <> NL -> size (skip_line (S k) lx) < size lx.
Proof.
  intros H0 Hn. cbn [skip_line].
  destruct (Ascii.eqb_spec (_peek lx 0) NL); [done|].
  destruct (Ascii.eqb_spec (_peek lx 0) NUL); [done|]. cbn [orb].
  pose proof (skip_line_size k (_advance lx).1).
  pose proof (advance_size lx H0). size_lia.
Qed.

Lemma skip_block_total k lx :
  size lx < k ->
  exists lx' b,
    skip_block k lx = Some (lx', b)
    /\ size lx' <= size lx
    /\ (if b then _peek lx' 0 = "*"%char /\ _peek lx' 1 = "/"%char
        else _peek lx' 0 = NUL).
Proof.
  revert lx. induction k as [|k IH]; intros lx Hk; [size_lia|].
  cbn [skip_block].
  destruct (Ascii.eqb_spec (_peek lx 0) "*"%char) as [H0|H0]; cbn [andb].
  - destruct (Ascii.eqb_spec (_peek lx 1) "/"%char) as [H1|H1].
    + exists lx, true. by repeat split.
    + assert (_peek lx 0 <> NUL) as Hne by (rewrite H0; done).
      destruct (Ascii.eqb_spec (_peek lx 0) NUL); [done|].
      pose proof (advance_size lx Hne).
      destruct (IH (_advance lx).1) as (lx' & b & -> & Hle & Hb); [size_lia|].
      exists lx', b. repeat split; [size_lia|done].
  - destruct (Ascii.eqb_spec (_peek lx 0) NUL) as [Hz|Hz].
    + exists lx, false. by repeat split.
    + pose proof (advance_size lx Hz).
      destruct (IH (_advance lx).1) as (lx' & b & -> & Hle & Hb); [size_lia|].
      exists lx', b. repeat split; [size_lia|done].
Qed.

Lemma has_close_peek lx :
  has_close (rest lx) = false ->
  (Ascii.eqb (_peek lx 0) "*"%char && Ascii.eqb (_peek lx 1) "/"%char) = false
  /\ has_close (rest (_advance lx).1) = false.
Proof.
  rewrite advance_rest. unfold _peek.
  destruct (rest lx) as [|c l]; simpl; [done|].
  intros [H1 H2]%orb_false_iff. split; [|done].
  destruct l; simpl in *; [by rewrite andb_false_r|done].
Qed.

(** With no closing pair ahead, the loop of a block comment runs to the
    NUL that ends the text. *)
Lemma skip_block_unterminated k lx :
  size lx < k -> has_close (rest lx) = false ->
  exists lx', skip_block k lx = Some (lx', false) /\ _peek lx' 0 = NUL.
Proof.
  revert lx. induction k as [|k IH]; intros lx Hk Hc; [size_lia|].
  cbn [skip_block].
  destruct (has_close_peek lx Hc) as [-> Hc'].
  destruct (Ascii.eqb_spec (_peek lx 0) NUL) as [Hz|Hz]; [by exists lx|].
  pose proof (advance_size lx Hz).
  apply IH; [size_lia|done].
Qed.

Lemma is_space_not_NUL ch : is_space ch = true -> ch <> NUL.
Proof. intros H ->. done. Qed.

Lemma skip_loop_total k lx :
  size lx < k ->
  exists lx', skip_loop k lx = Some lx' /\ size lx' <= size lx.
Proof.
  revert lx. induction k as [|k IH]; intros lx Hk; [size_lia|].
  cbn [skip_loop].
  destruct (is_space (_peek lx 0)) eqn:Hs.
  { pose proof (advance_size lx (is_space_not_NUL _ Hs)).
    destruct (IH (_advance lx).1) as (lx' & -> & Hle); [size_lia|].
    exists lx'. split; [done|size_lia]. }
  destruct (Ascii.eqb_spec (_peek lx 0) "/"%char) as [H0|H0]; cbn [andb];
    [|by exists lx].
  assert (_peek lx 0 <> NUL) as Hz by (rewrite H0; done).
  assert (_peek lx 0 <> NL) as Hn by (rewrite H0; done).
  destruct (Ascii.eqb_spec (_peek lx 1) "/"%char) as [H1|H1].
  { destruct (size lx) as [|m] eqn:Hm.
    { apply peek_nonempty in Hz as (c & l & Hr). unfold size in Hm.
      by rewrite Hr in Hm. }
    pose proof (skip_line_progress m lx Hz Hn) as Hlt.
    fold (size lx). rewrite Hm.
    destruct (IH (skip_line (S m) lx)) as (lx' & -> & Hle); [size_lia|].
    exists lx'. split; [done|size_lia]. }
  destruct (Ascii.eqb_spec (_peek lx 1) "*"%char) as [H2|H2];
    [|by exists lx].
  pose proof (advance_size lx Hz) as Ha1.
  assert (_peek (_advance lx).1 0 <> NUL) as Hz'.
  { rewrite peek_advance, H2. done. }
  pose proof (advance_size _ Hz') as Ha2.
  set (lx1 := (_advance (_advance lx).1).1) in *.
  destruct (skip_block_total (S (length (rest lx1))) lx1)
    as (lx2 & b & -> & Hle & Hb); [unfold size; size_lia|].
  destruct b; [|exists lx2; split; [done|size_lia]].
  destruct Hb as [Hb0 Hb1].
  assert (_peek lx2 0 <> NUL) as Hz2 by (rewrite Hb0; done).
  pose proof (advance_size lx2 Hz2) as Ha3.
  pose proof (advance_size_le (_advance lx2).1) as Ha4.
  destruct (IH (_advance (_advance lx2).1).1) as (lx' & -> & Hle'); [size_lia|].
  exists lx'. split; [done|size_lia].
Qed.

Lemma skip_ws_total lx :
  exists lx', _skip_ws_and_comments lx = Some lx' /\ size lx' <= size lx.
Proof. apply skip_loop_total. unfold size. size_lia. Qed.

Lemma take_while_size p k lx lex :
  size (take_while p k lx lex).1 <= size lx.
Proof.
  revert lx lex. induction k as [|k IH]; intros lx lex; cbn [take_while];
    [done|].
  destruct (p _); [|done].
  destruct (_advance lx) as [lx' ch] eqn:E.
  pose proof (advance_size_le lx) as Hle. rewrite E in Hle. simpl in Hle.
  etrans; [apply IH|done].
Qed.

Lemma take_while_progress p k lx lex :
  p (_peek lx 0) = true -> _peek lx 0 <> NUL ->
  size (take_while p (S k) lx lex).1 < size lx.
Proof.
  intros Hp Hz. cbn [take_while]. rewrite Hp.
  destruct (_advance lx) as [lx' ch] eqn:E.
  pose proof (advance_size lx Hz) as Ha. rewrite E in Ha. simpl in Ha.
  pose proof (take_while_size p k lx' (lex ++ [ch])). size_lia.
Qed.

Definition eof_token (lx : Lexer) : Token := mkToken EOF "" (line lx) (col lx).

Lemma scan_NUL lx out :
  _peek lx 0 = NUL -> scan lx out = inl (out ++ [eof_token lx]).
Proof. unfold scan. by intros ->. Qed.

Lemma scan_inl lx out toks :
  scan lx out = inl toks -> toks = out ++ [eof_token lx].
Proof.
  unfold scan.
  destruct (Ascii.eqb (_peek lx 0) NUL); [by intros [= <-]|].
  destruct (_ || _); [by destruct (take_while _ _ _ _)|].
  destruct (isdigit _).
  { destruct (take_while _ _ _ _) as [lx1 lex1].
    destruct (_ && _); [|done].
    destruct (_advance lx1) as [lx1' dot].
    by destruct (take_while _ _ _ _). }
  destruct (two_char _); [done|]. by destruct (single_map _).
Qed.

(** A round that goes on has read at least one character and has only
    added to the tokens. *)
Lemma scan_inr lx out lx' out' :
  scan lx out = inr (lx', out') ->
  size lx' < size lx /\ exists toks, out' = out ++ toks.
Proof.
  unfold scan.
  destruct (Ascii.eqb_spec (_peek lx 0) NUL) as [|Hz]; [done|].
  pose proof (advance_size lx Hz) as Ha.
  assert (exists m, length (rest lx) = S m) as [m Hm].
  { apply peek_nonempty in Hz as (c & l & ->). by exists (length l). }
  rewrite Hm.
  destruct (isalpha (_peek lx 0) || Ascii.eqb (_peek lx 0) "_") eqn:Hid.
  { assert ((isalnum (_peek lx 0) || Ascii.eqb (_peek lx 0) "_") = true) as Hp.
    { unfold isalnum. destruct (isalpha _); [done|]. simpl in Hid.
      rewrite Hid. by rewrite orb_true_r. }
    pose proof (take_while_progress
                  (fun c => isalnum c || Ascii.eqb c "_"%char) m lx [] Hp Hz) as Hlt.
    destruct (take_while _ _ _ _) as [lx1 lex1]. intros [= <- <-].
    split; [done|eauto]. }
  destruct (isdigit (_peek lx 0)) eqn:Hd.
  { pose proof (take_while_progress isdigit m lx [] Hd Hz) as Hlt.
    destruct (take_while isdigit (S m) lx []) as [lx1 lex1]. simpl in Hlt.
    destruct (_ && _).
    - pose proof (advance_size_le lx1) as Hle.
      destruct (_advance lx1) as [lx1' dot]. simpl in Hle.
      pose proof (take_while_size isdigit (length (rest lx1')) lx1'
                    (lex1 ++ [dot])) as Hle'.
      destruct (take_while _ _ _ _) as [lx2 lex2]. intros [= <- <-].
      split; [simpl in *; size_lia|eauto].
    - intros [= <- <-]. split; [done|eauto]. }
  pose proof (advance_size_le (_advance lx).1) as Ha'.
  destruct (two_char _); [intros [= <- <-]; split; [size_lia|eauto]|].
  destruct (single_map _); intros [= <- <-]; (split; [size_lia|]).
  - eauto.
  - exists []. by rewrite app_nil_r.
Qed.

(** [tokenize] returns, and its last token is end-of-input. *)
Lemma tokenize_loop_total k lx out :
  size lx < k ->
  exists toks lx',
    tokenize_loop k lx out = Some (out ++ toks ++ [eof_token lx']).
Proof.
  revert lx out. induction k as [|k IH]; intros lx out Hk; [size_lia|].
  cbn [tokenize_loop].
  destruct (skip_ws_total lx) as (lx1 & -> & Hle).
  destruct (scan lx1 out) as [toks|[lx2 out']] eqn:Hscan.
  - apply scan_inl in Hscan as ->. by exists [], lx1.
  - apply scan_inr in Hscan as (Hlt & ts & ->).
    destruct (IH lx2 (out ++ ts)) as (toks & lx' & ->); [size_lia|].
    exists (ts ++ toks), lx'. by rewrite <- !app_assoc.
Qed.

Lemma rounds_size j lx out lx' out' :
  rounds j lx out = Some (lx', out') -> size lx' + j <= size lx.
Proof.
  revert lx out. induction j as [|j IH]; intros lx out; cbn [rounds].
  - intros [= <- <-]. lia.
  - destruct (skip_ws_total lx) as (lx1 & -> & Hle).
    destruct (scan lx1 out) as [toks|[lx2 out2]] eqn:Hscan; [done|].
    apply scan_inr in Hscan as [Hlt _].
    intros H%IH. size_lia.
Qed.

Lemma tokenize_loop_rounds j k lx out lx' out' :
  rounds j lx out = Some (lx', out') ->
  tokenize_loop (j + k) lx out = tokenize_loop k lx' out'.
Proof.
  revert lx out. induction j as [|j IH]; intros lx out; cbn [rounds].
  - by intros [= <- <-].
  - cbn [Nat.add tokenize_loop].
    destruct (_skip_ws_and_comments lx) as [lx1|]; [|done].
    destruct (scan lx1 out) as [toks|[lx2 out2]]; [done|].
    apply IH.
Qed.

(** White space, then a block comment that is never closed: the skip
    runs to the end of the text. *)
Lemma skip_loop_unterminated ws tail k lx :
  rest lx = ws ++ "/"%char :: "*"%char :: tail ->
  forallb is_space ws = true ->
  has_close tail = false ->
  size lx < k ->
  exists lx', skip_loop k lx = Some lx' /\ _peek lx' 0 = NUL.
Proof.
  revert k lx. induction ws as [|w ws IH]; intros k lx Hrest Hws Hc Hk;
    (destruct k as [|k]; [size_lia|]); cbn [skip_loop].
  - assert (_peek lx 0 = "/"%char) as -> by (unfold _peek; by rewrite Hrest).
    assert (_peek lx 1 = "*"%char) as -> by (unfold _peek; by rewrite Hrest).
    change (is_space "/"%char) with false.
    change (Ascii.eqb "/"%char "/"%char) with true.
    change (Ascii.eqb "*"%char "/"%char) with false.
    change (Ascii.eqb "*"%char "*"%char) with true.
    cbn [andb].
    assert (rest (_advance (_advance lx).1).1 = tail) as Htail.
    { by rewrite !advance_rest, Hrest. }
    destruct (skip_block_unterminated
                (S (length (rest (_advance (_advance lx).1).1)))
                (_advance (_advance lx).1).1) as (lx' & Hb & Hz).
    { size_lia. }
    { by rewrite Htail. }
    rewrite Hb. by exists lx'.
  - simpl in Hws. apply andb_true_iff in Hws as [Hw Hws].
    assert (_peek lx 0 = w) as Hp by (unfold _peek; by rewrite Hrest).
    rewrite Hp, Hw.
    apply IH; [by rewrite advance_rest, Hrest|done|done|].
    assert (_peek lx 0 <> NUL) as Hz by (rewrite Hp; by apply is_space_not_NUL).
    pose proof (advance_size lx Hz). size_lia.
Qed.

Lemma tokenize_loop_unterminated ws tail k lx out :
  rest lx = ws ++ "/"%char :: "*"%char :: tail ->
  forallb is_space ws = true ->
  has_close tail = false ->
  exists lx', tokenize_loop (S k) lx out = Some (out ++ [eof_token lx']).
Proof.
  intros Hrest Hws Hc. cbn [tokenize_loop]. unfold _skip_ws_and_comments.
  destruct (skip_loop_unterminated ws tail (S (length (rest lx))) lx)
    as (lx' & -> & Hz); [done|done|done|size_lia|].
  exists lx'. by rewrite scan_NUL.
Qed.

#[local] Transparent _advance.

(** *** A NUL character in the text *)

Lemma list_ascii_of_string_app s1 s2 :
  list_ascii_of_string (s1 +:+ s2)
  = list_ascii_of_string s1 ++ list_ascii_of_string s2.
Proof. induction s1 as [|c s1 IH]; [done|]. simpl. f_equal. exact IH. Qed.

Section Cut.
(** What stands behind the NUL. *)
Variable tail : list ascii.

(** [lx'] reads the text of [lx] with a NUL and [tail] behind it. *)
Definition cut (lx lx' : Lexer) : Prop :=
  rest lx' = rest lx ++ NUL :: tail
  /\ line lx' = line lx /\ col lx' = col lx.

Lemma cut_peek0 lx lx' : cut lx lx' -> _peek lx' 0 = _peek lx 0.
Proof. intros (Hr & _). unfold _peek. rewrite Hr. by destruct (rest lx). Qed.

Lemma cut_peek1 lx lx' :
  cut lx lx' -> _peek lx 0 <> NUL -> _peek lx' 1 = _peek lx 1.
Proof.
  intros (Hr & _) Hz. apply peek_nonempty in Hz as (c & l & Hl).
  unfold _peek. rewrite Hr, Hl. cbn. by destruct l.
Qed.

Lemma cut_advance lx lx' :
  cut lx lx' -> _peek lx 0 <> NUL ->
  cut (_advance lx).1 (_advance lx').1 /\ (_advance lx').2 = (_advance lx).2.
Proof.
  intros Hc Hz. pose proof (cut_peek0 _ _ Hc) as H0.
  destruct Hc as (Hr & Hl & Hcol).
  apply peek_nonempty in Hz as (c & l & Hrest).
  unfold _advance. rewrite H0. cbn [fst snd]. split; [|done].
  unfold cut. destruct (Ascii.eqb (_peek lx 0) NL);
    cbn [rest line col]; rewrite Hr, Hrest, Hl, ?Hcol; done.
Qed.

Lemma cut_size lx lx' : cut lx lx' -> size lx <= size lx'.
Proof. intros (Hr & _). unfold size. rewrite Hr, length_app. size_lia. Qed.

Lemma size_0_peek lx : size lx = 0 -> _peek lx 0 = NUL.
Proof. unfold size, _peek. by destruct (rest lx). Qed.

#[local] Opaque _advance.

Lemma skip_line_NUL k lx : _peek lx 0 = NUL -> skip_line k lx = lx.
Proof.
  intros H. destruct k; [done|]. cbn [skip_line]. rewrite H.
  by rewrite orb_true_r.
Qed.

Lemma cut_skip_line k : forall k' lx lx',
  cut lx lx' -> size lx <= k -> size lx <= k' ->
  cut (skip_line k lx) (skip_line k' lx').
Proof.
  induction k as [|k IH]; intros k' lx lx' Hc Hk Hk'.
  { assert (_peek lx 0 = NUL) as Hz by (apply size_0_peek; size_lia).
    rewrite !skip_line_NUL; [done| |done]. by rewrite (cut_peek0 _ _ Hc). }
  destruct (Ascii.eqb_spec (_peek lx 0) NUL) as [Hz|Hz].
  { rewrite !skip_line_NUL; [done| |done]. by rewrite (cut_peek0 _ _ Hc). }
  pose proof (advance_size lx Hz) as Ha.
  destruct k' as [|k']; [size_lia|]. cbn [skip_line].
  rewrite (cut_peek0 _ _ Hc).
  destruct (Ascii.eqb (_peek lx 0) NL || Ascii.eqb (_peek lx 0) NUL); [done|].
  destruct (cut_advance _ _ Hc Hz) as [Hc' _].
  apply IH; [done|size_lia..].
Qed.

Lemma cut_skip_block k : forall k' lx lx',
  cut lx lx' -> size lx < k -> size lx < k' ->
  exists lx2 lx2' b,
    skip_block k lx = Some (lx2, b) /\ skip_block k' lx' = Some (lx2', b)
    /\ cut lx2 lx2' /\ size lx2 <= size lx
    /\ (b = true -> _peek lx2 0 = "*"%char /\ _peek lx2 1 = "/"%char).
Proof.
  induction k as [|k IH]; intros k' lx lx' Hc Hk Hk'; [size_lia|].
  destruct k' as [|k']; [size_lia|]. cbn [skip_block].
  rewrite (cut_peek0 _ _ Hc).
  assert (_peek lx 0 <> NUL ->
          exists lx2 lx2' b,
            skip_block k (_advance lx).1 = Some (lx2, b)
            /\ skip_block k' (_advance lx').1 = Some (lx2', b)
            /\ cut lx2 lx2' /\ size lx2 <= size lx
            /\ (b = true -> _peek lx2 0 = "*"%char /\ _peek lx2 1 = "/"%char))
    as Hstep.
  { intros Hz. pose proof (advance_size lx Hz) as Ha.
    destruct (cut_advance _ _ Hc Hz) as [Hc' _].
    destruct (IH k' _ _ Hc') as (lx2 & lx2' & b & E1 & E2 & Hc2 & Hle & Hb);
      [size_lia..|].
    exists lx2, lx2', b.
    split; [done|]. split; [done|]. split; [done|]. split; [size_lia|done]. }
  destruct (Ascii.eqb_spec (_peek lx 0) "*"%char) as [H0|H0]; cbn [andb].
  - assert (_peek lx 0 <> NUL) as Hz by (rewrite H0; done).
    rewrite (cut_peek1 _ _ Hc Hz).
    destruct (Ascii.eqb_spec (_peek lx 1) "/"%char) as [H1|H1].
    + exists lx, lx', true.
      split; [done|]. split; [done|]. split; [done|]. split; [size_lia|done].
    + destruct (Ascii.eqb_spec (_peek lx 0) NUL); [done|]. by apply Hstep.
  - destruct (Ascii.eqb_spec (_peek lx 0) NUL) as [Hz|Hz].
    + exists lx, lx', false.
      split; [done|]. split; [done|]. split; [done|]. split; [size_lia|done].
    + by apply Hstep.
Qed.

Lemma cut_skip_loop k : forall k' lx lx',
  cut lx lx' -> size lx < k -> size lx < k' ->
  exists lx2 lx2',
    skip_loop k lx = Some lx2 /\ skip_loop k' lx' = Some lx2' /\ cut lx2 lx2'
    /\ size lx2 <= size lx.
Proof.
  induction k as [|k IH]; intros k' lx lx' Hc Hk Hk'; [size_lia|].
  destruct k' as [|k']; [size_lia|]. cbn [skip_loop].
  rewrite (cut_peek0 _ _ Hc).
  destruct (is_space (_peek lx 0)) eqn:Hs.
  { pose proof (is_space_not_NUL _ Hs) as Hz.
    pose proof (advance_size lx Hz) as Ha.
    destruct (cut_advance _ _ Hc Hz) as [Hc' _].
    destruct (IH k' _ _ Hc') as (lx2 & lx2' & E1 & E2 & Hc2 & Hle); [size_lia..|].
    exists lx2, lx2'. split; [done|]. split; [done|]. split; [done|size_lia]. }
  destruct (Ascii.eqb_spec (_peek lx 0) "/"%char) as [H0|H0]; cbn [andb];
    [|exists lx, lx'; split; [done|]; split; [done|]; split; [done|size_lia]].
  assert (_peek lx 0 <> NUL) as Hz by (rewrite H0; done).
  assert (_peek lx 0 <> NL) as Hn by (rewrite H0; done).
  rewrite (cut_peek1 _ _ Hc Hz).
  pose proof (cut_size _ _ Hc) as Hsz.
  destruct (Ascii.eqb_spec (_peek lx 1) "/"%char) as [H1|H1].
  { destruct (size lx) as [|m] eqn:Hm.
    { apply size_0_peek in Hm. done. }
    pose proof (skip_line_progress m lx Hz Hn) as Hlt.
    assert (cut (skip_line (length (rest lx)) lx)
                (skip_line (length (rest lx')) lx')) as Hc'.
    { apply cut_skip_line; [done|size_lia..]. }
    fold (size lx) in *. rewrite Hm in *.
    destruct (IH k' _ _ Hc') as (lx2 & lx2' & E1 & E2 & Hc2 & Hle); [size_lia..|].
    exists lx2, lx2'. split; [done|]. split; [done|]. split; [done|size_lia]. }
  destruct (Ascii.eqb_spec (_peek lx 1) "*"%char) as [H2|H2];
    [|exists lx, lx'; split; [done|]; split; [done|]; split; [done|size_lia]].
  pose proof (advance_size lx Hz) as Ha1.
  destruct (cut_advance _ _ Hc Hz) as [Hc1 _].
  assert (_peek (_advance lx).1 0 <> NUL) as Hz'.
  { rewrite peek_advance, H2. done. }
  pose proof (advance_size _ Hz') as Ha2.
  destruct (cut_advance _ _ Hc1 Hz') as [Hc1' _].
  set (lx1 := (_advance (_advance lx).1).1) in *.
  set (lx1' := (_advance (_advance lx').1).1) in *.
  pose proof (cut_size _ _ Hc1') as Hsz1.
  destruct (cut_skip_block (S (length (rest lx1))) (S (length (rest lx1')))
              lx1 lx1' Hc1')
    as (lx2 & lx2' & b & -> & -> & Hc2 & Hle2 & Hb);
    [size_lia..|].
  destruct b;
    [|exists lx2, lx2'; split; [done|]; split; [done|]; split; [done|size_lia]].
  destruct (Hb eq_refl) as [Hb0 Hb1].
  assert (_peek lx2 0 <> NUL) as Hz2 by (rewrite Hb0; done).
  pose proof (advance_size lx2 Hz2) as Ha3.
  destruct (cut_advance _ _ Hc2 Hz2) as [Hc3 _].
  assert (_peek (_advance lx2).1 0 <> NUL) as Hz3.
  { rewrite peek_advance, Hb1. done. }
  pose proof (advance_size _ Hz3) as Ha4.
  destruct (cut_advance _ _ Hc3 Hz3) as [Hc4 _].
  destruct (IH k' _ _ Hc4) as (lx3 & lx3' & E1 & E2 & Hc5 & Hle); [size_lia..|].
  exists lx3, lx3'. split; [done|]. split; [done|]. split; [done|size_lia].
Qed.

(** The loops of a word and of a number stop in front of a NUL. *)
Lemma cut_take_while (p : ascii -> bool) k : forall k' lx lx' lex,
  p NUL = false ->
  cut lx lx' -> size lx <= k -> size lx <= k' ->
  cut (take_while p k lx lex).1 (take_while p k' lx' lex).1
  /\ (take_while p k' lx' lex).2 = (take_while p k lx lex).2.
Proof.
  induction k as [|k IH]; intros k' lx lx' lex Hp Hc Hk Hk'.
  { assert (_peek lx 0 = NUL) as Hz by (apply size_0_peek; size_lia).
    cbn [take_while]. destruct k' as [|k']; [done|]. cbn [take_while].
    by rewrite (cut_peek0 _ _ Hc), Hz, Hp. }
  cbn [take_while].
  destruct (Ascii.eqb_spec (_peek lx 0) NUL) as [Hz|Hz].
  { rewrite Hz, Hp. destruct k' as [|k']; [done|]. cbn [take_while].
    by rewrite (cut_peek0 _ _ Hc), Hz, Hp. }
  pose proof (advance_size lx Hz) as Ha.
  destruct k' as [|k']; [size_lia|]. cbn [take_while].
  rewrite (cut_peek0 _ _ Hc).
  destruct (p (_peek lx 0)); [|done].
  destruct (cut_advance _ _ Hc Hz) as [Hc' Hch].
  destruct (_advance lx) as [lx1 ch], (_advance lx') as [lx1' ch'].
  cbn [fst snd] in *. subst ch'. apply IH; [done..|size_lia|size_lia].
Qed.

Lemma isalnum_NUL : (isalnum NUL || Ascii.eqb NUL "_"%char) = false.
Proof. reflexivity. Qed.

Lemma isdigit_NUL : isdigit NUL = false.
Proof. reflexivity. Qed.

(** One round of [tokenize] reads the same on both texts. *)
Lemma cut_scan lx lx' out :
  cut lx lx' ->
  match scan lx out, scan lx' out with
  | inl toks, inl toks' => toks' = toks
  | inr (lx2, out2), inr (lx2', out2') =>
      out2' = out2 /\ cut lx2 lx2' /\ size lx2 < size lx
  | _, _ => False
  end.
Proof.
  intros Hc.
  destruct (scan lx out) as [toks|[lx2 out2]] eqn:E.
  - pose proof (scan_inl _ _ _ E) as ->.
    assert (_peek lx 0 = NUL) as Hz.
    { unfold scan in E. destruct (Ascii.eqb_spec (_peek lx 0) NUL); [done|].
      exfalso. revert E.
      destruct (_ || _); [by destruct (take_while _ _ _ _)|].
      destruct (isdigit _).
      { destruct (take_while _ _ _ _) as [lx1 lex1].
        destruct (_ && _); [|done].
        destruct (_advance lx1) as [lx1' dot].
        by destruct (take_while _ _ _ _). }
      destruct (two_char _); [done|]. by destruct (single_map _). }
    rewrite scan_NUL by (by rewrite (cut_peek0 _ _ Hc)).
    destruct Hc as (_ & Hl & Hcol). unfold eof_token. by rewrite Hl, Hcol.
  - pose proof (scan_inr _ _ _ _ E) as [Hlt _].
    revert E. unfold scan.
    pose proof Hc as (_ & Hl & Hcol). rewrite (cut_peek0 _ _ Hc), Hl, Hcol.
    destruct (Ascii.eqb_spec (_peek lx 0) NUL) as [|Hz]; [done|].
    rewrite (cut_peek1 _ _ Hc Hz).
    pose proof (cut_size _ _ Hc) as Hsz. unfold size in Hsz.
    destruct (isalpha (_peek lx 0) || Ascii.eqb (_peek lx 0) "_").
    { destruct (cut_take_while (fun c => isalnum c || Ascii.eqb c "_"%char)
                  (length (rest lx)) (length (rest lx')) lx lx' []
                  isalnum_NUL Hc) as [Hc1 Hlex]; [size_lia..|].
      destruct (take_while _ (length (rest lx)) lx []) as [lx1 lex1].
      destruct (take_while _ (length (rest lx')) lx' []) as [lx1' lex1'].
      cbn [fst snd] in *. subst lex1'. by intros [= <- <-]. }
    destruct (isdigit (_peek lx 0)) eqn:Hd.
    { destruct (cut_take_while isdigit
                  (length (rest lx)) (length (rest lx')) lx lx' []
                  isdigit_NUL Hc) as [Hc1 Hlex]; [size_lia..|].
      destruct (take_while isdigit (length (rest lx)) lx []) as [lx1 lex1].
      destruct (take_while isdigit (length (rest lx')) lx' []) as [lx1' lex1'].
      cbn [fst snd] in *. subst lex1'.
      rewrite (cut_peek0 _ _ Hc1).
      destruct (Ascii.eqb_spec (_peek lx1 0) "."%char) as [Hdot|Hdot]; cbn [andb];
        [|by intros [= <- <-]].
      assert (_peek lx1 0 <> NUL) as Hz1 by (rewrite Hdot; done).
      rewrite (cut_peek1 _ _ Hc1 Hz1).
      destruct (isdigit (_peek lx1 1)); [|by intros [= <- <-]].
      destruct (cut_advance _ _ Hc1 Hz1) as [Hc2 Hch].
      destruct (_advance lx1) as [lx2a dot], (_advance lx1') as [lx2a' dot'].
      cbn [fst snd] in *. subst dot'.
      pose proof (cut_size _ _ Hc2) as Hsz2. unfold size in Hsz2.
      destruct (cut_take_while isdigit
                  (length (rest lx2a)) (length (rest lx2a')) lx2a lx2a'
                  (lex1 ++ [dot]) isdigit_NUL Hc2) as [Hc3 Hlex3];
        [size_lia..|].
      destruct (take_while isdigit (length (rest lx2a)) lx2a _) as [lx3 lex3].
      destruct (take_while isdigit (length (rest lx2a')) lx2a' _) as [lx3' lex3'].
      cbn [fst snd] in *. subst lex3'. by intros [= <- <-]. }
    destruct (cut_advance _ _ Hc Hz) as [Hc1 _].
    destruct (two_char _) eqn:Htwo.
    { intros [= <- <-]. split; [done|]. split; [|done].
      apply cut_advance; [done|].
      rewrite peek_advance. intros Hn. rewrite Hn in Htwo.
      revert Htwo. unfold two_char. cbn.
      destruct (_peek lx 0) as [[] [] [] [] [] [] [] []]; done. }
    destruct (single_map _); by intros [= <- <-].
Qed.

Lemma cut_tokenize_loop k : forall k' lx lx' out,
  cut lx lx' -> size lx < k -> size lx < k' ->
  tokenize_loop k' lx' out = tokenize_loop k lx out.
Proof.
  induction k as [|k IH]; intros k' lx lx' out Hc Hk Hk'; [size_lia|].
  destruct k' as [|k']; [size_lia|]. cbn [tokenize_loop].
  unfold _skip_ws_and_comments.
  pose proof (cut_size _ _ Hc) as Hsz.
  destruct (cut_skip_loop (S (length (rest lx))) (S (length (rest lx'))) lx lx' Hc)
    as (lx1 & lx1' & -> & -> & Hc1 & Hle); [size_lia..|].
  pose proof (cut_scan lx1 lx1' out Hc1) as Hs.
  destruct (scan lx1 out) as [toks|[lx2 out2]],
           (scan lx1' out) as [toks'|[lx2' out2']]; try done.
  - by subst.
  - destruct Hs as (-> & Hc2 & Hlt). apply IH; [done|size_lia..].
Qed.
End Cut.

#[local] Transparent _advance.

(** X10.  The lexer reads a NUL character in the
    text as the end of the text: what stands behind it is never read,
    and the tokens are those of the text in front of it. *)
Theorem lex_stops_at_NUL (src behind : string) :
  lex (src +:+ String NUL behind) = lex src.
Proof.
  unfold lex, tokenize.
  assert (cut (list_ascii_of_string behind) (init src)
              (init (src +:+ String NUL behind))) as Hc.
  { unfold cut, init. cbn [rest line col].
    by rewrite list_ascii_of_string_app. }
  pose proof (cut_size _ _ _ Hc) as Hsz. unfold size in Hsz.
  apply (cut_tokenize_loop (list_ascii_of_string behind)); [done|size_lia..].
Qed.

Example lex_NUL_in_text :
  lex ("a" +:+ String NUL "b") = Some [mkToken IDENT "a" 1 1; mkToken EOF "" 1 2].
Proof. reflexivity. Qed.

(** *** A block comment that is never closed *)

(** One round of the loop of [_skip_ws_and_comments]: [inr] is the
    state in which the next round begins ([continue]), [inl] the state
    in which the loop ends, by its [break] or by the [return] of a
    comment that is never closed. *)
Definition skip_round (lx : Lexer) : option (Lexer + Lexer) :=
  let ch := _peek lx 0 in
  if is_space ch then Some (inr (fst (_advance lx)))
  else if Ascii.eqb ch "/"%char && Ascii.eqb (_peek lx 1) "/"%char
  then Some (inr (skip_line (length (rest lx)) lx))
  else if Ascii.eqb ch "/"%char && Ascii.eqb (_peek lx 1) "*"%char
  then
    let lx1 := fst (_advance (fst (_advance lx))) in
    match skip_block (S (length (rest lx1))) lx1 with
    | None => None
    | Some (lx2, false) => Some (inl lx2)
    | Some (lx2, true) => Some (inr (fst (_advance (fst (_advance lx2)))))
    end
  else Some (inl lx).

(** [i] rounds of that loop that all go on. *)
Fixpoint skip_rounds (i : nat) (lx : Lexer) : option Lexer :=
  match i with
  | O => Some lx
  | S i' =>
      match skip_round lx with
      | Some (inr lx1) => skip_rounds i' lx1
      | _ => None
      end
  end.

Lemma skip_loop_round k lx :
  skip_loop (S k) lx
  = match skip_round lx with
    | None => None
    | Some (inl r) => Some r
    | Some (inr lx1) => skip_loop k lx1
    end.
Proof.
  cbn [skip_loop]. unfold skip_round.
  destruct (is_space _); [done|].
  destruct (_ && _); [done|].
  destruct (_ && _); [|done].
  destruct (skip_block _ _) as [[lx2 []]|]; done.
Qed.

#[local] Opaque _advance.

Lemma skip_block_size k : forall lx lx2 b,
  skip_block k lx = Some (lx2, b) -> size lx2 <= size lx.
Proof.
  induction k as [|k IH]; intros lx lx2 b; [done|]. cbn [skip_block].
  destruct (_ && _); [by intros [= <- <-]|].
  destruct (Ascii.eqb _ NUL); [by intros [= <- <-]|].
  intros H%IH. pose proof (advance_size_le lx). size_lia.
Qed.

Lemma skip_round_next lx lx1 :
  skip_round lx = Some (inr lx1) -> size lx1 < size lx.
Proof.
  unfold skip_round.
  destruct (is_space (_peek lx 0)) eqn:Hs.
  { intros [= <-]. pose proof (advance_size lx (is_space_not_NUL _ Hs)). size_lia. }
  destruct (Ascii.eqb_spec (_peek lx 0) "/"%char) as [H0|H0]; cbn [andb]; [|done].
  assert (_peek lx 0 <> NUL) as Hz by (rewrite H0; done).
  assert (_peek lx 0 <> NL) as Hn by (rewrite H0; done).
  pose proof (advance_size lx Hz) as Ha.
  destruct (Ascii.eqb (_peek lx 1) "/"%char).
  { intros [= <-]. fold (size lx). destruct (size lx) as [|m] eqn:Hm; [size_lia|].
    rewrite <- Hm. rewrite Hm at 1. apply (skip_line_progress m lx Hz Hn). }
  destruct (Ascii.eqb (_peek lx 1) "*"%char); [|done].
  destruct (skip_block _ _) as [[lx2 []]|] eqn:Hb; [|done..].
  intros [= <-]. apply skip_block_size in Hb.
  pose proof (advance_size_le (_advance lx).1).
  pose proof (advance_size_le lx2).
  pose proof (advance_size_le (_advance lx2).1). size_lia.
Qed.

Lemma skip_round_end lx e :
  skip_round lx = Some (inl e) -> size e <= size lx.
Proof.
  unfold skip_round.
  destruct (is_space _); [done|].
  destruct (_ && _); [done|].
  destruct (_ && _); [|by intros [= <-]].
  destruct (skip_block _ _) as [[lx2 []]|] eqn:Hb; [done| |done].
  intros [= <-]. apply skip_block_size in Hb.
  pose proof (advance_size_le (_advance lx).1).
  pose proof (advance_size_le lx). size_lia.
Qed.

Lemma skip_rounds_size i : forall lx lx',
  skip_rounds i lx = Some lx' -> size lx' + i <= size lx.
Proof.
  induction i as [|i IH]; intros lx lx'; cbn [skip_rounds].
  - intros [= <-]. lia.
  - destruct (skip_round lx) as [[e|lx1]|] eqn:Hr; [done| |done].
    apply skip_round_next in Hr. intros H%IH. lia.
Qed.

Lemma skip_loop_rounds i : forall k lx lx',
  skip_rounds i lx = Some lx' -> skip_loop (i + k) lx = skip_loop k lx'.
Proof.
  induction i as [|i IH]; intros k lx lx'; cbn [skip_rounds].
  - by intros [= <-].
  - cbn [Nat.add]. rewrite skip_loop_round.
    destruct (skip_round lx) as [[e|lx1]|]; [done| |done]. apply IH.
Qed.

Lemma skip_loop_size k lx e :
  size lx < k -> skip_loop k lx = Some e -> size e <= size lx.
Proof.
  intros Hk H. destruct (skip_loop_total k lx Hk) as (e' & He & Hle).
  congruence.
Qed.

Section Ext.
(** The text behind the ['/*']. *)
Variable tail : list ascii.

(** [lx'] reads the text of [lx] with ['/*'] and [tail] behind it. *)
Definition ext (lx lx' : Lexer) : Prop :=
  rest lx' = rest lx ++ "/"%char :: "*"%char :: tail
  /\ line lx' = line lx /\ col lx' = col lx.

(** The length of what stands behind. *)
Definition behind : nat := S (S (length tail)).

Lemma ext_size lx lx' : ext lx lx' -> size lx' = size lx + behind.
Proof. intros (Hr & _). unfold size, behind. rewrite Hr, length_app. cbn. lia. Qed.

Lemma ext_peek0 lx lx' : ext lx lx' -> 1 <= size lx -> _peek lx' 0 = _peek lx 0.
Proof.
  intros (Hr & _) Hs. unfold _peek, size in *. rewrite Hr.
  destruct (rest lx); [cbn in Hs; lia|done].
Qed.

Lemma ext_peek1 lx lx' : ext lx lx' -> 2 <= size lx -> _peek lx' 1 = _peek lx 1.
Proof.
  intros (Hr & _) Hs. unfold _peek, size in *. rewrite Hr.
  destruct (rest lx) as [|c [|d l]]; cbn in Hs; [lia..|done].
Qed.

Lemma ext_end lx lx' :
  ext lx lx' -> size lx = 0 -> _peek lx' 0 = "/"%char /\ _peek lx' 1 = "*"%char.
Proof.
  intros (Hr & _) Hs. unfold _peek, size in *. rewrite Hr.
  destruct (rest lx); [done|cbn in Hs; lia].
Qed.

Lemma ext_last lx lx' :
  ext lx lx' -> size lx = 1 -> _peek lx' 1 = "/"%char /\ _peek lx 1 = NUL.
Proof.
  intros (Hr & _) Hs. unfold _peek, size in *. rewrite Hr.
  destruct (rest lx) as [|c [|d l]]; cbn in Hs; [lia|done|lia].
Qed.

Lemma size_pos_peek lx : _peek lx 0 <> NUL -> 1 <= size lx.
Proof. intros (c & l & H)%peek_nonempty. unfold size. rewrite H. cbn. lia. Qed.

#[local] Transparent _advance.

Lemma ext_advance lx lx' :
  ext lx lx' -> 1 <= size lx ->
  ext (_advance lx).1 (_advance lx').1 /\ (_advance lx').2 = (_advance lx).2.
Proof.
  intros Hc Hs. pose proof (ext_peek0 _ _ Hc Hs) as H0.
  destruct Hc as (Hr & Hl & Hcol).
  assert (exists c l, rest lx = c :: l) as (c & l & Hrest).
  { unfold size in Hs. destruct (rest lx) as [|c l]; [cbn in Hs; lia|eauto]. }
  unfold _advance. rewrite H0. cbn [fst snd]. split; [|done].
  unfold ext. destruct (Ascii.eqb (_peek lx 0) NL);
    cbn [rest line col]; rewrite Hr, Hrest, Hl, ?Hcol; done.
Qed.

#[local] Opaque _advance.

Lemma skip_line_stop k lx :
  (Ascii.eqb (_peek lx 0) NL || Ascii.eqb (_peek lx 0) NUL) = true ->
  skip_line k lx = lx.
Proof. intros H. destruct k; [done|]. cbn [skip_line]. by rewrite H. Qed.

Lemma ext_end_skip_line k' lx lx' :
  ext lx lx' -> size lx = 0 -> size lx' <= k' ->
  size (skip_line k' lx') < behind.
Proof.
  intros Hc Hs Hk'. pose proof (ext_size _ _ Hc) as Hsz.
  destruct (ext_end _ _ Hc Hs) as [H0 H1].
  destruct k' as [|k']; [unfold behind in *; lia|].
  cbn [skip_line]. rewrite H0.
  change (Ascii.eqb "/"%char NL) with false.
  change (Ascii.eqb "/"%char NUL) with false. cbn [orb].
  pose proof (skip_line_size k' (_advance lx').1).
  assert (_peek lx' 0 <> NUL) as Hz by (rewrite H0; done).
  pose proof (advance_size lx' Hz). lia.
Qed.

(** A line comment that ends in front of the ['/*'] ends at the same
    place without it. *)
Lemma ext_skip_line k : forall k' lx lx',
  ext lx lx' -> size lx <= k -> size lx' <= k' ->
  behind <= size (skip_line k' lx') ->
  ext (skip_line k lx) (skip_line k' lx').
Proof.
  induction k as [|k IH]; intros k' lx lx' Hc Hk Hk' Hb;
    pose proof (ext_size _ _ Hc) as Hsz.
  { pose proof (ext_end_skip_line k' _ _ Hc). lia. }
  destruct (size lx) as [|m] eqn:Hm.
  { pose proof (ext_end_skip_line k' _ _ Hc). lia. }
  assert (1 <= size lx) as Hpos by lia.
  destruct k' as [|k']; [unfold behind in *; lia|].
  revert Hb. cbn [skip_line]. rewrite (ext_peek0 _ _ Hc Hpos).
  destruct (Ascii.eqb (_peek lx 0) NL || Ascii.eqb (_peek lx 0) NUL) eqn:E;
    [done|].
  intros Hb. destruct (ext_advance _ _ Hc Hpos) as [Hc' _].
  assert (_peek lx 0 <> NUL) as Hz.
  { intros Hz. rewrite Hz in E. by rewrite orb_true_r in E. }
  pose proof (advance_size lx Hz).
  pose proof (ext_size _ _ Hc').
  apply IH; [done|lia|lia|done].
Qed.

(** The same for the loop of a block comment. *)
Lemma ext_skip_block k' : forall k lx lx' lx2' b,
  ext lx lx' -> size lx < k ->
  skip_block k' lx' = Some (lx2', b) ->
  behind + (if b then 2 else 0) <= size lx2' ->
  exists lx2, skip_block k lx = Some (lx2, b) /\ ext lx2 lx2'.
Proof.
  induction k' as [|k' IH]; intros k lx lx' lx2' b Hc Hk; [done|].
  pose proof (ext_size _ _ Hc) as Hsz.
  destruct k as [|k]; [lia|].
  cbn [skip_block].
  destruct (size lx) as [|m] eqn:Hm.
  { destruct (ext_end _ _ Hc) as [H0 H1]; [done|]. rewrite H0.
    change (Ascii.eqb "/"%char "*"%char) with false.
    change (Ascii.eqb "/"%char NUL) with false. cbn [andb].
    intros H%skip_block_size Hb. exfalso.
    assert (_peek lx' 0 <> NUL) as Hz by (rewrite H0; done).
    pose proof (advance_size lx' Hz). destruct b; lia. }
  assert (1 <= size lx) as Hpos by lia.
  rewrite (ext_peek0 _ _ Hc Hpos).
  destruct (ext_advance _ _ Hc Hpos) as [Hc' _].
  destruct (Ascii.eqb_spec (_peek lx 0) "*"%char) as [H0|H0]; cbn [andb].
  - assert (_peek lx 0 <> NUL) as Hz by (rewrite H0; done).
    pose proof (advance_size lx Hz) as Ha.
    destruct m as [|m].
    + destruct (ext_last _ _ Hc Hm) as [-> ->].
      change (Ascii.eqb "/"%char "/"%char) with true.
      change (Ascii.eqb NUL "/"%char) with false.
      intros [= <- <-] Hb. lia.
    + rewrite (ext_peek1 _ _ Hc) by lia.
      destruct (Ascii.eqb (_peek lx 1) "/"%char).
      * intros [= <- <-] _. by exists lx.
      * destruct (Ascii.eqb_spec (_peek lx 0) NUL); [done|].
        intros H Hb. apply (IH k _ _ _ _ Hc'); [lia|done|done].
  - destruct (Ascii.eqb_spec (_peek lx 0) NUL) as [Hz|Hz].
    + intros [= <- <-] _. by exists lx.
    + pose proof (advance_size lx Hz) as Ha.
      intros H Hb. apply (IH k _ _ _ _ Hc'); [lia|done|done].
Qed.

(** One round of the skip loop that stays in front of the ['/*']. *)
Lemma ext_skip_round lx lx' r' :
  ext lx lx' ->
  skip_round lx' = Some r' ->
  behind <= size (match r' with inl e' => e' | inr n' => n' end) ->
  exists r,
    skip_round lx = Some r
    /\ match r, r' with
       | inl e, inl e' => ext e e'
       | inr n, inr n' => ext n n'
       | _, _ => False
       end.
Proof.
  intros Hc. pose proof (ext_size _ _ Hc) as Hsz. unfold skip_round.
  destruct (size lx) as [|m] eqn:Hm.
  { (* in front of the comment: it is read to the end of the text *)
    destruct (ext_end _ _ Hc Hm) as [H0 H1]. rewrite H0, H1.
    change (is_space "/"%char) with false.
    change (Ascii.eqb "/"%char "/"%char) with true.
    change (Ascii.eqb "*"%char "/"%char) with false.
    change (Ascii.eqb "*"%char "*"%char) with true. cbn [andb].
    assert (_peek lx' 0 <> NUL) as Hz by (rewrite H0; done).
    pose proof (advance_size lx' Hz) as Ha1.
    pose proof (advance_size_le (_advance lx').1) as Ha2.
    destruct (skip_block _ _) as [[lx2 []]|] eqn:Hb; [| |done];
      apply skip_block_size in Hb; intros [= <-] Hle; exfalso.
    - pose proof (advance_size_le lx2).
      pose proof (advance_size_le (_advance lx2).1). cbn in Hle. lia.
    - cbn in Hle. lia. }
  assert (1 <= size lx) as Hpos by lia.
  rewrite (ext_peek0 _ _ Hc Hpos).
  destruct (ext_advance _ _ Hc Hpos) as [Hc1 _].
  destruct (is_space (_peek lx 0)) eqn:Hs.
  { intros [= <-] _. by eexists (inr _). }
  destruct (Ascii.eqb_spec (_peek lx 0) "/"%char) as [H0|H0]; cbn [andb];
    [|intros [= <-] _; by eexists (inl _)].
  assert (_peek lx 0 <> NUL) as Hz by (rewrite H0; done).
  pose proof (advance_size lx Hz) as Ha.
  destruct m as [|m].
  { (* the last character of the text in front: with ['/*'] behind it
       a line comment begins *)
    destruct (ext_last _ _ Hc Hm) as [H1 H1']. rewrite H1, H1'.
    change (Ascii.eqb "/"%char "/"%char) with true.
    intros [= <-] Hle. exfalso. cbn in Hle.
    assert (_peek lx' 0 <> NUL) as Hz'
      by (rewrite (ext_peek0 _ _ Hc Hpos), H0; done).
    pose proof (advance_size lx' Hz') as Ha'.
    pose proof (ext_end_skip_line (size (_advance lx').1) _ _ Hc1) as Hlt.
    assert (skip_line (length (rest lx')) lx'
            = skip_line (size (_advance lx').1) (_advance lx').1) as E.
    { fold (size lx'). rewrite <- Ha'. cbn [skip_line].
      rewrite (ext_peek0 _ _ Hc Hpos), H0. done. }
    rewrite E in Hle. lia. }
  rewrite (ext_peek1 _ _ Hc) by lia.
  destruct (Ascii.eqb (_peek lx 1) "/"%char).
  { intros [= <-] Hle. eexists (inr _). split; [done|].
    apply ext_skip_line; [done|unfold size; lia..|done]. }
  destruct (Ascii.eqb_spec (_peek lx 1) "*"%char) as [H2|H2];
    [|intros [= <-] _; by eexists (inl _)].
  assert (1 <= size (_advance lx).1) as Hpos1 by lia.
  destruct (ext_advance _ _ Hc1 Hpos1) as [Hc2 _].
  pose proof (advance_size_le (_advance lx).1) as Ha2.
  set (lx1 := (_advance (_advance lx).1).1) in *.
  set (lx1' := (_advance (_advance lx').1).1) in *.
  destruct (skip_block (S (length (rest lx1'))) lx1') as [[lx2' b]|] eqn:Hb;
    [|done].
  intros Hr Hle.
  destruct (ext_skip_block _ (S (length (rest lx1))) _ _ _ _ Hc2
              ltac:(unfold size; lia) Hb) as (lx2 & -> & Hc3).
  { destruct b; injection Hr as <-; cbn in Hle; [|lia].
    pose proof (advance_size_le lx2').
    pose proof (advance_size_le (_advance lx2').1).
    destruct (skip_block_total (S (length (rest lx1'))) lx1')
      as (lx2'' & b'' & Hb'' & _ & Hp); [unfold size; lia|].
    rewrite Hb in Hb''. injection Hb'' as <- <-. destruct Hp as [Hp0 Hp1].
    assert (_peek lx2' 0 <> NUL) as Hz2 by (rewrite Hp0; done).
    pose proof (advance_size lx2' Hz2).
    assert (_peek (_advance lx2').1 0 <> NUL) as Hz3
      by (rewrite peek_advance, Hp1; done).
    pose proof (advance_size _ Hz3). lia. }
  destruct b; injection Hr as <-.
  - eexists (inr _). split; [done|].
    pose proof (ext_size _ _ Hc3) as Hsz3. cbn in Hle.
    destruct (skip_block_total (S (length (rest lx1'))) lx1')
      as (lx2'' & b'' & Hb'' & _ & Hp); [unfold size; lia|].
    rewrite Hb in Hb''. injection Hb'' as <- <-. destruct Hp as [Hp0 Hp1].
    assert (_peek lx2' 0 <> NUL) as Hz2 by (rewrite Hp0; done).
    pose proof (advance_size lx2' Hz2).
    assert (_peek (_advance lx2').1 0 <> NUL) as Hz3
      by (rewrite peek_advance, Hp1; done).
    pose proof (advance_size _ Hz3).
    destruct (ext_advance _ _ Hc3) as [Hc4 _]; [lia|].
    pose proof (ext_size _ _ Hc4).
    destruct (ext_advance _ _ Hc4) as [Hc5 _]; [lia|]. done.
  - by eexists (inl _).
Qed.

Lemma ext_skip_rounds i : forall lx lx' n',
  ext lx lx' -> skip_rounds i lx' = Some n' -> behind <= size n' ->
  exists n, skip_rounds i lx = Some n /\ ext n n'.
Proof.
  induction i as [|i IH]; intros lx lx' n' Hc; cbn [skip_rounds].
  { intros [= <-] _. by exists lx. }
  destruct (skip_round lx') as [[e'|lx1']|] eqn:Hr; [done| |done].
  intros H Hle. pose proof (skip_rounds_size _ _ _ H) as Hs.
  destruct (ext_skip_round _ _ _ Hc Hr) as ([e|lx1] & -> & Hc1); [cbn; lia|done|].
  by apply (IH _ _ _ Hc1).
Qed.

Lemma ext_skip_loop k' : forall k lx lx' e',
  ext lx lx' -> size lx < k -> size lx' < k' ->
  skip_loop k' lx' = Some e' -> behind <= size e' ->
  exists e, skip_loop k lx = Some e /\ ext e e'.
Proof.
  induction k' as [|k' IH]; intros k lx lx' e' Hc Hk Hk'; [lia|].
  destruct k as [|k]; [lia|]. rewrite !skip_loop_round.
  destruct (skip_round lx') as [[e1'|lx1']|] eqn:Hr; [| |done].
  - intros [= <-] Hle.
    by destruct (ext_skip_round _ _ _ Hc Hr) as ([e|lx1] & -> & Hc1); [done|eauto|].
  - intros H Hle. pose proof (skip_round_next _ _ Hr) as Hn.
    pose proof (skip_loop_size k' lx1' e' ltac:(lia) H) as Hs.
    destruct (ext_skip_round _ _ _ Hc Hr) as ([e|lx1] & Hr1 & Hc1);
      [cbn; lia|done|].
    rewrite Hr1. pose proof (skip_round_next _ _ Hr1).
    apply (IH _ _ _ _ Hc1); [lia|lia|done|done].
Qed.

(** The loops of a word and of a number stop in front of a ['/']. *)
Lemma ext_take_while (p : ascii -> bool) k : forall k' lx lx' lex,
  p NUL = false -> p "/"%char = false ->
  ext lx lx' -> size lx <= k -> size lx <= k' ->
  ext (take_while p k lx lex).1 (take_while p k' lx' lex).1
  /\ (take_while p k' lx' lex).2 = (take_while p k lx lex).2.
Proof.
  induction k as [|k IH]; intros k' lx lx' lex Hp Hq Hc Hk Hk'.
  { cbn [take_while]. destruct k' as [|k']; [done|]. cbn [take_while].
    destruct (ext_end _ _ Hc) as [-> _]; [lia|]. by rewrite Hq. }
  cbn [take_while].
  destruct (size lx) as [|m] eqn:Hm.
  { rewrite (size_0_peek lx Hm), Hp.
    destruct k' as [|k']; [done|]. cbn [take_while].
    destruct (ext_end _ _ Hc Hm) as [-> _]. by rewrite Hq. }
  assert (1 <= size lx) as Hpos by lia.
  destruct k' as [|k']; [lia|]. cbn [take_while].
  rewrite (ext_peek0 _ _ Hc Hpos).
  destruct (p (_peek lx 0)) eqn:E; [|done].
  assert (_peek lx 0 <> NUL) as Hz by (intros Hz; rewrite Hz in E; congruence).
  pose proof (advance_size lx Hz) as Ha.
  destruct (ext_advance _ _ Hc Hpos) as [Hc' Hch].
  destruct (_advance lx) as [lx1 ch], (_advance lx') as [lx1' ch'].
  cbn [fst snd] in *. subst ch'. apply IH; [done..|lia|lia].
Qed.

Lemma two_char_second (c d : ascii) t :
  two_char (string_of_list_ascii [c; d]) = Some t ->
  d <> "/"%char /\ d <> NUL.
Proof.
  unfold two_char. cbn [string_of_list_ascii].
  repeat match goal with
         | |- context [String.eqb ?a ?b] =>
             destruct (String.eqb_spec a b) as [[= -> ->]|_]; [done|]
         end.
  done.
Qed.

(** One round of [tokenize] that stays in front of the ['/*']. *)
Lemma ext_scan lx lx' out lx2' out2 :
  ext lx lx' ->
  scan lx' out = inr (lx2', out2) ->
  behind <= size lx2' ->
  exists lx2, scan lx out = inr (lx2, out2) /\ ext lx2 lx2'.
Proof.
  intros Hc. pose proof (ext_size _ _ Hc) as Hsz.
  destruct (size lx) as [|m] eqn:Hm.
  { destruct (ext_end _ _ Hc Hm) as [H0 H1].
    assert (_peek lx' 0 <> NUL) as Hz by (rewrite H0; done).
    pose proof (advance_size lx' Hz) as Ha.
    unfold scan. rewrite H0, H1. cbn.
    intros [= <- <-] Hle. lia. }
  assert (1 <= size lx) as Hpos by lia.
  pose proof Hc as (_ & Hl & Hcol).
  unfold scan. rewrite (ext_peek0 _ _ Hc Hpos), Hl, Hcol.
  destruct (Ascii.eqb_spec (_peek lx 0) NUL) as [|Hz]; [done|].
  pose proof (advance_size lx Hz) as Ha.
  destruct (ext_advance _ _ Hc Hpos) as [Hc1 _].
  destruct (isalpha (_peek lx 0) || Ascii.eqb (_peek lx 0) "_").
  { destruct (ext_take_while (fun c => isalnum c || Ascii.eqb c "_"%char)
                (length (rest lx)) (length (rest lx')) lx lx' []
                eq_refl eq_refl Hc) as [Hc2 Hlex]; [unfold size in *; lia..|].
    destruct (take_while _ (length (rest lx)) lx []) as [lx1 lex1].
    destruct (take_while _ (length (rest lx')) lx' []) as [lx1' lex1'].
    cbn [fst snd] in *. subst lex1'. intros [= <- <-] _. by exists lx1. }
  destruct (isdigit (_peek lx 0)) eqn:Hd.
  { destruct (ext_take_while isdigit
                (length (rest lx)) (length (rest lx')) lx lx' []
                eq_refl eq_refl Hc) as [Hc2 Hlex]; [unfold size in *; lia..|].
    destruct (take_while isdigit (length (rest lx)) lx []) as [lx1 lex1].
    destruct (take_while isdigit (length (rest lx')) lx' []) as [lx1' lex1'].
    cbn [fst snd] in *. subst lex1'.
    pose proof (ext_size _ _ Hc2) as Hsz2.
    assert ((Ascii.eqb (_peek lx1' 0) "."%char && isdigit (_peek lx1' 1))
            = (Ascii.eqb (_peek lx1 0) "."%char && isdigit (_peek lx1 1))) as ->.
    { destruct (size lx1) as [|[|m1]] eqn:Hm1.
      - destruct (ext_end _ _ Hc2 Hm1) as [-> _].
        by rewrite (size_0_peek lx1 Hm1).
      - rewrite (ext_peek0 _ _ Hc2) by lia.
        destruct (ext_last _ _ Hc2 Hm1) as [-> ->]. done.
      - rewrite (ext_peek0 _ _ Hc2), (ext_peek1 _ _ Hc2) by lia. done. }
    destruct (Ascii.eqb_spec (_peek lx1 0) "."%char) as [Hdot|Hdot]; cbn [andb];
      [|intros [= <- <-] _; by exists lx1].
    destruct (isdigit (_peek lx1 1)); [|intros [= <- <-] _; by exists lx1].
    assert (_peek lx1 0 <> NUL) as Hz1 by (rewrite Hdot; done).
    pose proof (size_pos_peek _ Hz1) as Hpos1.
    destruct (ext_advance _ _ Hc2 Hpos1) as [Hc3 Hch].
    destruct (_advance lx1) as [lx2a dot], (_advance lx1') as [lx2a' dot'].
    cbn [fst snd] in *. subst dot'.
    destruct (ext_take_while isdigit
                (length (rest lx2a)) (length (rest lx2a')) lx2a lx2a'
                (lex1 ++ [dot]) eq_refl eq_refl Hc3) as [Hc4 Hlex4].
    { done. }
    { pose proof (ext_size _ _ Hc3). unfold size in *. lia. }
    destruct (take_while isdigit (length (rest lx2a)) lx2a _) as [lx3 lex3].
    destruct (take_while isdigit (length (rest lx2a')) lx2a' _) as [lx3' lex3'].
    cbn [fst snd] in *. subst lex3'. intros [= <- <-] _. by exists lx3. }
  assert (two_char (string_of_list_ascii [_peek lx 0; _peek lx' 1])
          = two_char (string_of_list_ascii [_peek lx 0; _peek lx 1])
          /\ (forall t, two_char (string_of_list_ascii [_peek lx 0; _peek lx 1])
                        = Some t -> 2 <= size lx)) as [-> Htwo].
  { destruct m as [|m].
    - destruct (ext_last _ _ Hc Hm) as [-> ->].
      destruct (two_char (string_of_list_ascii [_peek lx 0; "/"%char])) eqn:E1.
      { by apply two_char_second in E1 as [? _]. }
      destruct (two_char (string_of_list_ascii [_peek lx 0; NUL])) eqn:E2.
      { by apply two_char_second in E2 as [_ ?]. }
      split; [done|]. by intros t Ht.
    - rewrite (ext_peek1 _ _ Hc) by lia. split; [done|]. intros; lia. }
  destruct (two_char _) eqn:E.
  { specialize (Htwo _ eq_refl). rewrite (ext_peek1 _ _ Hc Htwo).
    intros [= <- <-] _. eexists. split; [done|].
    apply ext_advance; [done|lia]. }
  destruct (single_map _); intros [= <- <-] _; by eexists.
Qed.

Lemma ext_rounds j : forall lx lx' out lx2' out2,
  ext lx lx' ->
  rounds j lx' out = Some (lx2', out2) ->
  behind <= size lx2' ->
  exists lx2, rounds j lx out = Some (lx2, out2) /\ ext lx2 lx2'.
Proof.
  induction j as [|j IH]; intros lx lx' out lx2' out2 Hc; cbn [rounds].
  { intros [= <- <-] _. by exists lx. }
  unfold _skip_ws_and_comments.
  destruct (skip_loop (S (length (rest lx'))) lx') as [e'|] eqn:Hs; [|done].
  destruct (scan e' out) as [toks|[n' out1]] eqn:Hscan; [done|].
  intros H Hle. pose proof (rounds_size _ _ _ _ _ H) as Hr.
  pose proof (scan_inr _ _ _ _ Hscan) as [Hlt _].
  destruct (ext_skip_loop (S (length (rest lx'))) (S (length (rest lx)))
              lx lx' e' Hc ltac:(unfold size; lia) ltac:(unfold size; lia) Hs)
    as (e & -> & Hc1); [lia|].
  destruct (ext_scan _ _ _ _ _ Hc1 Hscan) as (n1 & -> & Hc2); [lia|].
  by apply (IH _ _ _ _ _ Hc2).
Qed.
End Ext.

Lemma skip_round_NUL lx : _peek lx 0 = NUL -> skip_round lx = Some (inl lx).
Proof. unfold skip_round. by intros ->. Qed.

(** Where the lexer meets a ['/*'] in its skip loop and no ['*/']
    follows, it returns the tokens it had, which are those of the text
    in front of the ['/*']. *)
Lemma lex_before_comment (pre tail : string) j i lx0 lx out :
  rounds j (init (pre +:+ "/*" +:+ tail)) [] = Some (lx0, out) ->
  skip_rounds i lx0 = Some lx ->
  rest lx = list_ascii_of_string ("/*" +:+ tail) ->
  has_close (list_ascii_of_string tail) = false ->
  lex pre = Some (out ++ [eof_token lx])
  /\ exists lx', lex (pre +:+ "/*" +:+ tail) = Some (out ++ [eof_token lx']).
Proof.
  intros Hj Hi Hrest Hclose.
  set (T := list_ascii_of_string tail) in *.
  change (list_ascii_of_string ("/*" +:+ tail))
    with ("/"%char :: "*"%char :: T) in Hrest.
  assert (ext T (init pre) (init (pre +:+ "/*" +:+ tail))) as Hc.
  { unfold ext, init. cbn [rest line col].
    by rewrite list_ascii_of_string_app. }
  assert (size lx = behind T) as Hsize.
  { unfold size, behind. by rewrite Hrest. }
  pose proof (rounds_size _ _ _ _ _ Hj) as Hsj.
  pose proof (skip_rounds_size _ _ _ Hi) as Hsi.
  destruct (ext_rounds T j _ _ _ _ _ Hc Hj) as (p0 & Hpj & Hc0); [lia|].
  destruct (ext_skip_rounds T i _ _ _ Hc0 Hi) as (p & Hpi & Hcp); [lia|].
  pose proof (ext_size _ _ _ Hcp) as Hsp.
  assert (_peek p 0 = NUL) as Hz by (apply size_0_peek; lia).
  pose proof (rounds_size _ _ _ _ _ Hpj) as Hpsj.
  pose proof (skip_rounds_size _ _ _ Hpi) as Hpsi.
  split.
  - unfold lex, tokenize.
    assert (exists k, S (length (rest (init pre))) = j + S k) as [k ->].
    { exists (size (init pre) - j). unfold size in *. lia. }
    rewrite (tokenize_loop_rounds _ _ _ _ _ _ Hpj). cbn [tokenize_loop].
    unfold _skip_ws_and_comments.
    assert (exists k2, S (length (rest p0)) = i + S k2) as [k2 ->].
    { exists (size p0 - i). unfold size in *. lia. }
    rewrite (skip_loop_rounds _ _ _ _ Hpi), skip_loop_round, (skip_round_NUL _ Hz).
    rewrite (scan_NUL _ _ Hz). destruct Hcp as (_ & Hl & Hcol).
    unfold eof_token. by rewrite Hl, Hcol.
  - unfold lex, tokenize.
    assert (exists k, S (length (rest (init (pre +:+ "/*" +:+ tail)))) = j + S k)
      as [k ->].
    { exists (size (init (pre +:+ "/*" +:+ tail)) - j). unfold size in *. lia. }
    rewrite (tokenize_loop_rounds _ _ _ _ _ _ Hj). cbn [tokenize_loop].
    unfold _skip_ws_and_comments.
    assert (exists k2, S (length (rest lx0)) = i + S k2 /\ size lx < S k2)
      as (k2 & -> & Hk2).
    { exists (size lx0 - i). unfold size in *. lia. }
    rewrite (skip_loop_rounds _ _ _ _ Hi).
    destruct (skip_loop_unterminated [] T (S k2) lx Hrest eq_refl Hclose Hk2)
      as (lx' & -> & Hz').
    exists lx'. by rewrite scan_NUL.
Qed.

#[local] Transparent _advance.

Lemma has_close_app l1 l2 : has_close (l1 ++ l2) = false -> has_close l1 = false.
Proof.
  induction l1 as [|c l1 IH]; [done|]. cbn [app has_close].
  intros [H1 H2]%orb_false_iff. rewrite (IH H2), orb_false_r.
  destruct l1 as [|c' l1]; [by rewrite andb_false_r|done].
Qed.

(** The same for a ['/*'] inside the comment that is never closed. *)
Lemma lex_inside_comment (pre mid tail : string) j i lx0 lx out :
  rounds j (init (pre +:+ "/*" +:+ mid +:+ "/*" +:+ tail)) [] = Some (lx0, out) ->
  skip_rounds i lx0 = Some lx ->
  rest lx = list_ascii_of_string ("/*" +:+ mid +:+ "/*" +:+ tail) ->
  has_close (list_ascii_of_string (mid +:+ "/*" +:+ tail)) = false ->
  (exists lx1, lex (pre +:+ "/*" +:+ mid) = Some (out ++ [eof_token lx1]))
  /\ exists lx2,
       lex (pre +:+ "/*" +:+ mid +:+ "/*" +:+ tail) = Some (out ++ [eof_token lx2]).
Proof.
  intros Hj Hi Hrest Hclose.
  split; [|by eapply (lex_before_comment pre (mid +:+ "/*" +:+ tail))].
  set (T := list_ascii_of_string tail).
  set (M := list_ascii_of_string mid).
  assert (list_ascii_of_string (mid +:+ "/*" +:+ tail)
          = M ++ "/"%char :: "*"%char :: T) as EM.
  { by rewrite list_ascii_of_string_app. }
  assert (rest lx = ("/"%char :: "*"%char :: M) ++ "/"%char :: "*"%char :: T)
    as Hrest'.
  { rewrite Hrest.
    change (list_ascii_of_string ("/*" +:+ mid +:+ "/*" +:+ tail))
      with ("/"%char :: "*"%char :: list_ascii_of_string (mid +:+ "/*" +:+ tail)).
    by rewrite EM. }
  assert (ext T (init (pre +:+ "/*" +:+ mid))
              (init (pre +:+ "/*" +:+ mid +:+ "/*" +:+ tail))) as Hc.
  { unfold ext, init. cbn [rest line col].
    rewrite !list_ascii_of_string_app.
    change (list_ascii_of_string "/*") with ["/"%char; "*"%char].
    by rewrite <- !app_assoc. }
  assert (behind T <= size lx) as Hsize.
  { unfold size, behind. rewrite Hrest', length_app. cbn. lia. }
  pose proof (rounds_size _ _ _ _ _ Hj) as Hsj.
  pose proof (skip_rounds_size _ _ _ Hi) as Hsi.
  destruct (ext_rounds T j _ _ _ _ _ Hc Hj) as (p0 & Hpj & Hc0); [lia|].
  destruct (ext_skip_rounds T i _ _ _ Hc0 Hi) as (p & Hpi & Hcp); [lia|].
  assert (rest p = list_ascii_of_string ("/*" +:+ mid)) as Hp.
  { destruct Hcp as (Hr & _). rewrite Hrest' in Hr.
    by apply app_inv_tail in Hr. }
  destruct (lex_before_comment pre mid j i p0 p out Hpj Hpi Hp) as [_ H].
  { apply (has_close_app M ("/"%char :: "*"%char :: T)). by rewrite <- EM. }
  done.
Qed.

(** C7, amended.  Every source lexes to a token list that ends with the
    end-of-input token.  When the lexer, after some rounds of its loop
    and some rounds of the loop that skips white space and comments,
    stands in front of a ['/*'] behind which no ['*/'] follows, so that
    the ['/*'] begins a block comment which is never closed, the tokens
    are those of the text in front of that ['/*'], followed by
    end-of-input; and so it is for a ['/*'] that stands inside such a
    comment.  The lexer returns tokens only and has no channel for a
    diagnostic. *)
Theorem lex_eof_and_unterminated_comment :
  (forall src, exists toks lx, lex src = Some (toks ++ [eof_token lx]))
  /\ (forall (pre tail : string) j i lx0 lx out,
         rounds j (init (pre +:+ "/*" +:+ tail)) [] = Some (lx0, out) ->
         skip_rounds i lx0 = Some lx ->
         rest lx = list_ascii_of_string ("/*" +:+ tail) ->
         has_close (list_ascii_of_string tail) = false ->
         lex pre = Some (out ++ [eof_token lx])
         /\ exists lx',
              lex (pre +:+ "/*" +:+ tail) = Some (out ++ [eof_token lx']))
  /\ (forall (pre mid tail : string) j i lx0 lx out,
         rounds j (init (pre +:+ "/*" +:+ mid +:+ "/*" +:+ tail)) []
         = Some (lx0, out) ->
         skip_rounds i lx0 = Some lx ->
         rest lx = list_ascii_of_string ("/*" +:+ mid +:+ "/*" +:+ tail) ->
         has_close (list_ascii_of_string (mid +:+ "/*" +:+ tail)) = false ->
         (exists lx1, lex (pre +:+ "/*" +:+ mid) = Some (out ++ [eof_token lx1]))
         /\ exists lx2,
              lex (pre +:+ "/*" +:+ mid +:+ "/*" +:+ tail)
              = Some (out ++ [eof_token lx2])).
Proof.
  split; [|split].
  - intros src. unfold lex, tokenize.
    destruct (tokenize_loop_total (S (length (rest (init src)))) (init src) [])
      as (toks & lx & H); [size_lia|].
    by exists toks, lx.
  - intros pre tail j i lx0 lx out. apply lex_before_comment.
  - intros pre mid tail j i lx0 lx out. apply lex_inside_comment.
Qed.

(** C7, as stated, fails: the text after the ['/*'] holds no ['*/'], yet
    the ['/*'] stands in a line comment and the lexer goes on to the
    token [y] of the next line, which is no token of the text before. *)
Lemma lex_comment_opener_in_line_comment :
  has_close (list_ascii_of_string (String "010" "y")) = false
  /\ lex "x // " = Some [mkToken IDENT "x" 1 1; mkToken EOF "" 1 6]
  /\ lex ("x // " +:+ "/*" +:+ String "010" "y")
     = Some [mkToken IDENT "x" 1 1; mkToken IDENT "y" 2 1; mkToken EOF "" 2 2].
Proof. repeat split; vm_compute; reflexivity. Qed.

(** [a], a line comment and a block comment that is closed; behind
    them ['/* b'] is appended. *)
Definition line_then_block : string :=
  "a // c" +:+ String NL "/* d */ ".

Lemma lex_eof_and_unterminated_comment_witness :
  (rounds 1 (init (line_then_block +:+ "/*" +:+ " b")) []
   = Some (mkLexer (list_ascii_of_string
                      (" // c" +:+ String NL "/* d */ /* b")) 1 2,
           [mkToken IDENT "a" 1 1])
   /\ skip_rounds 5 (mkLexer (list_ascii_of_string
                                (" // c" +:+ String NL "/* d */ /* b")) 1 2)
      = Some (mkLexer (list_ascii_of_string "/* b") 2 9)
   /\ has_close (list_ascii_of_string " b") = false
   /\ lex line_then_block = Some [mkToken IDENT "a" 1 1; mkToken EOF "" 2 9]
   /\ exists lx',
        lex (line_then_block +:+ "/*" +:+ " b")
        = Some ([mkToken IDENT "a" 1 1] ++ [eof_token lx']))
  /\ (rounds 1 (init ("a " +:+ "/*" +:+ " b " +:+ "/*" +:+ " c")) []
      = Some (mkLexer (list_ascii_of_string " /* b /* c") 1 2,
              [mkToken IDENT "a" 1 1])
      /\ skip_rounds 1 (mkLexer (list_ascii_of_string " /* b /* c") 1 2)
         = Some (mkLexer (list_ascii_of_string "/* b /* c") 1 3)
      /\ has_close (list_ascii_of_string (" b " +:+ "/*" +:+ " c")) = false
      /\ (exists lx1,
            lex ("a " +:+ "/*" +:+ " b ")
            = Some ([mkToken IDENT "a" 1 1] ++ [eof_token lx1]))
      /\ exists lx2,
           lex ("a " +:+ "/*" +:+ " b " +:+ "/*" +:+ " c")
           = Some ([mkToken IDENT "a" 1 1] ++ [eof_token lx2])).
Proof.
  split.
  - split; [reflexivity|]. split; [reflexivity|]. split; [reflexivity|].
    apply (proj1 (proj2 lex_eof_and_unterminated_comment)
             line_then_block " b" 1 5
             (mkLexer (list_ascii_of_string
                         (" // c" +:+ String NL "/* d */ /* b")) 1 2)
             (mkLexer (list_ascii_of_string "/* b") 2 9)
             [mkToken IDENT "a" 1 1]);
      reflexivity.
  - split; [reflexivity|]. split; [reflexivity|]. split; [reflexivity|].
    apply (proj2 (proj2 lex_eof_and_unterminated_comment)
             "a " " b " " c" 1 1
             (mkLexer (list_ascii_of_string " /* b /* c") 1 2)
             (mkLexer (list_ascii_of_string "/* b /* c") 1 3)
             [mkToken IDENT "a" 1 1]);
      reflexivity.
Defined.

Example lex_unterminated_comment_position :
  lex "a /* b" = Some [mkToken IDENT "a" 1 1; mkToken EOF "" 1 7].
Proof. reflexivity. Qed.

(** After a block comment that is closed, too. *)
Example lex_unterminated_after_closed :
  lex "a /* c */ /* b" = Some [mkToken IDENT "a" 1 1; mkToken EOF "" 1 15]
  /\ lex "a /* c */ " = Some [mkToken IDENT "a" 1 1; mkToken EOF "" 1 11].
Proof. split; reflexivity. Qed.

(** *** The end-of-input token *)

Definition not_eof (t : Token) : bool := negb (TokenType_eqb (type t) EOF).

Lemma KEYWORDS_not_eof lexeme t : KEYWORDS lexeme = Some t -> t <> EOF.
Proof. unfold KEYWORDS. repeat case_match; by intros [= <-]. Qed.

Lemma two_char_not_eof two t : two_char two = Some t -> t <> EOF.
Proof. unfold two_char. repeat case_match; by intros [= <-]. Qed.

Lemma single_map_not_eof ch t : single_map ch = Some t -> t <> EOF.
Proof. unfold single_map. repeat case_match; by intros [= <-]. Qed.

Lemma not_eof_intro ttype lexeme line col :
  ttype <> EOF -> not_eof (_add ttype lexeme line col) = true.
Proof. unfold not_eof, _add. cbn. by destruct ttype. Qed.

(** A round that goes on adds no end-of-input token. *)
Lemma scan_not_eof lx out lx' out' :
  scan lx out = inr (lx', out') ->
  forallb not_eof out = true -> forallb not_eof out' = true.
Proof.
  unfold scan. intros H Hout. revert H.
  assert (forall t, not_eof t = true -> forallb not_eof (out ++ [t]) = true) as Hadd.
  { intros t Ht. rewrite forallb_app, Hout. cbn. by rewrite Ht. }
  destruct (Ascii.eqb (_peek lx 0) NUL); [done|].
  destruct (_ || _).
  { destruct (take_while _ _ _ _) as [lx1 lex1]. intros [= <- <-].
    apply Hadd, not_eof_intro.
    destruct (KEYWORDS _) eqn:E; [by eapply KEYWORDS_not_eof|done]. }
  destruct (isdigit _).
  { destruct (take_while _ _ _ _) as [lx1 lex1].
    destruct (_ && _).
    - destruct (_advance lx1) as [lx1' dot].
      destruct (take_while _ _ _ _). intros [= <- <-].
      by apply Hadd, not_eof_intro.
    - intros [= <- <-]. by apply Hadd, not_eof_intro. }
  destruct (two_char _) eqn:E2.
  { intros [= <- <-]. by eapply Hadd, not_eof_intro, two_char_not_eof. }
  destruct (single_map _) eqn:E1; intros [= <- <-]; [|done].
  by eapply Hadd, not_eof_intro, single_map_not_eof.
Qed.

Lemma tokenize_loop_not_eof k : forall lx out toks,
  tokenize_loop k lx out = Some toks ->
  forallb not_eof out = true ->
  exists pre lx', toks = pre ++ [eof_token lx'] /\ forallb not_eof pre = true.
Proof.
  induction k as [|k IH]; intros lx out toks; [done|]. cbn [tokenize_loop].
  destruct (_skip_ws_and_comments lx) as [lx1|]; [|done].
  destruct (scan lx1 out) as [toks'|[lx2 out']] eqn:Hscan.
  - intros [= <-] Hout. apply scan_inl in Hscan as ->. by exists out, lx1.
  - intros H Hout. apply (IH _ _ _ H). by eapply scan_not_eof.
Qed.

(** X11.  The tokens of every text end with the
    end-of-input token, and it is the only one of its kind among
    them. *)
Theorem lex_single_eof (src : string) :
  exists pre lx,
    lex src = Some (pre ++ [eof_token lx]) /\ forallb not_eof pre = true.
Proof.
  unfold lex, tokenize.
  destruct (tokenize_loop_total (S (length (rest (init src)))) (init src) [])
    as (toks & lx & H); [size_lia|].
  destruct (tokenize_loop_not_eof _ _ _ _ H eq_refl) as (pre & lx' & E & Hpre).
  exists pre, lx'. by rewrite H, E.
Qed.

End Lexer_facts.

(** ** Facts about the projections of the tree *)

Module Ast_facts.
Import Ast.

(** The value without its [inferred] entries, at every depth. *)
Fixpoint erase (j : json) : json :=
  match j with
  | JList l => JList (map erase l)
  | JDict d =>
      JDict (List.filter (fun kv => negb (String.eqb (fst kv) "inferred"))
               (map (fun kv => let '(k, v) := kv in (k, erase v)) d))
  | _ => j
  end.

Definition erase_entries (d : pydict) : pydict :=
  List.filter (fun kv => negb (String.eqb (fst kv) "inferred"))
    (map (fun kv => let '(k, v) := kv in (k, erase v)) d).

Lemma erase_dict kv d : erase (JDict (kv :: d)) = JDict (erase_entries (kv :: d)).
Proof. reflexivity. Qed.

Lemma erase_list l : erase (JList l) = JList (map erase l).
Proof. reflexivity. Qed.

Lemma erase_entries_keep k v d :
  k <> "inferred" -> erase_entries ((k, v) :: d) = (k, erase v) :: erase_entries d.
Proof.
  intros Hk. unfold erase_entries. cbn [map List.filter fst].
  by destruct (String.eqb_spec k "inferred").
Qed.

Lemma erase_entries_drop v d :
  erase_entries (("inferred", v) :: d) = erase_entries d.
Proof. reflexivity. Qed.

Lemma erase_entries_nil : erase_entries [] = [].
Proof. reflexivity. Qed.

Lemma erase_lit v : erase (json_of_lit v) = json_of_lit v.
Proof. by destruct v. Qed.

Lemma erase_str s : erase (JStr s) = JStr s.
Proof. reflexivity. Qed.

Lemma erase_nat n : erase (json_of_nat n) = json_of_nat n.
Proof. reflexivity. Qed.

Lemma erase_none : erase JNone = JNone.
Proof. reflexivity. Qed.

Lemma map_erase {A} (f g : A -> json) (l : list A) :
  Forall (fun x => erase (f x) = g x) l -> map erase (map f l) = map g l.
Proof.
  induction 1 as [|x l Hx _ IH]; [done|]. cbn [map]. by rewrite Hx, IH.
Qed.

#[local] Opaque erase.

Ltac erase_step :=
  repeat first [rewrite erase_dict
               |rewrite erase_list
               |rewrite erase_entries_drop
               |rewrite erase_entries_keep by done
               |rewrite erase_entries_nil
               |rewrite erase_str
               |rewrite erase_nat
               |rewrite erase_lit
               |rewrite erase_none].

Ltac dict_compute :=
  cbn [dict_set String.eqb Ascii.eqb Bool.eqb].

(** The raw projection holds no [inferred] entry. *)
Lemma erase_raw_expr e : erase (expr_json e) = expr_json e.
Proof.
  unfold expr_json.
  induction e as [n v l c t IH|n args l c t IH|v k t|n l c t|o r t IH
                  |x o y t IHx IHy|e t IH] using Expr_induct;
    cbn [ast_to_dict_expr]; erase_step; rewrite ?IH, ?IHx, ?IHy; try done.
  by rewrite (map_erase _ (fun a => JDict (ast_to_dict_expr a)) args IH).
Qed.

(** The typed projection of an expression is the raw one with
    [inferred] entries. *)
Lemma erase_typed_expr e : erase (typed_expr_json e) = expr_json e.
Proof.
  unfold typed_expr_json, expr_json.
  induction e as [n v l c t IH|n args l c t IH|v k t|n l c t|o r t IH
                  |x o y t IHx IHy|e t IH] using Expr_induct;
    cbn [typed_ast_to_dict_expr ast_to_dict_expr]; dict_compute;
    erase_step; rewrite ?IH, ?IHx, ?IHy; try done.
  by rewrite (map_erase _ (fun a => JDict (ast_to_dict_expr a)) args IH).
Qed.

Lemma erase_option_raw o :
  erase (json_of_option expr_json o) = json_of_option expr_json o.
Proof. destruct o as [e|]; [apply erase_raw_expr|done]. Qed.

Lemma erase_params ps : map erase (map param_to_dict ps) = map param_to_dict ps.
Proof.
  apply map_erase, Forall_forall. intros p _. unfold param_to_dict.
  by erase_step.
Qed.

Lemma erase_raw_stmt s :
  erase (JDict (ast_to_dict_stmt s)) = JDict (ast_to_dict_stmt s).
Proof.
  induction s as [rt n ps b IH|ss IH|t n i l c|c t e IHt IHe|c b IH
                  |i c p b IHi IHp IHb|e|e|e] using Stmt_induct;
    cbn [ast_to_dict_stmt]; erase_step;
    rewrite ?erase_params, ?erase_raw_expr, ?erase_option_raw, ?IH, ?IHt, ?IHb;
    try done.
  - by rewrite (map_erase _ (fun s => JDict (ast_to_dict_stmt s)) b IH).
  - by rewrite (map_erase _ (fun s => JDict (ast_to_dict_stmt s)) ss IH).
  - destruct e as [s|]; cbn [option_Forall] in IHe; by rewrite ?IHe.
  - destruct i as [si|], p as [sp|]; cbn [option_Forall] in IHi, IHp;
      by rewrite ?IHi, ?IHp.
Qed.

Lemma erase_typed_option o :
  erase (json_of_option typed_expr_json o) = json_of_option expr_json o.
Proof. destruct o as [e|]; [apply erase_typed_expr|done]. Qed.

Lemma erase_typed_stmt s :
  erase (JDict (typed_ast_to_dict_stmt s)) = JDict (ast_to_dict_stmt s).
Proof.
  induction s as [rt n ps b IH|ss IH|t n i l c|c t e IHt IHe|c b IH
                  |i c p b IHi IHp IHb|e|e|e] using Stmt_induct;
    cbn [typed_ast_to_dict_stmt ast_to_dict_stmt].
  - dict_compute. erase_step. rewrite erase_params.
    by rewrite (map_erase _ (fun s => JDict (ast_to_dict_stmt s)) b IH).
  - dict_compute. erase_step.
    by rewrite (map_erase _ (fun s => JDict (ast_to_dict_stmt s)) ss IH).
  - erase_step. by rewrite erase_option_raw.
  - destruct e as [s|]; cbn [option_Forall] in IHe; dict_compute; erase_step;
      by rewrite erase_typed_expr, IHt, ?IHe.
  - dict_compute. erase_step. by rewrite erase_typed_expr, IH.
  - destruct i as [si|], c as [ce|], p as [sp|];
      cbn [option_Forall json_of_option] in *; dict_compute; erase_step;
      by rewrite ?erase_typed_expr, ?IHi, ?IHp, IHb.
  - dict_compute. erase_step. by rewrite erase_typed_expr.
  - destruct e as [e|]; cbn [json_of_option]; dict_compute; erase_step;
      by rewrite ?erase_typed_expr.
  - dict_compute. erase_step. by rewrite erase_typed_expr.
Qed.

#[local] Transparent erase.

(** *** The [inferred] entries *)

(** The values of the [inferred] entries of a value, in the order of
    the document. *)
Fixpoint inferred_entries (j : json) : list json :=
  match j with
  | JList l => flat_map inferred_entries l
  | JDict d =>
      flat_map (fun kv => let '(k, v) := kv in
                          if String.eqb k "inferred" then [v]
                          else inferred_entries v) d
  | _ => []
  end.

Definition dict_entries (d : pydict) : list json :=
  flat_map (fun kv => let '(k, v) := kv in
                      if String.eqb k "inferred" then [v]
                      else inferred_entries v) d.

(** The [inferred_type] slots of an expression, in the order in which
    its typed projection lists the nodes: the children by their keys,
    then the node. *)
Fixpoint expr_types (e : Expr) : list (option string) :=
  match e with
  | Assign _ value _ _ t => expr_types value ++ [t]
  | Call _ args _ _ t => flat_map expr_types args ++ [t]
  | Literal _ _ t | Var _ _ _ t => [t]
  | Unary _ rhs t => expr_types rhs ++ [t]
  | Binary lhs _ rhs t => expr_types lhs ++ expr_types rhs ++ [t]
  | Grouping expr t => expr_types expr ++ [t]
  end.

Definition option_types {A} (f : A -> list (option string)) (o : option A)
  : list (option string) :=
  match o with
  | Some a => f a
  | None => []
  end.

(** The same for a statement; the initializer of a [VarDecl] is left
    out. *)
Fixpoint stmt_types (s : Stmt) : list (option string) :=
  match s with
  | FunctionDecl _ _ _ body => flat_map stmt_types body
  | Block statements => flat_map stmt_types statements
  | VarDecl _ _ _ _ _ => []
  | If cond then_branch else_branch =>
      expr_types cond ++ stmt_types then_branch
      ++ match else_branch with Some s' => stmt_types s' | None => [] end
  | While cond body => expr_types cond ++ stmt_types body
  | For init cond post body =>
      match init with Some s' => stmt_types s' | None => [] end
      ++ option_types expr_types cond
      ++ match post with Some s' => stmt_types s' | None => [] end
      ++ stmt_types body
  | Print expr | ExprStmt expr => expr_types expr
  | Return expr => option_types expr_types expr
  end.

Lemma entries_dict d : inferred_entries (JDict d) = dict_entries d.
Proof. reflexivity. Qed.

Lemma entries_list l : inferred_entries (JList l) = flat_map inferred_entries l.
Proof. reflexivity. Qed.

Lemma entries_keep k v d :
  k <> "inferred" ->
  dict_entries ((k, v) :: d) = inferred_entries v ++ dict_entries d.
Proof.
  intros Hk. unfold dict_entries. cbn [flat_map].
  by destruct (String.eqb_spec k "inferred").
Qed.

Lemma entries_hit v d : dict_entries (("inferred", v) :: d) = v :: dict_entries d.
Proof. reflexivity. Qed.

Lemma entries_nil : dict_entries [] = [].
Proof. reflexivity. Qed.

Lemma entries_lit v : inferred_entries (json_of_lit v) = [].
Proof. by destruct v. Qed.

Lemma entries_str s : inferred_entries (JStr s) = [].
Proof. reflexivity. Qed.

Lemma entries_nat n : inferred_entries (json_of_nat n) = [].
Proof. reflexivity. Qed.

Lemma entries_none : inferred_entries JNone = [].
Proof. reflexivity. Qed.

Lemma flat_map_entries {A} (f : A -> pydict) (g : A -> list (option string))
    (l : list A) :
  Forall (fun x => dict_entries (f x) = map (json_of_option JStr) (g x)) l ->
  flat_map inferred_entries (map (fun x => JDict (f x)) l)
  = map (json_of_option JStr) (flat_map g l).
Proof.
  induction 1 as [|x l Hx _ IH]; [done|]. cbn [map flat_map].
  by rewrite entries_dict, Hx, IH, map_app.
Qed.

Lemma flat_map_no_entries {A} (f : A -> pydict) (l : list A) :
  Forall (fun x => dict_entries (f x) = []) l ->
  flat_map inferred_entries (map (fun x => JDict (f x)) l) = [].
Proof.
  induction 1 as [|x l Hx _ IH]; [done|]. cbn [map flat_map].
  by rewrite entries_dict, Hx, IH.
Qed.

#[local] Opaque inferred_entries.

Ltac entries_step :=
  repeat first [rewrite entries_dict
               |rewrite entries_list
               |rewrite entries_hit
               |rewrite entries_keep by done
               |rewrite entries_nil
               |rewrite entries_str
               |rewrite entries_nat
               |rewrite entries_lit
               |rewrite entries_none].

Lemma entries_raw_expr e : dict_entries (ast_to_dict_expr e) = [].
Proof.
  induction e as [n v l c t IH|n args l c t IH|v k t|n l c t|o r t IH
                  |x o y t IHx IHy|e t IH] using Expr_induct;
    cbn [ast_to_dict_expr]; entries_step; rewrite ?IH, ?IHx, ?IHy; try done.
  by rewrite (flat_map_no_entries _ args IH).
Qed.

Lemma entries_typed_expr e :
  dict_entries (typed_ast_to_dict_expr e)
  = map (json_of_option JStr) (expr_types e).
Proof.
  induction e as [n v l c t IH|n args l c t IH|v k t|n l c t|o r t IH
                  |x o y t IHx IHy|e t IH] using Expr_induct;
    cbn [typed_ast_to_dict_expr ast_to_dict_expr inferred_type expr_types];
    dict_compute; entries_step; rewrite ?IH, ?IHx, ?IHy, ?map_app; cbn [app map];
    try done.
  by rewrite (flat_map_entries _ expr_types args IH).
Qed.

Lemma entries_params ps : flat_map inferred_entries (map param_to_dict ps) = [].
Proof.
  induction ps as [|p ps IH]; [done|]. cbn [map flat_map]. rewrite IH.
  unfold param_to_dict. by entries_step.
Qed.

Lemma entries_raw_option (o : option Expr) :
  inferred_entries (json_of_option expr_json o) = [].
Proof.
  destruct o as [e|]; [|done]. cbn [json_of_option]. unfold expr_json.
  by rewrite entries_dict, entries_raw_expr.
Qed.

Ltac entries_done :=
  cbn [app map]; rewrite ?map_app, ?app_nil_r, <- ?app_assoc; cbn [app map]; done.

Lemma entries_typed_stmt s :
  dict_entries (typed_ast_to_dict_stmt s)
  = map (json_of_option JStr) (stmt_types s).
Proof.
  induction s as [rt n ps b IH|ss IH|t n i l c|c t e IHt IHe|c b IH
                  |i c p b IHi IHp IHb|e|e|e] using Stmt_induct;
    cbn [typed_ast_to_dict_stmt ast_to_dict_stmt stmt_types].
  - dict_compute. entries_step.
    rewrite entries_params, (flat_map_entries _ stmt_types b IH). entries_done.
  - dict_compute. entries_step.
    rewrite (flat_map_entries _ stmt_types ss IH). entries_done.
  - entries_step. by rewrite entries_raw_option.
  - destruct e as [s|]; cbn [option_Forall] in IHe; dict_compute;
      unfold typed_expr_json; entries_step;
      rewrite entries_typed_expr, IHt, ?IHe; entries_done.
  - dict_compute. unfold typed_expr_json. entries_step.
    rewrite entries_typed_expr, IH. entries_done.
  - destruct i as [si|], c as [ce|], p as [sp|];
      cbn [option_Forall json_of_option option_types] in *; dict_compute;
      unfold typed_expr_json; entries_step;
      rewrite ?entries_typed_expr, ?IHi, ?IHp, IHb; entries_done.
  - dict_compute. unfold typed_expr_json. entries_step.
    rewrite entries_typed_expr. entries_done.
  - destruct e as [e|]; cbn [json_of_option option_types]; dict_compute;
      unfold typed_expr_json; entries_step;
      rewrite ?entries_typed_expr; entries_done.
  - dict_compute. unfold typed_expr_json. entries_step.
    rewrite entries_typed_expr. entries_done.
Qed.

Lemma entries_raw_stmt s : dict_entries (ast_to_dict_stmt s) = [].
Proof.
  induction s as [rt n ps b IH|ss IH|t n i l c|c t e IHt IHe|c b IH
                  |i c p b IHi IHp IHb|e|e|e] using Stmt_induct;
    cbn [ast_to_dict_stmt]; unfold expr_json; entries_step;
    rewrite ?entries_raw_expr, ?entries_raw_option, ?IH, ?IHt, ?IHb; try done.
  - rewrite entries_params.
    by rewrite (flat_map_no_entries _ b IH).
  - by rewrite (flat_map_no_entries _ ss IH).
  - destruct e as [s|]; cbn [option_Forall] in IHe; entries_step; by rewrite ?IHe.
  - destruct i as [si|], p as [sp|]; cbn [option_Forall] in IHi, IHp;
      entries_step; by rewrite ?IHi, ?IHp.
Qed.

#[local] Transparent inferred_entries.

(** X9.  The [inferred] entries of
    the typed projection of a program are, in the order of the
    document, the types of its expression nodes, those in the
    initializer of a declaration left out: a [VarDecl] is projected as
    [ast_to_dict] does it.  The projection of [ast_to_dict] holds no
    such entry, and apart from these entries the two are the same. *)
Theorem typed_projection_adds_inferred (p : Program) :
  inferred_entries (JDict (typed_ast_to_dict p))
  = map (json_of_option JStr) (flat_map stmt_types (body p))
  /\ inferred_entries (JDict (ast_to_dict p)) = []
  /\ erase (JDict (typed_ast_to_dict p)) = JDict (ast_to_dict p).
Proof.
  split; [|split].
  - unfold typed_ast_to_dict, ast_to_dict. dict_compute.
    rewrite entries_dict. rewrite !entries_keep by done.
    rewrite entries_nil, entries_str, entries_list.
    rewrite (flat_map_entries _ stmt_types); [entries_done|].
    apply Forall_forall. intros s _. apply entries_typed_stmt.
  - unfold ast_to_dict. rewrite entries_dict. rewrite !entries_keep by done.
    rewrite entries_nil, entries_str, entries_list.
    rewrite flat_map_no_entries; [done|].
    apply Forall_forall. intros s _. apply entries_raw_stmt.
  - unfold typed_ast_to_dict, ast_to_dict. dict_compute.
    cbn [erase map List.filter fst negb String.eqb Ascii.eqb Bool.eqb].
    rewrite (map_erase (fun s => JDict (typed_ast_to_dict_stmt s))
                       (fun s => JDict (ast_to_dict_stmt s))); [done|].
    apply Forall_forall. intros s _. apply erase_typed_stmt.
Qed.

(** [int x = 1 + 2; print(x);] after the analysis: the initializer
    brings no entry, the operand of [print] brings one. *)
Example typed_projection_of_declaration :
  inferred_entries
    (JDict (typed_ast_to_dict
              (mkProgram
                 [VarDecl "int" "x"
                    (Some (Binary (Literal (LInt 1) "int" (Some "int")) "+"
                                  (Literal (LInt 2) "int" (Some "int"))
                                  (Some "int"))) 1 1;
                  Print (Var "x" 1 22 (Some "int"))])))
  = [JStr "int"].
Proof. reflexivity. Qed.

End Ast_facts.

(** ** Facts about semantic analysis *)

Module Semantics_facts.
Import Ast Errors Semantics.

(** *** What a visit leaves alone *)

(** [a'] differs from [a] by diagnostics only. *)
Definition same_env (a a' : SemanticAnalyzer) : Prop :=
  symtab a' = symtab a /\ funcs a' = funcs a /\ current_ret a' = current_ret a.

Lemma same_env_refl a : same_env a a.
Proof. done. Qed.

Lemma same_env_trans a b c : same_env a b -> same_env b c -> same_env a c.
Proof. intros (?&?&?) (?&?&?). repeat split; congruence. Qed.

Lemma same_env_err a line col msg : same_env a (err a line col msg).
Proof. done. Qed.

Lemma same_env_if (b : bool) a a1 a2 :
  same_env a a1 -> same_env a a2 -> same_env a (if b then a1 else a2).
Proof. by destruct b. Qed.

Create HintDb sem discriminated.
#[local] Hint Resolve same_env_refl same_env_err same_env_if : sem.

Lemma map_accum_inv {S A B} (P : S -> Prop) (f : S -> A -> S * B) l st :
  Forall (fun x => forall st, P st -> P (f st x).1) l ->
  P st -> P (map_accum f st l).1.
Proof.
  intros H. revert st. induction H as [|x l Hx _ IH]; intros st Hst; [done|].
  cbn [map_accum]. specialize (Hx st Hst).
  destruct (f st x) as [st1 y]. specialize (IH st1 Hx).
  by destruct (map_accum f st1 l).
Qed.

Lemma zip_accum_inv {S P A} (Q : S -> Prop) (f : S -> P -> A -> S * A) ps l st :
  Forall (fun x => forall st p, Q st -> Q (f st p x).1) l ->
  Q st -> Q (zip_accum f st ps l).1.
Proof.
  intros H. revert st ps.
  induction H as [|x l Hx _ IH]; intros st ps Hst; [done|].
  cbn [zip_accum]. destruct ps as [|p ps]; [done|].
  specialize (Hx st p Hst).
  destruct (f st p x) as [st1 y]. specialize (IH st1 ps Hx).
  by destruct (zip_accum f st1 ps l).
Qed.

(** An expression visit adds diagnostics and nothing else. *)
Lemma visit_expr_same e : forall a, same_env a (visit_expr a e).1.1.
Proof.
  induction e as [n v l c t IH|n args l c t IH|v k t|n l c t|o r t IH
                  |x o y t IHx IHy|e t IH] using Expr_induct;
    intros a; cbn [visit_expr].
  - destruct (SymbolTable.resolve _ _) as [sym|].
    + specialize (IH a). destruct (visit_expr a v) as [[a1 v'] vt].
      destruct (negb _); [|exact IH].
      exact (same_env_trans _ _ _ IH (same_env_err _ _ _ _)).
    + specialize (IH (err a l c ("Undeclared variable '" +:+ n +:+ "'"))).
      destruct (visit_expr _ v) as [[a1 v'] vt].
      exact (same_env_trans _ _ _ (same_env_err _ _ _ _) IH).
  - destruct (funcs a !! n) as [sig|].
    + match goal with |- context [zip_accum ?f ?a0 ?ps args] =>
        pose proof (zip_accum_inv (same_env a) f ps args a0) as Hz;
        destruct (zip_accum f a0 ps args) as [a1 args']
      end.
      apply Hz; [|by destruct (negb (_ =? _)%nat)]. clear Hz.
      eapply Forall_impl; [exact IH|]. intros x Hx st p Hst. cbv beta.
      specialize (Hx st). destruct (visit_expr st x) as [[a' x'] xt].
      cbn [fst snd] in *.
      pose proof (same_env_trans _ _ _ Hst Hx) as Ht.
      destruct (negb (assignable _ _)); [|exact Ht].
      exact (same_env_trans _ _ _ Ht (same_env_err _ _ _ _)).
    + set (a0 := err a l c _).
      match goal with |- context [map_accum ?f a0 args] =>
        pose proof (map_accum_inv (same_env a) f args a0) as Hz end.
      destruct (map_accum _ a0 args) as [a1 args'].
      apply Hz; [|subst a0; auto with sem]. clear Hz.
      eapply Forall_impl; [exact IH|]. intros x Hx st Hst. cbv beta.
      specialize (Hx st). destruct (visit_expr st x) as [[a' x'] xt].
      exact (same_env_trans _ _ _ Hst Hx).
  - done.
  - by destruct (SymbolTable.resolve _ _).
  - specialize (IH a). destruct (visit_expr a r) as [[a1 r'] rt].
    cbn [fst] in IH.
    destruct (String.eqb o "!"); [by destruct (negb _)|].
    destruct (in_list o _); [by destruct (negb _)|done].
  - specialize (IHx a). destruct (visit_expr a x) as [[a1 x'] xt].
    specialize (IHy a1). destruct (visit_expr a1 y) as [[a2 y'] yt].
    cbn [fst] in *.
    pose proof (same_env_trans _ _ _ IHx IHy) as H2. cbv zeta.
    repeat match goal with
           | |- context [if ?b then _ else _] => destruct b
           end; exact H2.
  - specialize (IH a). by destruct (visit_expr a e) as [[a1 e'] et].
Qed.

Lemma visit_cond_same a cond msg : same_env a (visit_cond a cond msg).1.
Proof.
  unfold visit_cond. pose proof (visit_expr_same cond a) as H.
  destruct (visit_expr a cond) as [[a1 c'] t]. cbn [fst] in *.
  destruct (negb _); [|exact H].
  exact (same_env_trans _ _ _ H (same_env_err _ _ _ _)).
Qed.

Lemma visit_return_same a expr : same_env a (visit_return a expr).1.
Proof.
  unfold visit_return. destruct (current_ret a) as [cur|], expr as [e|];
    try done.
  - pose proof (visit_expr_same e a) as H.
    destruct (visit_expr a e) as [[a1 e'] t]. cbn [fst] in *.
    destruct (negb _); [|exact H].
    exact (same_env_trans _ _ _ H (same_env_err _ _ _ _)).
  - by destruct (negb _).
  - pose proof (visit_expr_same e a) as H.
    by destruct (visit_expr a e) as [[a1 e'] t].
Qed.

Lemma visit_init_same a var_type name init line col :
  same_env a (visit_init a var_type name init line col).1.
Proof.
  unfold visit_init. destruct init as [e|]; [|done].
  pose proof (visit_expr_same e a) as H.
  destruct (visit_expr a e) as [[a1 e'] t]. cbn [fst] in *.
  destruct (negb _); [|exact H].
  exact (same_env_trans _ _ _ H (same_env_err _ _ _ _)).
Qed.

(** *** Scopes *)

(** The names a statement declares in the scope it is visited in: its
    own, when it is a declaration, and those of the branches of an [If]
    and of the body of a [While], which open no scope. *)
Fixpoint scope_decls (s : Stmt) : list string :=
  match s with
  | VarDecl _ name _ _ _ => [name]
  | If _ then_branch else_branch =>
      scope_decls then_branch
      ++ match else_branch with
         | Some s' => scope_decls s'
         | None => []
         end
  | While _ body => scope_decls body
  | _ => []
  end.

(** [a'] has the scopes of [a], the current one changed at most at
    [names]; signatures and return type are the same. *)
Definition scoped (names : list string) (a a' : SemanticAnalyzer) : Prop :=
  length (symtab a') = length (symtab a)
  /\ tl (symtab a') = tl (symtab a)
  /\ (forall y, y ∉ names ->
        hd (∅ : SymbolTable.Scope) (symtab a') !! y
        = hd (∅ : SymbolTable.Scope) (symtab a) !! y)
  /\ funcs a' = funcs a
  /\ current_ret a' = current_ret a.

Lemma scoped_same names a a' : same_env a a' -> scoped names a a'.
Proof. intros (Hs & Hf & Hr). unfold scoped. rewrite Hs. by repeat split. Qed.

Lemma scoped_nil a a' : scoped [] a a' -> same_env a a'.
Proof.
  intros (Hlen & Htl & Hhd & Hf & Hr). repeat split; [|done|done].
  destruct (symtab a) as [|t R], (symtab a') as [|t' R']; simpl in *;
    try done.
  f_equal; [|done]. apply map_eq. intros y. apply Hhd. by apply not_elem_of_nil.
Qed.

Lemma scoped_trans n1 n2 a b c :
  scoped n1 a b -> scoped n2 b c -> scoped (n1 ++ n2) a c.
Proof.
  intros (L1 & T1 & H1 & F1 & R1) (L2 & T2 & H2 & F2 & R2).
  repeat split; try congruence.
  intros y Hy. apply not_elem_of_app in Hy as [Hy1 Hy2].
  by rewrite H2, H1.
Qed.

Lemma scoped_same_l names a b c :
  same_env a b -> scoped names b c -> scoped names a c.
Proof. intros H1 H2. apply (scoped_trans [] names a b c); [by apply scoped_same|done]. Qed.

Lemma scoped_same_r names a b c :
  scoped names a b -> same_env b c -> scoped names a c.
Proof.
  intros H1 H2. rewrite <- (app_nil_r names).
  apply (scoped_trans names [] a b c); [done|by apply scoped_same].
Qed.

Lemma define_scoped a name type_ : scoped [name] a (define a name type_).1.
Proof.
  unfold define, SymbolTable.define.
  destruct (symtab a) as [|cur parents] eqn:E.
  { unfold scoped. simpl. by rewrite E. }
  unfold SymbolTable.Scope_define.
  destruct (cur !! name) eqn:Hc; unfold scoped; simpl; rewrite E;
    repeat split; try done.
  intros y Hy. simpl. apply lookup_insert_ne. set_solver.
Qed.

Lemma visit_vardecl_scoped a var_type name init line col :
  scoped [name] a (visit_vardecl a var_type name init line col).1.
Proof.
  unfold visit_vardecl. pose proof (define_scoped a name var_type) as H.
  destruct (define a name var_type) as [a1 ok]. cbn [fst] in H.
  eapply scoped_same_r; [exact H|].
  eapply same_env_trans; [|apply visit_init_same].
  destruct (negb ok); auto with sem.
Qed.

(** Inside a pushed scope: the scopes of [a] lie under one more. *)
Definition inside (a a' : SemanticAnalyzer) : Prop :=
  tl (symtab a') = symtab a
  /\ length (symtab a') = S (length (symtab a))
  /\ funcs a' = funcs a
  /\ current_ret a' = current_ret a.

Lemma inside_push a : inside a (push_scope a).
Proof. done. Qed.

Lemma inside_pop a a' : inside a a' -> same_env a (pop_scope a').
Proof. intros (H1 & H2 & H3 & H4). by repeat split. Qed.

Lemma inside_scoped names a b c : inside a b -> scoped names b c -> inside a c.
Proof.
  intros (H1 & H2 & H3 & H4) (L & T & _ & F & R).
  repeat split; congruence.
Qed.

Lemma inside_same a b c : inside a b -> same_env b c -> inside a c.
Proof. intros H1 H2. eapply inside_scoped; [done|by apply (scoped_same [])]. Qed.

Lemma visit_opt_inside {A} (f : SemanticAnalyzer -> A -> SemanticAnalyzer * A)
  a b (o : option A) :
  inside a b ->
  (forall x, o = Some x -> inside a (f b x).1) ->
  inside a (visit_opt f b o).1.
Proof.
  intros Hb Hf. destruct o as [x|]; [|done]. simpl.
  specialize (Hf x eq_refl). by destruct (f b x).
Qed.

Lemma block_items_inside visit a b statements :
  Forall (fun s => forall a0, scoped (scope_decls s) a0 (visit a0 s).1) statements ->
  inside a b ->
  inside a (map_accum (block_item visit) b statements).1.
Proof.
  intros H. apply (map_accum_inv (inside a)).
  eapply Forall_impl; [exact H|]. intros s Hs st Hst. cbv beta in *.
  destruct s; cbn [block_item];
    try (eapply inside_scoped; [exact Hst|apply Hs]).
  eapply inside_same; [exact Hst|apply same_env_err].
Qed.

Lemma visit_block_with_same visit a statements :
  Forall (fun s => forall a0, scoped (scope_decls s) a0 (visit a0 s).1) statements ->
  same_env a (visit_block_with visit a statements).1.
Proof.
  intros H. unfold visit_block_with.
  pose proof (block_items_inside visit a (push_scope a) statements H
                (inside_push a)) as Hi.
  destruct (map_accum _ _ statements) as [a1 ss']. by apply inside_pop.
Qed.

(** A statement changes the current scope at the names it declares
    there, and no other scope. *)
Lemma visit_stmt_scoped s : forall a, scoped (scope_decls s) a (visit_stmt a s).1.
Proof.
  induction s as [rt n ps b IH|ss IH|t n i l c|c t e IHt IHe|c b IH
                  |i c p b IHi IHp IHb|e|e|e] using Stmt_induct;
    intros a; cbn [visit_stmt scope_decls].
  - apply scoped_same, same_env_refl.
  - pose proof (visit_block_with_same visit_stmt a ss IH) as H.
    destruct (visit_block_with visit_stmt a ss) as [a1 ss'].
    by apply scoped_same.
  - apply visit_vardecl_scoped.
  - pose proof (visit_cond_same a c "if condition must be bool") as Hc.
    destruct (visit_cond a c _) as [a1 c'].
    specialize (IHt a1). destruct (visit_stmt a1 t) as [a2 t'].
    cbn [fst] in *.
    destruct e as [s'|]; cbn [visit_opt].
    + simpl in IHe. specialize (IHe a2). destruct (visit_stmt a2 s') as [a3 e'].
      cbn [fst] in *.
      eapply scoped_same_l; [exact Hc|]. by eapply scoped_trans.
    + rewrite app_nil_r. by eapply scoped_same_l.
  - pose proof (visit_cond_same a c "while condition must be bool") as Hc.
    destruct (visit_cond a c _) as [a1 c'].
    specialize (IH a1). destruct (visit_stmt a1 b) as [a2 b'].
    cbn [fst] in *. by eapply scoped_same_l.
  - apply scoped_same.
    assert (inside a (visit_opt visit_stmt (push_scope a) i).1) as H1.
    { apply visit_opt_inside; [apply inside_push|]. intros x ->.
      eapply inside_scoped; [apply inside_push|apply IHi]. }
    destruct (visit_opt visit_stmt (push_scope a) i) as [a1 i'].
    assert (inside a (visit_opt (fun a c => visit_cond a c "for condition must be bool")
                        a1 c).1) as H2.
    { apply visit_opt_inside; [done|]. intros x _.
      eapply inside_same; [exact H1|apply visit_cond_same]. }
    destruct (visit_opt _ a1 c) as [a2 c'].
    assert (inside a (visit_opt visit_stmt a2 p).1) as H3.
    { apply visit_opt_inside; [done|]. intros x ->.
      eapply inside_scoped; [exact H2|apply IHp]. }
    destruct (visit_opt visit_stmt a2 p) as [a3 p'].
    specialize (IHb a3). destruct (visit_stmt a3 b) as [a4 b'].
    cbn [fst] in *. apply inside_pop. by eapply inside_scoped.
  - pose proof (visit_expr_same e a) as H.
    destruct (visit_expr a e) as [[a1 e'] t]. by apply scoped_same.
  - apply scoped_same, visit_return_same.
  - pose proof (visit_expr_same e a) as H.
    destruct (visit_expr a e) as [[a1 e'] t]. by apply scoped_same.
Qed.

(** *** The symbol table at the end of the analysis *)

Lemma define_params_scoped a ps : scoped (pname <$> ps) a (define_params a ps).
Proof.
  unfold define_params. revert a.
  induction ps as [|p ps IH]; intros a; cbn [fold_left fmap list_fmap].
  - apply scoped_same, same_env_refl.
  - pose proof (define_scoped a (pname p) (ptype p)) as H.
    destruct (define a (pname p) (ptype p)) as [a1 ok]. cbn [fst] in H.
    apply (scoped_trans [pname p] (pname <$> ps) a
             (if negb ok then err a1 0 0 ("Parameter redeclared: " +:+ pname p)
              else a1)); [|apply IH].
    eapply scoped_same_r; [exact H|]. destruct (negb ok); auto with sem.
Qed.

Lemma visit_block_same a statements :
  same_env a (visit_block a statements).1.
Proof.
  apply visit_block_with_same, Forall_forall. intros s _. apply visit_stmt_scoped.
Qed.

(** A function declaration leaves the scopes, the signatures and the
    enclosing return type as it found them. *)
Lemma visit_function_same a rt name ps b :
  same_env a (visit_function a rt name ps b).1.
Proof.
  unfold visit_function.
  set (a1 := with_ret a (Some rt)).
  pose proof (inside_scoped _ _ _ _ (inside_push a1)
                (define_params_scoped (push_scope a1) ps)) as H.
  pose proof (visit_block_same (define_params (push_scope a1) ps) b) as Hb.
  destruct (visit_block _ b) as [a3 b']. cbn [fst] in *.
  pose proof (inside_pop _ _ (inside_same _ _ _ H Hb)) as (Hs & Hf & Hr).
  by repeat split.
Qed.

(** X5.  A statement leaves as many scopes as it
    found, the enclosing ones as they were, and in the current scope it
    touches only the names it declares there. *)
Theorem visit_stmt_depth (s : Stmt) (a : SemanticAnalyzer) :
  length (symtab (visit_stmt a s).1) = length (symtab a)
  /\ tl (symtab (visit_stmt a s).1) = tl (symtab a)
  /\ (forall y, y ∉ scope_decls s ->
        hd (∅ : SymbolTable.Scope) (symtab (visit_stmt a s).1) !! y
        = hd (∅ : SymbolTable.Scope) (symtab a) !! y)
  /\ funcs (visit_stmt a s).1 = funcs a.
Proof.
  destruct (visit_stmt_scoped s a) as (H1 & H2 & H3 & H4 & _). done.
Qed.

(** What a top-level statement does to the global scope: a variable
    declaration defines its name, when it is free. *)
Definition define_top (scope : SymbolTable.Scope) (s : Stmt) : SymbolTable.Scope :=
  match s with
  | VarDecl var_type name _ _ _ => (SymbolTable.Scope_define scope name var_type).1
  | _ => scope
  end.

Definition top_level_scope (p : Program) : SymbolTable.Scope :=
  fold_left define_top (body p) ∅.

(** The type of the first top-level declaration of [x]. *)
Fixpoint first_decl (x : string) (l : list Stmt) : option string :=
  match l with
  | [] => None
  | VarDecl var_type name _ _ _ :: l' =>
      if String.eqb name x then Some var_type else first_decl x l'
  | _ :: l' => first_decl x l'
  end.

(** The top-level statements the parser builds: declarations, and
    statements whose [If] and [While] parts are no bare declarations
    ([statement()] never returns one). *)
Definition top_shaped (s : Stmt) : bool :=
  match s with
  | VarDecl _ _ _ _ _ | FunctionDecl _ _ _ _ => true
  | _ => match scope_decls s with [] => true | _ :: _ => false end
  end.

Lemma visit_top_global a G s :
  symtab a = [G] -> top_shaped s = true ->
  symtab (visit_top a s).1 = [define_top G s].
Proof.
  intros Ha Hs.
  assert (forall s', scope_decls s' = [] ->
                     symtab (visit_stmt a s').1 = [G]) as Hneutral.
  { intros s' Hd. pose proof (visit_stmt_scoped s' a) as H. rewrite Hd in H.
    apply scoped_nil in H as (-> & _). done. }
  destruct s as [rt n ps b| |vt name init ln cl| | | | | |];
    cbn [visit_top define_top];
    cbn [top_shaped] in Hs;
    try (apply Hneutral;
         match type of Hs with
         | context [scope_decls ?s'] => by destruct (scope_decls s')
         end).
  - by destruct (visit_function_same a rt n ps b) as (-> & _).
  - cbn [visit_stmt]. unfold visit_vardecl.
    unfold define, SymbolTable.define. rewrite Ha.
    destruct (SymbolTable.Scope_define G name vt) as [G' ok].
    cbn [fst].
    match goal with |- symtab (visit_init ?a0 _ _ _ _ _).1 = _ =>
      destruct (visit_init_same a0 vt name init ln cl) as (-> & _)
    end.
    by destruct (negb ok).
Qed.

Lemma visit_tops_global l : forall a G,
  symtab a = [G] -> Forall (fun s => top_shaped s = true) l ->
  symtab (map_accum visit_top a l).1 = [fold_left define_top l G].
Proof.
  induction l as [|s l IH]; intros a G Ha Hl; [done|].
  apply Forall_cons in Hl as [Hs Hl]. cbn [map_accum fold_left].
  pose proof (visit_top_global a G s Ha Hs) as H1.
  destruct (visit_top a s) as [a1 s']. cbn [fst] in H1.
  specialize (IH a1 _ H1 Hl).
  by destruct (map_accum visit_top a1 l).
Qed.

Lemma collect_signatures_symtab l a :
  symtab (collect_signatures a l) = symtab a.
Proof.
  unfold collect_signatures. revert a.
  induction l as [|s l IH]; intros a; cbn [fold_left]; [done|].
  rewrite IH. destruct s; try done. by destruct (funcs a !! name).
Qed.

Lemma top_level_lookup l x : forall G : gmap string SymbolTable.Symbol,
  (SymbolTable.type <$> fold_left define_top l G) !! x
  = match G !! x with
    | Some sym => Some (SymbolTable.type sym)
    | None => first_decl x l
    end.
Proof.
  induction l as [|s l IH]; intros G; cbn [fold_left first_decl].
  - rewrite lookup_fmap. by destruct (G !! x).
  - rewrite IH.
    destruct s; cbn [define_top]; try done.
    unfold SymbolTable.Scope_define, SymbolTable.Scope.
    destruct (G !! name) as [sym|] eqn:Hn; cbn [fst].
    + destruct (String.eqb_spec name x) as [->|Hne]; [by rewrite Hn|done].
    + destruct (String.eqb_spec name x) as [->|Hne].
      * by rewrite lookup_insert_eq, Hn.
      * by rewrite lookup_insert_ne.
Qed.

(** X1.  Every scope pushed during the analysis
    is popped again: for a
    program shaped as the parser builds it, the symbol table of the
    result holds the global scope alone, at level 0, and a name is in
    it with the type of its first top-level declaration. *)
Theorem analyze_symbol_table (p : Program) :
  Forall (fun s => top_shaped s = true) (body p) ->
  symbol_table (analyze p) = [(0, SymbolTable.type <$> top_level_scope p)]
  /\ forall x, (SymbolTable.type <$> top_level_scope p) !! x
               = first_decl x (body p).
Proof.
  intros Hp. split.
  - unfold analyze, visit_program.
    pose proof (visit_tops_global (body p) (collect_signatures new (body p)) ∅
                  (collect_signatures_symtab _ _) Hp) as H.
    destruct (map_accum visit_top _ (body p)) as [a1 body']. cbn [fst] in H.
    cbn [symbol_table]. by rewrite H.
  - intros x. unfold top_level_scope. by rewrite top_level_lookup.
Qed.

(** [int g = 1; int f(int a) { int b = a; } float g = 2; { int h; }] *)
Definition two_globals : Program :=
  mkProgram
    [VarDecl "int" "g" (Some (Literal (LInt 1) "int" None)) 1 1;
     FunctionDecl "int" "f" [mkParam "int" "a"]
       [VarDecl "int" "b" (Some (Var "a" 1 30 None)) 1 22];
     VarDecl "float" "g" (Some (Literal (LInt 2) "int" None)) 1 36;
     Block [VarDecl "int" "h" None 1 51]].

Lemma analyze_symbol_table_witness :
  Forall (fun s => top_shaped s = true) (body two_globals)
  /\ symbol_table (analyze two_globals) = [(0, {["g" := "int"]})].
Proof.
  assert (Forall (fun s => top_shaped s = true) (body two_globals)) as H
    by (repeat constructor).
  split; [exact H|].
  rewrite (proj1 (analyze_symbol_table two_globals H)). reflexivity.
Defined.

(** Without the shape the statement fails: a declaration that is the
    bare branch of an [If] lands in the scope around the [If]. *)
Example bare_branch_declares_global :
  symbol_table
    (analyze (mkProgram [If (Literal (LBool true) "bool" None)
                            (VarDecl "int" "x" None 1 1) None]))
  = [(0, {["x" := "int"]})].
Proof. reflexivity. Qed.

(** *** The scopes at the end of the analysis *)

Lemma visit_top_length a s :
  length (symtab (visit_top a s).1) = length (symtab a).
Proof.
  destruct s as [rt n ps b| | | | | | | |]; cbn [visit_top].
  { by destruct (visit_function_same a rt n ps b) as (-> & _). }
  all: match goal with |- context [visit_stmt ?a0 ?s] =>
         by destruct (visit_stmt_scoped s a0) as (-> & _) end.
Qed.

Lemma visit_tops_length l : forall a,
  length (symtab (map_accum visit_top a l).1) = length (symtab a).
Proof.
  induction l as [|s l IH]; intros a; [done|]. cbn [map_accum].
  pose proof (visit_top_length a s) as H.
  destruct (visit_top a s) as [a1 s']. cbn [fst] in H.
  specialize (IH a1). destruct (map_accum visit_top a1 l). cbn [fst] in *.
  congruence.
Qed.

(** C10.  Every scope pushed during the analysis is popped again, so
    the symbol table of the result holds one scope, at level 0, for
    every program.  For a program shaped as the parser builds it that
    scope holds the variables declared at the top level, and no other
    name: each with the type of its first declaration, the one that
    [define] accepts. *)
Theorem analyze_leaves_global_scope (p : Program) :
  (exists symbols, symbol_table (analyze p) = [(0, symbols)])
  /\ (Forall (fun s => top_shaped s = true) (body p) ->
      symbol_table (analyze p) = [(0, SymbolTable.type <$> top_level_scope p)]
      /\ forall x, (SymbolTable.type <$> top_level_scope p) !! x
                   = first_decl x (body p)).
Proof.
  split.
  - unfold analyze, visit_program.
    pose proof (visit_tops_length (body p) (collect_signatures new (body p))) as H.
    rewrite collect_signatures_symtab in H.
    destruct (map_accum visit_top _ (body p)) as [a1 body']. cbn [fst] in H.
    cbn [symbol_table].
    destruct (symtab a1) as [|G [|G' rest]]; [done| |done].
    by eexists.
  - intros Hp. split.
    + unfold analyze, visit_program.
      pose proof (visit_tops_global (body p) (collect_signatures new (body p)) ∅
                    (collect_signatures_symtab _ _) Hp) as H.
      destruct (map_accum visit_top _ (body p)) as [a1 body']. cbn [fst] in H.
      cbn [symbol_table]. by rewrite H.
    + intros x. unfold top_level_scope. by rewrite top_level_lookup.
Qed.

Lemma analyze_leaves_global_scope_witness :
  Forall (fun s => top_shaped s = true) (body two_globals)
  /\ symbol_table (analyze two_globals) = [(0, {["g" := "int"]})]
  /\ ({["g" := "int"]} : gmap string string) !! "g"
     = first_decl "g" (body two_globals).
Proof.
  assert (Forall (fun s => top_shaped s = true) (body two_globals)) as H
    by (repeat constructor).
  split; [exact H|].
  destruct (proj2 (analyze_leaves_global_scope two_globals) H) as [H1 H2].
  split; [rewrite H1; reflexivity|]. reflexivity.
Defined.

(** *** Parameters and the declarations of the body *)

(** The state in which the first statement of a function body is
    visited: [visit_function] has pushed the scope of the parameters and
    [visit_block] the scope of the block. *)
Definition body_entry (a : SemanticAnalyzer) (rt : string) (ps : list Param)
  : SemanticAnalyzer :=
  push_scope (define_params (push_scope (with_ret a (Some rt))) ps).

(** The loop of [visit_block] over some statements. *)
Definition items : SemanticAnalyzer -> list Stmt -> SemanticAnalyzer * list Stmt :=
  map_accum (block_item visit_stmt).

Lemma map_accum_app {S A B} (f : S -> A -> S * B) l1 l2 st :
  map_accum f st (l1 ++ l2)
  = let '(st1, y1) := map_accum f st l1 in
    let '(st2, y2) := map_accum f st1 l2 in
    (st2, y1 ++ y2).
Proof.
  revert st. induction l1 as [|x l1 IH]; intros st; cbn [map_accum app].
  - by destruct (map_accum f st l2).
  - destruct (f st x) as [st1 y]. rewrite IH.
    destruct (map_accum f st1 l1) as [st2 ys].
    by destruct (map_accum f st2 l2).
Qed.

Lemma block_item_scoped a s :
  scoped (scope_decls s) a (block_item visit_stmt a s).1.
Proof.
  destruct s; try apply visit_stmt_scoped.
  apply scoped_same, same_env_err.
Qed.

Lemma items_scoped l : forall a,
  scoped (mjoin (scope_decls <$> l)) a (items a l).1.
Proof.
  unfold items.
  induction l as [|s l IH]; intros a; cbn [map_accum fmap list_fmap mjoin list_join].
  - apply scoped_same, same_env_refl.
  - pose proof (block_item_scoped a s) as H.
    destruct (block_item visit_stmt a s) as [a1 s']. cbn [fst] in H.
    specialize (IH a1). destruct (map_accum _ a1 l) as [a2 l'].
    by eapply scoped_trans.
Qed.

Lemma define_defined a name type_ y :
  symtab a <> [] ->
  (y = name \/ is_Some (hd (∅ : SymbolTable.Scope) (symtab a) !! y)) ->
  is_Some (hd (∅ : SymbolTable.Scope) (symtab (define a name type_).1) !! y).
Proof.
  intros Hne Hy. unfold define, SymbolTable.define.
  destruct (symtab a) as [|cur parents]; [done|].
  unfold SymbolTable.Scope_define, SymbolTable.Scope in *. simpl in Hy.
  destruct (cur !! name) as [sym|] eqn:Hc; simpl.
  - destruct Hy as [->|Hy]; [by rewrite Hc|done].
  - destruct (decide (y = name)) as [->|Hn].
    + rewrite lookup_insert_eq. by eexists.
    + rewrite lookup_insert_ne by done. by destruct Hy.
Qed.

(** After [define_params] every parameter name is in the current scope. *)
Lemma define_params_defined ps : forall a y,
  symtab a <> [] ->
  (y ∈ pname <$> ps \/ is_Some (hd (∅ : SymbolTable.Scope) (symtab a) !! y)) ->
  is_Some (hd (∅ : SymbolTable.Scope) (symtab (define_params a ps)) !! y).
Proof.
  unfold define_params.
  induction ps as [|p ps IH]; intros a y Hne Hy; cbn [fold_left].
  - destruct Hy as [Hy|Hy]; [by apply elem_of_nil in Hy|done].
  - pose proof (define_defined a (pname p) (ptype p) y Hne) as Hd.
    pose proof (define_scoped a (pname p) (ptype p)) as (Hlen & _).
    destruct (define a (pname p) (ptype p)) as [a1 ok]. cbn [fst] in *.
    assert (symtab a1 <> []) as Hne1.
    { destruct (symtab a1); [|done]. by destruct (symtab a). }
    apply IH.
    + by destruct (negb ok).
    + cbn [fmap list_fmap] in Hy. destruct Hy as [Hy|Hy].
      * apply elem_of_cons in Hy as [->|Hy]; [|by left].
        right. destruct (negb ok); apply Hd; by left.
      * right. destruct (negb ok); apply Hd; by right.
Qed.

(** X2.  In [visit_function] the
    parameters get a scope of their own and
    [visit_block] pushes another for the body.  So a declaration at the
    top level of the body that bears the name of a parameter, and is
    the first of that name in the block, is defined with success: it
    shadows the parameter and no redeclaration is reported; what the
    visit of the declaration does is the define and the visit of its
    initializer. *)
Theorem body_declaration_shadows_parameter
  (a : SemanticAnalyzer) rt f ps pre ty x init l c post :
  x ∈ pname <$> ps ->
  Forall (fun s => x ∉ scope_decls s) pre ->
  let a1 := (items (body_entry a rt ps) pre).1 in
  (exists block_scope param_scope outer,
      symtab a1 = block_scope :: param_scope :: outer
      /\ block_scope !! x = None
      /\ is_Some (param_scope !! x))
  /\ (define a1 x ty).2 = true
  /\ SymbolTable.resolve (symtab (define a1 x ty).1) x
     = Some (SymbolTable.mkSymbol x ty)
  /\ visit_function a rt f ps (pre ++ VarDecl ty x init l c :: post)
     = (let '(a1, pre') := items (body_entry a rt ps) pre in
        let '(a2, decl') := visit_init (define a1 x ty).1 ty x init l c in
        let '(a3, post') := items a2 post in
        (with_ret (pop_scope (pop_scope a3)) (current_ret a),
         FunctionDecl rt f ps (pre' ++ decl' :: post'))).
Proof.
  intros Hx Hpre a1.
  set (ap := define_params (push_scope (with_ret a (Some rt))) ps).
  assert (is_Some (hd (∅ : SymbolTable.Scope) (symtab ap) !! x)) as Hparam.
  { apply define_params_defined; [done|by left]. }
  pose proof (items_scoped pre (body_entry a rt ps)) as (Hlen & Htl & Hhd & _).
  fold a1 in Hlen, Htl, Hhd.
  assert (x ∉ mjoin (scope_decls <$> pre)) as Hfree.
  { intros (names & Hin & Hn)%list_elem_of_join.
    apply list_elem_of_fmap in Hn as (s & -> & Hs).
    rewrite Forall_forall in Hpre. by apply (Hpre s). }
  specialize (Hhd x Hfree).
  change (symtab (body_entry a rt ps)) with ((∅ : SymbolTable.Scope) :: symtab ap)
    in Hlen, Htl, Hhd.
  destruct (symtab a1) as [|bs rest] eqn:E1; [simpl in Hlen; lia|].
  simpl in Htl, Hhd.
  destruct (symtab ap) as [|psc outer] eqn:Ep; [by destruct Hparam|].
  simpl in Hparam. subst rest.
  assert (bs !! x = None) as Hbs by (by rewrite Hhd).
  assert (define a1 x ty
          = (with_symtab a1 (<[x := SymbolTable.mkSymbol x ty]> bs :: psc :: outer),
             true)) as Hdef.
  { unfold define, SymbolTable.define. rewrite E1.
    unfold SymbolTable.Scope_define, SymbolTable.Scope in *. by rewrite Hbs. }
  split; [by exists bs, psc, outer|].
  split; [by rewrite Hdef|].
  split.
  { rewrite Hdef. simpl. unfold SymbolTable.Scope. by rewrite lookup_insert_eq. }
  unfold visit_function, visit_block, visit_block_with.
  rewrite map_accum_app. fold ap.
  change (push_scope ap) with (body_entry a rt ps).
  change (map_accum (block_item visit_stmt) (body_entry a rt ps) pre)
    with (items (body_entry a rt ps) pre).
  destruct (items (body_entry a rt ps) pre) as [a1' pre'] eqn:Epre.
  subst a1. cbn [fst] in *. cbn [map_accum block_item visit_stmt].
  unfold visit_vardecl. rewrite Hdef. cbn [negb].
  destruct (visit_init _ ty x init l c) as [a2 decl'].
  change (map_accum (block_item visit_stmt) a2 post) with (items a2 post).
  by destruct (items a2 post) as [a3 post'].
Qed.

(** [int f(int a) { int a = 1; return a; }] *)
Definition shadowing_function : Program :=
  mkProgram
    [FunctionDecl "int" "f" [mkParam "int" "a"]
       [VarDecl "int" "a" (Some (Literal (LInt 1) "int" None)) 1 16;
        Return (Some (Var "a" 1 34 None))]].

(** C5, as stated, fails: the body of [f] declares a variable with the
    name of the parameter [a], and the analysis reports nothing. *)
Lemma shadowing_function_errors :
  result_errors (analyze shadowing_function) = [].
Proof. reflexivity. Qed.

Lemma body_declaration_shadows_parameter_witness :
  "a" ∈ pname <$> [mkParam "int" "a"]
  /\ (define (items (body_entry new "int" [mkParam "int" "a"]) []).1 "a" "int").2
     = true.
Proof.
  assert ("a" ∈ pname <$> [mkParam "int" "a"]) as H by (simpl; set_solver).
  split; [exact H|].
  apply (body_declaration_shadows_parameter new "int" "f" [mkParam "int" "a"]
           [] "int" "a" None 1 16 [] H (Forall_nil_2 _)).
Defined.

(** The scopes in front of a declaration of the body. *)
Lemma body_define a rt ps pre ty x :
  x ∈ pname <$> ps ->
  Forall (fun s => x ∉ scope_decls s) pre ->
  exists block_scope param_scope outer,
    symtab (items (body_entry a rt ps) pre).1 = block_scope :: param_scope :: outer
    /\ block_scope !! x = None
    /\ is_Some (param_scope !! x)
    /\ define (items (body_entry a rt ps) pre).1 x ty
       = (with_symtab (items (body_entry a rt ps) pre).1
            (<[x := SymbolTable.mkSymbol x ty]> block_scope :: param_scope :: outer),
          true).
Proof.
  intros Hx Hpre. set (a1 := (items (body_entry a rt ps) pre).1).
  set (ap := define_params (push_scope (with_ret a (Some rt))) ps).
  assert (is_Some (hd (∅ : SymbolTable.Scope) (symtab ap) !! x)) as Hparam.
  { apply define_params_defined; [done|by left]. }
  pose proof (items_scoped pre (body_entry a rt ps)) as (Hlen & Htl & Hhd & _).
  fold a1 in Hlen, Htl, Hhd.
  assert (x ∉ mjoin (scope_decls <$> pre)) as Hfree.
  { intros (names & Hin & Hn)%list_elem_of_join.
    apply list_elem_of_fmap in Hn as (s & -> & Hs).
    rewrite Forall_forall in Hpre. by apply (Hpre s). }
  specialize (Hhd x Hfree).
  change (symtab (body_entry a rt ps)) with ((∅ : SymbolTable.Scope) :: symtab ap)
    in Hlen, Htl, Hhd.
  destruct (symtab a1) as [|bs rest] eqn:E1; [simpl in Hlen; lia|].
  simpl in Htl, Hhd.
  destruct (symtab ap) as [|psc outer] eqn:Ep; [by destruct Hparam|].
  simpl in Hparam. subst rest.
  assert (bs !! x = None) as Hbs by (by rewrite Hhd).
  exists bs, psc, outer. split; [done|]. split; [done|]. split; [done|].
  unfold define, SymbolTable.define. rewrite E1.
  unfold SymbolTable.Scope_define, SymbolTable.Scope in *. by rewrite Hbs.
Qed.

(** C5, amended.  The parameters are not defined in the scope of the
    body: [visit_function] pushes a scope for them and [visit_block]
    pushes a further one for the body.  In front of a declaration at
    the top level of the body that bears the name [x] of a parameter,
    and is the first of that name in the block, the scope of the block
    does not hold [x], and [x] resolves to the parameter.  The visit of
    the declaration is its [define], which succeeds and adds no
    diagnostic, followed by the visit of the initializer: no
    redeclaration is reported, and from there on [x] is the new
    variable.  The last part says that this is how [visit_function]
    goes through such a body. *)
Theorem parameter_shadowed_without_diagnostic
    (a : SemanticAnalyzer) rt f ps pre ty x init l c post :
  x ∈ pname <$> ps ->
  Forall (fun s => x ∉ scope_decls s) pre ->
  let a1 := (items (body_entry a rt ps) pre).1 in
  (exists block_scope param_scope outer,
      symtab a1 = block_scope :: param_scope :: outer
      /\ block_scope !! x = None
      /\ SymbolTable.resolve (symtab a1) x = param_scope !! x
      /\ is_Some (param_scope !! x))
  /\ visit_stmt a1 (VarDecl ty x init l c)
     = visit_init (define a1 x ty).1 ty x init l c
  /\ errors (define a1 x ty).1 = errors a1
  /\ SymbolTable.resolve (symtab (define a1 x ty).1) x
     = Some (SymbolTable.mkSymbol x ty)
  /\ visit_function a rt f ps (pre ++ VarDecl ty x init l c :: post)
     = (let '(a1, pre') := items (body_entry a rt ps) pre in
        let '(a2, decl') := visit_stmt a1 (VarDecl ty x init l c) in
        let '(a3, post') := items a2 post in
        (with_ret (pop_scope (pop_scope a3)) (current_ret a),
         FunctionDecl rt f ps (pre' ++ decl' :: post'))).
Proof.
  intros Hx Hpre a1.
  destruct (body_define a rt ps pre ty x Hx Hpre)
    as (bs & psc & outer & E1 & Hbs & Hp & Hdef).
  fold a1 in E1, Hdef.
  split.
  { exists bs, psc, outer. split; [done|]. split; [done|]. split; [|done].
    rewrite E1. cbn. unfold SymbolTable.Scope in *. rewrite Hbs.
    by destruct Hp as [sym ->]. }
  split.
  { cbn [visit_stmt]. unfold visit_vardecl. by rewrite Hdef. }
  split; [by rewrite Hdef|].
  split.
  { rewrite Hdef. cbn. unfold SymbolTable.Scope. by rewrite lookup_insert_eq. }
  unfold visit_function, visit_block, visit_block_with.
  rewrite map_accum_app.
  change (push_scope (define_params (push_scope (with_ret a (Some rt))) ps))
    with (body_entry a rt ps).
  change (map_accum (block_item visit_stmt) (body_entry a rt ps) pre)
    with (items (body_entry a rt ps) pre).
  destruct (items (body_entry a rt ps) pre) as [a1' pre'] eqn:Epre.
  cbn [map_accum block_item].
  destruct (visit_stmt a1' (VarDecl ty x init l c)) as [a2 decl'].
  change (map_accum (block_item visit_stmt) a2 post) with (items a2 post).
  by destruct (items a2 post) as [a3 post'].
Qed.

Lemma parameter_shadowed_without_diagnostic_witness :
  "a" ∈ pname <$> [mkParam "int" "a"]
  /\ visit_stmt (items (body_entry new "int" [mkParam "int" "a"]) []).1
       (VarDecl "int" "a" (Some (Literal (LInt 1) "int" None)) 1 16)
     = visit_init
         (define (items (body_entry new "int" [mkParam "int" "a"]) []).1
            "a" "int").1
         "int" "a" (Some (Literal (LInt 1) "int" None)) 1 16
  /\ errors (define (items (body_entry new "int" [mkParam "int" "a"]) []).1
               "a" "int").1 = []
  /\ errors (visit_function new "int" "f" [mkParam "int" "a"]
               ([] ++ VarDecl "int" "a" (Some (Literal (LInt 1) "int" None)) 1 16
                   :: [Return (Some (Var "a" 1 34 None))])).1 = [].
Proof.
  assert ("a" ∈ pname <$> [mkParam "int" "a"]) as H by (simpl; set_solver).
  split; [exact H|].
  destruct (parameter_shadowed_without_diagnostic new "int" "f"
              [mkParam "int" "a"] [] "int" "a"
              (Some (Literal (LInt 1) "int" None)) 1 16
              [Return (Some (Var "a" 1 34 None))]
              H (Forall_nil_2 _)) as (_ & H1 & H2 & _ & H3).
  split; [exact H1|]. split; [exact H2|]. rewrite H3. reflexivity.
Defined.

(** *** Inferred types *)

Section Typed.
(** The type names that count: all of them, or the five of the language. *)
Variable ok : string -> bool.
Hypothesis ok_error : ok ERROR = true.
Hypothesis ok_bool : ok BOOL = true.
Hypothesis ok_int : ok INT = true.
Hypothesis ok_float : ok FLOAT = true.

Definition slot_ok (t : option string) : bool :=
  match t with
  | Some t => ok t
  | None => false
  end.

(** Every node of the expression carries an inferred type that counts. *)
Fixpoint all_typed (e : Expr) : bool :=
  match e with
  | Assign _ v _ _ t => slot_ok t && all_typed v
  | Call _ args _ _ t => slot_ok t && forallb all_typed args
  | Literal _ _ t => slot_ok t
  | Var _ _ _ t => slot_ok t
  | Unary _ r t => slot_ok t && all_typed r
  | Binary x _ y t => slot_ok t && all_typed x && all_typed y
  | Grouping e' t => slot_ok t && all_typed e'
  end.

Definition opt_typed (o : option Expr) : bool :=
  match o with
  | Some e => all_typed e
  | None => true
  end.

(** The same of every expression of a statement. *)
Fixpoint stmt_typed (s : Stmt) : bool :=
  match s with
  | FunctionDecl _ _ _ b => forallb stmt_typed b
  | Block ss => forallb stmt_typed ss
  | VarDecl _ _ i _ _ => opt_typed i
  | If c t e =>
      all_typed c && stmt_typed t
      && match e with Some s' => stmt_typed s' | None => true end
  | While c b => all_typed c && stmt_typed b
  | For i c p b =>
      match i with Some s' => stmt_typed s' | None => true end
      && opt_typed c
      && match p with Some s' => stmt_typed s' | None => true end
      && stmt_typed b
  | Print e => all_typed e
  | Return e => opt_typed e
  | ExprStmt e => all_typed e
  end.

(** What the analysis needs of an expression: literal kinds that count,
    and no call with more arguments than its signature has parameters
    (the loop over [zip(sig.params, node.args)] stops at the shorter
    list and leaves the surplus arguments unvisited). *)
Fixpoint expr_ok (F : gmap string FuncSig) (e : Expr) : bool :=
  match e with
  | Assign _ v _ _ _ => expr_ok F v
  | Call n args _ _ _ =>
      match F !! n with
      | Some sig => (length args <=? length (params sig))%nat
      | None => true
      end
      && forallb (expr_ok F) args
  | Literal _ k _ => ok k
  | Var _ _ _ _ => true
  | Unary _ r _ => expr_ok F r
  | Binary x _ y _ => expr_ok F x && expr_ok F y
  | Grouping e' _ => expr_ok F e'
  end.

Definition opt_ok (F : gmap string FuncSig) (o : option Expr) : bool :=
  match o with
  | Some e => expr_ok F e
  | None => true
  end.

(** ... and of a statement below the top level: declared types that
    count, and no function declaration ([visit_block] rejects it and
    [visit_stmt] skips it, so its body is not analysed). *)
Fixpoint stmt_ok (F : gmap string FuncSig) (s : Stmt) : bool :=
  match s with
  | FunctionDecl _ _ _ _ => false
  | Block ss => forallb (stmt_ok F) ss
  | VarDecl ty _ i _ _ => ok ty && opt_ok F i
  | If c t e =>
      expr_ok F c && stmt_ok F t
      && match e with Some s' => stmt_ok F s' | None => true end
  | While c b => expr_ok F c && stmt_ok F b
  | For i c p b =>
      match i with Some s' => stmt_ok F s' | None => true end
      && opt_ok F c
      && match p with Some s' => stmt_ok F s' | None => true end
      && stmt_ok F b
  | Print e => expr_ok F e
  | Return e => opt_ok F e
  | ExprStmt e => expr_ok F e
  end.

Definition top_ok (F : gmap string FuncSig) (s : Stmt) : bool :=
  match s with
  | FunctionDecl rt _ ps b =>
      ok rt && forallb (fun p => ok (ptype p)) ps && forallb (stmt_ok F) b
  | _ => stmt_ok F s
  end.

(** The signatures [visit_program] collects before it visits. *)
Definition signatures (p : Program) : gmap string FuncSig :=
  funcs (collect_signatures new (body p)).

Definition program_ok (p : Program) : bool :=
  forallb (top_ok (signatures p)) (body p).

(** The types in the scopes and the return types of the signatures count. *)
Definition state_ok (a : SemanticAnalyzer) : Prop :=
  Forall (map_Forall (fun _ sym => ok (SymbolTable.type sym) = true)) (symtab a)
  /\ map_Forall (fun _ sig => ok (ret sig) = true) (funcs a).

Lemma state_ok_same a a' : same_env a a' -> state_ok a -> state_ok a'.
Proof. intros (Hs & Hf & _) [H1 H2]. unfold state_ok. by rewrite Hs, Hf. Qed.

Lemma state_ok_push a : state_ok a -> state_ok (push_scope a).
Proof.
  intros [H1 H2]. split; [|done]. constructor; [|done]. apply map_Forall_empty.
Qed.

Lemma state_ok_pop a : state_ok a -> state_ok (pop_scope a).
Proof.
  intros [H1 H2]. split; [|done]. simpl.
  destruct (symtab a); [done|]. by apply Forall_cons in H1 as [_ H1].
Qed.

Lemma state_ok_with_ret a r : state_ok a -> state_ok (with_ret a r).
Proof. done. Qed.

Lemma state_ok_define a name type_ :
  ok type_ = true -> state_ok a -> state_ok (define a name type_).1.
Proof.
  intros Ht [H1 H2]. unfold define, SymbolTable.define.
  destruct (symtab a) as [|cur parents]; [done|].
  apply Forall_cons in H1 as [Hc Hp].
  unfold SymbolTable.Scope_define, SymbolTable.Scope in *.
  destruct (cur !! name); (split; [|done]); simpl.
  - by constructor.
  - constructor; [|done]. by apply map_Forall_insert_2.
Qed.

Lemma resolve_ok a x sym :
  state_ok a -> SymbolTable.resolve (symtab a) x = Some sym ->
  ok (SymbolTable.type sym) = true.
Proof.
  intros [H1 _]. unfold SymbolTable.resolve.
  induction H1 as [|scope scopes Hs _ IH]; [done|]. simpl.
  unfold SymbolTable.Scope in *.
  destruct (scope !! x) as [sym'|] eqn:E; [|done].
  intros [= <-]. by apply (Hs x).
Qed.

(** What the visit of an expression yields: a tree typed all over, with
    the returned type stored at its root. *)
Definition typed_result (r : SemanticAnalyzer * Expr * string) : Prop :=
  all_typed r.1.2 = true /\ inferred_type r.1.2 = Some r.2 /\ ok r.2 = true.

Lemma typed_result_intro a e t :
  all_typed e = true -> inferred_type e = Some t -> ok t = true ->
  typed_result (a, e, t).
Proof. done. Qed.

Lemma visit_args_typed (args : list Expr) : forall a,
  Forall (fun e => forall a, state_ok a -> expr_ok (funcs a) e = true ->
                             typed_result (visit_expr a e)) args ->
  state_ok a -> forallb (expr_ok (funcs a)) args = true ->
  forallb all_typed
    (map_accum (fun a x => let '(a', x', _) := visit_expr a x in (a', x'))
               a args).2 = true.
Proof.
  induction args as [|x args IH]; intros a Hall Ha Hok; [done|].
  apply Forall_cons in Hall as [Hx Hall].
  cbn [forallb] in Hok. apply andb_true_iff in Hok as [Hokx Hok].
  cbn [map_accum].
  specialize (Hx a Ha Hokx). pose proof (visit_expr_same x a) as Hs.
  destruct (visit_expr a x) as [[a1 x'] t]. destruct Hx as (Hx & _).
  cbn [fst snd] in *.
  specialize (IH a1 Hall (state_ok_same _ _ Hs Ha)).
  destruct Hs as (_ & Hf & _). rewrite Hf in IH. specialize (IH Hok).
  destruct (map_accum _ a1 args) as [a2 args']. cbn [snd forallb] in *.
  by rewrite Hx, IH.
Qed.

Lemma visit_zip_typed (args : list Expr) : forall a ps line col name,
  Forall (fun e => forall a, state_ok a -> expr_ok (funcs a) e = true ->
                             typed_result (visit_expr a e)) args ->
  state_ok a -> forallb (expr_ok (funcs a)) args = true ->
  length args <= length ps ->
  forallb all_typed
    (zip_accum
       (fun a (p : string * string) arg =>
          let '(a', arg', at_) := visit_expr a arg in
          (if negb (assignable p.1 at_)
           then err a' line col
                  ("Argument type " +:+ at_
                   +:+ " incompatible with parameter " +:+ p.1
                   +:+ " in call to '" +:+ name +:+ "'")
           else a',
           arg'))
       a ps args).2 = true.
Proof.
  induction args as [|x args IH]; intros a ps line col name Hall Ha Hok Hlen;
    [done|].
  apply Forall_cons in Hall as [Hx Hall].
  cbn [forallb] in Hok. apply andb_true_iff in Hok as [Hokx Hok].
  destruct ps as [|p ps]; [simpl in Hlen; lia|].
  cbn [zip_accum].
  specialize (Hx a Ha Hokx). pose proof (visit_expr_same x a) as Hs.
  destruct (visit_expr a x) as [[a1 x'] t]. destruct Hx as (Hx & _).
  cbn [fst snd] in *.
  set (a1' := if negb _ then _ else a1).
  assert (same_env a a1') as Hs'.
  { subst a1'. destruct (negb _); [|done].
    exact (same_env_trans _ _ _ Hs (same_env_err _ _ _ _)). }
  specialize (IH a1' ps line col name Hall (state_ok_same _ _ Hs' Ha)).
  destruct Hs' as (_ & Hf & _). rewrite Hf in IH.
  specialize (IH Hok ltac:(simpl in Hlen; lia)).
  destruct (zip_accum _ a1' ps args) as [a2 args']. cbn [snd forallb] in *.
  by rewrite Hx, IH.
Qed.

Lemma visit_expr_typed e : forall a,
  state_ok a -> expr_ok (funcs a) e = true -> typed_result (visit_expr a e).
Proof.
  induction e as [n v l c t IH|n args l c t IH|v k t|n l c t|o r t IH
                  |x o y t IHx IHy|e t IH] using Expr_induct;
    intros a Ha Hok; cbn [visit_expr expr_ok] in *.
  - destruct (SymbolTable.resolve _ _) as [sym|] eqn:Hr.
    + specialize (IH a Ha Hok).
      destruct (visit_expr a v) as [[a1 v'] vt]. destruct IH as (IH & _).
      cbn [fst snd] in IH.
      destruct (negb _); apply typed_result_intro; cbn [all_typed slot_ok];
        rewrite ?IH, ?ok_error, ?(resolve_ok _ _ _ Ha Hr); done.
    + specialize (IH (err a l c ("Undeclared variable '" +:+ n +:+ "'"))
                    (state_ok_same _ _ (same_env_err _ _ _ _) Ha) Hok).
      destruct (visit_expr _ v) as [[a1 v'] vt]. destruct IH as (IH & _).
      cbn [fst snd] in IH.
      apply typed_result_intro; cbn [all_typed slot_ok];
        rewrite ?IH, ?ok_error; done.
  - apply andb_true_iff in Hok as [Hfit Hok].
    destruct (funcs a !! n) as [sig|] eqn:Hsig.
    + apply Nat.leb_le in Hfit.
      set (a0 := if negb _ then _ else a).
      assert (same_env a a0) as H0 by (subst a0; by destruct (negb _)).
      pose proof (visit_zip_typed args a0 (params sig) l c n IH
                    (state_ok_same _ _ H0 Ha)) as Hz.
      destruct H0 as (_ & Hf & _). rewrite Hf in Hz.
      specialize (Hz Hok Hfit).
      destruct (zip_accum _ a0 _ args) as [a1 args']. cbn [snd] in Hz.
      destruct Ha as [_ Hfs].
      apply typed_result_intro; cbn [all_typed slot_ok];
        rewrite ?Hz, ?(Hfs n sig Hsig); done.
    + pose proof (visit_args_typed args (err a l c
                    ("Call to undefined function '" +:+ n +:+ "'")) IH
                    (state_ok_same _ _ (same_env_err _ _ _ _) Ha) Hok) as Hz.
      destruct (map_accum _ _ args) as [a1 args']. cbn [snd] in Hz.
      apply typed_result_intro; cbn [all_typed slot_ok];
        rewrite ?Hz, ?ok_error; done.
  - by apply typed_result_intro.
  - destruct (SymbolTable.resolve _ _) as [sym|] eqn:Hr;
      apply typed_result_intro; cbn [all_typed slot_ok];
      rewrite ?ok_error, ?(resolve_ok _ _ _ Ha Hr); done.
  - specialize (IH a Ha Hok).
    destruct (visit_expr a r) as [[a1 r'] rt]. destruct IH as (IH & _ & Hrt).
    cbn [fst snd] in *.
    destruct (String.eqb o "!");
      [destruct (negb _)|destruct (in_list o _); [destruct (negb _)|]];
      apply typed_result_intro; cbn [all_typed slot_ok];
      rewrite ?IH, ?ok_error, ?ok_bool, ?Hrt; done.
  - apply andb_true_iff in Hok as [Hokx Hoky].
    specialize (IHx a Ha Hokx). pose proof (visit_expr_same x a) as Hs.
    destruct (visit_expr a x) as [[a1 x'] xt]. destruct IHx as (IHx & _).
    cbn [fst snd] in *.
    pose proof (state_ok_same _ _ Hs Ha) as Ha1.
    destruct Hs as (_ & Hf & _). rewrite <- Hf in Hoky.
    specialize (IHy a1 Ha1 Hoky).
    destruct (visit_expr a1 y) as [[a2 y'] yt]. destruct IHy as (IHy & _).
    cbn [fst snd] in *. cbv zeta.
    repeat match goal with
           | |- context [if ?b then _ else _] => destruct b
           end;
      apply typed_result_intro; cbn [all_typed slot_ok];
      rewrite ?IHx, ?IHy, ?ok_error, ?ok_bool, ?ok_int, ?ok_float; done.
  - specialize (IH a Ha Hok).
    destruct (visit_expr a e) as [[a1 e'] et]. destruct IH as (IH & _ & Het).
    cbn [fst snd] in *.
    apply typed_result_intro; cbn [all_typed slot_ok]; rewrite ?IH, ?Het; done.
Qed.

Lemma visit_cond_typed a cond msg :
  state_ok a -> expr_ok (funcs a) cond = true ->
  all_typed (visit_cond a cond msg).2 = true.
Proof.
  intros Ha Hok. unfold visit_cond.
  pose proof (visit_expr_typed cond a Ha Hok) as (H & _).
  by destruct (visit_expr a cond) as [[a1 c'] t].
Qed.

Lemma visit_init_typed a ty name init line col :
  state_ok a -> opt_ok (funcs a) init = true ->
  stmt_typed (visit_init a ty name init line col).2 = true.
Proof.
  intros Ha Hok. unfold visit_init. destruct init as [e|]; [|done].
  pose proof (visit_expr_typed e a Ha Hok) as (H & _).
  by destruct (visit_expr a e) as [[a1 e'] t].
Qed.

Lemma visit_return_typed a expr :
  state_ok a -> opt_ok (funcs a) expr = true ->
  stmt_typed (visit_return a expr).2 = true.
Proof.
  intros Ha Hok. unfold visit_return.
  destruct (current_ret a), expr as [e|]; try done;
    pose proof (visit_expr_typed e a Ha Hok) as (H & _);
    by destruct (visit_expr a e) as [[a1 e'] t].
Qed.

(** What the visit of a statement yields: typed expressions all over,
    and scopes whose types still count. *)
Definition stmt_result (a : SemanticAnalyzer) (r : SemanticAnalyzer * Stmt) : Prop :=
  stmt_typed r.2 = true /\ state_ok r.1 /\ funcs r.1 = funcs a.

Definition visits_typed (s : Stmt) : Prop :=
  forall a, state_ok a -> stmt_ok (funcs a) s = true ->
            stmt_result a (visit_stmt a s).

Lemma items_typed ss : forall a,
  Forall visits_typed ss ->
  state_ok a -> forallb (stmt_ok (funcs a)) ss = true ->
  forallb stmt_typed (items a ss).2 = true
  /\ state_ok (items a ss).1 /\ funcs (items a ss).1 = funcs a.
Proof.
  unfold items.
  induction ss as [|s ss IH]; intros a Hall Ha Hok; [done|].
  apply Forall_cons in Hall as [Hs Hall].
  cbn [forallb] in Hok. apply andb_true_iff in Hok as [Hoks Hok].
  cbn [map_accum].
  assert (block_item visit_stmt a s = visit_stmt a s) as ->
    by (by destruct s).
  destruct (Hs a Ha Hoks) as (H1 & H2 & H3).
  destruct (visit_stmt a s) as [a1 s']. cbn [fst snd] in *.
  rewrite <- H3 in Hok. destruct (IH a1 Hall H2 Hok) as (I1 & I2 & I3).
  destruct (map_accum _ a1 ss) as [a2 ss']. cbn [fst snd forallb] in *.
  rewrite H1, I1. split; [done|]. split; [done|congruence].
Qed.

Lemma visit_opt_stmt_typed o a :
  option_Forall visits_typed o ->
  state_ok a ->
  match o with Some s => stmt_ok (funcs a) s | None => true end = true ->
  match (visit_opt visit_stmt a o).2 with
  | Some s' => stmt_typed s'
  | None => true
  end = true
  /\ state_ok (visit_opt visit_stmt a o).1
  /\ funcs (visit_opt visit_stmt a o).1 = funcs a.
Proof.
  intros Ho Ha Hok. destruct o as [s|]; [|done]. cbn [visit_opt].
  destruct (Ho a Ha Hok) as (H1 & H2 & H3).
  by destruct (visit_stmt a s) as [a1 s'].
Qed.

Lemma visit_stmt_typed s : visits_typed s.
Proof.
  induction s as [rt n ps b IH|ss IH|t n i l c|c t e IHt IHe|c b IH
                  |i c p b IHi IHp IHb|e|e|e] using Stmt_induct;
    intros a Ha Hok; unfold stmt_result; cbn [visit_stmt stmt_ok] in *.
  - done.
  - unfold visit_block_with.
    destruct (items_typed ss (push_scope a) IH (state_ok_push _ Ha) Hok)
      as (H1 & H2 & H3).
    fold items. destruct (items (push_scope a) ss) as [a1 ss'].
    cbn [fst snd] in *. split; [done|]. split; [by apply state_ok_pop|done].
  - apply andb_true_iff in Hok as [Hty Hi]. unfold visit_vardecl.
    pose proof (state_ok_define a n t Hty Ha) as Hd.
    pose proof (define_scoped a n t) as (_ & _ & _ & Hf & _).
    destruct (define a n t) as [a1 okd]. cbn [fst] in *.
    set (a1' := if negb okd then _ else a1).
    assert (same_env a1 a1') as Hs by (subst a1'; by destruct (negb okd)).
    pose proof (state_ok_same _ _ Hs Hd) as Hd'.
    assert (funcs a1' = funcs a) as Hf'
      by (destruct Hs as (_ & -> & _); done).
    rewrite <- Hf' in Hi.
    pose proof (visit_init_typed a1' t n i l c Hd' Hi) as Ht.
    pose proof (visit_init_same a1' t n i l c) as Hs2.
    destruct (visit_init a1' t n i l c) as [a2 s']. cbn [fst snd] in *.
    split; [done|]. split; [by eapply state_ok_same|].
    destruct Hs2 as (_ & -> & _). done.
  - apply andb_true_iff in Hok as [Hok He].
    apply andb_true_iff in Hok as [Hc Ht].
    pose proof (visit_cond_typed a c "if condition must be bool" Ha Hc) as Tc.
    pose proof (visit_cond_same a c "if condition must be bool") as Sc.
    destruct (visit_cond a c _) as [a1 c']. cbn [fst snd] in *.
    pose proof (state_ok_same _ _ Sc Ha) as Ha1.
    destruct Sc as (_ & Hf1 & _). rewrite <- Hf1 in Ht, He.
    destruct (IHt a1 Ha1 Ht) as (T1 & T2 & T3).
    destruct (visit_stmt a1 t) as [a2 t']. cbn [fst snd] in *.
    rewrite <- T3 in He.
    destruct (visit_opt_stmt_typed e a2 IHe T2 He) as (E1 & E2 & E3).
    destruct (visit_opt visit_stmt a2 e) as [a3 e']. cbn [fst snd] in *.
    split; [cbn [stmt_typed]; by rewrite Tc, T1, E1|].
    split; [done|congruence].
  - apply andb_true_iff in Hok as [Hc Hb].
    pose proof (visit_cond_typed a c "while condition must be bool" Ha Hc) as Tc.
    pose proof (visit_cond_same a c "while condition must be bool") as Sc.
    destruct (visit_cond a c _) as [a1 c']. cbn [fst snd] in *.
    pose proof (state_ok_same _ _ Sc Ha) as Ha1.
    destruct Sc as (_ & Hf1 & _). rewrite <- Hf1 in Hb.
    destruct (IH a1 Ha1 Hb) as (T1 & T2 & T3).
    destruct (visit_stmt a1 b) as [a2 b']. cbn [fst snd] in *.
    split; [cbn [stmt_typed]; by rewrite Tc, T1|].
    split; [done|congruence].
  - apply andb_true_iff in Hok as [Hok Hb].
    apply andb_true_iff in Hok as [Hok Hp].
    apply andb_true_iff in Hok as [Hi Hc].
    destruct (visit_opt_stmt_typed i (push_scope a) IHi (state_ok_push _ Ha) Hi)
      as (I1 & I2 & I3).
    destruct (visit_opt visit_stmt (push_scope a) i) as [a1 i'].
    cbn [fst snd] in *. change (funcs (push_scope a)) with (funcs a) in I3.
    assert (opt_typed (visit_opt (fun a c => visit_cond a c "for condition must be bool")
                         a1 c).2 = true
            /\ same_env a1 (visit_opt (fun a c => visit_cond a c "for condition must be bool")
                              a1 c).1) as [C1 C2].
    { destruct c as [c0|]; [|done]. cbn [visit_opt opt_ok] in *.
      rewrite <- I3 in Hc.
      pose proof (visit_cond_typed a1 c0 "for condition must be bool" I2 Hc).
      pose proof (visit_cond_same a1 c0 "for condition must be bool").
      by destruct (visit_cond a1 c0 _). }
    destruct (visit_opt _ a1 c) as [a2 c']. cbn [fst snd] in *.
    pose proof (state_ok_same _ _ C2 I2) as Ha2.
    destruct C2 as (_ & Hf2 & _).
    assert (funcs a2 = funcs a) as Hfa2 by congruence.
    rewrite <- Hfa2 in Hp, Hb.
    destruct (visit_opt_stmt_typed p a2 IHp Ha2 Hp) as (P1 & P2 & P3).
    destruct (visit_opt visit_stmt a2 p) as [a3 p']. cbn [fst snd] in *.
    rewrite <- P3 in Hb.
    destruct (IHb a3 P2 Hb) as (B1 & B2 & B3).
    destruct (visit_stmt a3 b) as [a4 b']. cbn [fst snd] in *.
    split; [cbn [stmt_typed]; by rewrite I1, C1, P1, B1|].
    split; [by apply state_ok_pop|]. simpl. congruence.
  - pose proof (visit_expr_typed e a Ha Hok) as (H & _).
    pose proof (visit_expr_same e a) as Hs.
    destruct (visit_expr a e) as [[a1 e'] t]. cbn [fst snd] in *.
    split; [done|]. split; [by eapply state_ok_same|by destruct Hs as (_ & -> & _)].
  - pose proof (visit_return_typed a e Ha Hok) as H.
    pose proof (visit_return_same a e) as Hs.
    destruct (visit_return a e) as [a1 s']. cbn [fst snd] in *.
    split; [done|]. split; [by eapply state_ok_same|by destruct Hs as (_ & -> & _)].
  - pose proof (visit_expr_typed e a Ha Hok) as (H & _).
    pose proof (visit_expr_same e a) as Hs.
    destruct (visit_expr a e) as [[a1 e'] t]. cbn [fst snd] in *.
    split; [done|]. split; [by eapply state_ok_same|by destruct Hs as (_ & -> & _)].
Qed.

Lemma define_params_ok ps : forall a,
  forallb (fun p => ok (ptype p)) ps = true -> state_ok a ->
  state_ok (define_params a ps).
Proof.
  unfold define_params.
  induction ps as [|p ps IH]; intros a Hps Ha; [done|].
  cbn [forallb] in Hps. apply andb_true_iff in Hps as [Hp Hps].
  cbn [fold_left].
  pose proof (state_ok_define a (pname p) (ptype p) Hp Ha) as Hd.
  destruct (define a (pname p) (ptype p)) as [a1 okd]. cbn [fst] in Hd.
  apply IH; [done|]. by destruct (negb okd).
Qed.

Lemma visit_top_typed a s :
  state_ok a -> top_ok (funcs a) s = true -> stmt_result a (visit_top a s).
Proof.
  intros Ha Hok.
  destruct s as [rt n ps b| | | | | | | |];
    try (by apply visit_stmt_typed).
  unfold stmt_result. cbn [visit_top top_ok] in *.
  apply andb_true_iff in Hok as [Hok Hb].
  apply andb_true_iff in Hok as [Hrt Hps].
  pose proof (visit_function_same a rt n ps b) as Hsame.
  unfold visit_function, visit_block, visit_block_with in *.
  set (ap := define_params (push_scope (with_ret a (Some rt))) ps) in *.
  assert (state_ok ap) as Hap.
  { apply define_params_ok; [done|]. by apply state_ok_push. }
  assert (funcs ap = funcs a) as Hfp.
  { pose proof (define_params_scoped (push_scope (with_ret a (Some rt))) ps)
      as (_ & _ & _ & Hf & _). done. }
  rewrite <- Hfp in Hb.
  destruct (items_typed b (push_scope ap)
              ltac:(apply Forall_forall; intros; apply visit_stmt_typed)
              (state_ok_push _ Hap) Hb) as (H1 & H2 & H3).
  fold items in Hsame |- *.
  destruct (items (push_scope ap) b) as [a1 b']. cbn [fst snd] in *.
  split; [done|]. split.
  - apply state_ok_with_ret. by do 2 apply state_ok_pop.
  - by destruct Hsame as (_ & -> & _).
Qed.

Lemma visit_tops_typed l : forall a,
  state_ok a -> forallb (top_ok (funcs a)) l = true ->
  forallb stmt_typed (map_accum visit_top a l).2 = true.
Proof.
  induction l as [|s l IH]; intros a Ha Hok; [done|].
  cbn [forallb] in Hok. apply andb_true_iff in Hok as [Hs Hok].
  cbn [map_accum].
  destruct (visit_top_typed a s Ha Hs) as (H1 & H2 & H3).
  destruct (visit_top a s) as [a1 s']. cbn [fst snd] in *.
  rewrite <- H3 in Hok. specialize (IH a1 H2 Hok).
  destruct (map_accum visit_top a1 l) as [a2 l']. cbn [snd forallb] in *.
  by rewrite H1, IH.
Qed.

Lemma collect_signatures_ok l : forall a F,
  forallb (top_ok F) l = true -> state_ok a ->
  state_ok (collect_signatures a l).
Proof.
  unfold collect_signatures.
  induction l as [|s l IH]; intros a F Hok Ha; [done|].
  cbn [forallb] in Hok. apply andb_true_iff in Hok as [Hs Hok].
  cbn [fold_left]. apply (IH _ F Hok).
  destruct s as [rt n ps b| | | | | | | |]; try done.
  destruct (funcs a !! n) eqn:Hn; [done|].
  cbn [top_ok] in Hs. apply andb_true_iff in Hs as [Hs _].
  apply andb_true_iff in Hs as [Hrt _].
  destruct Ha as [H1 H2]. split; [done|]. simpl.
  by apply map_Forall_insert_2.
Qed.

(** Under those conditions the analysis types every expression of the
    program. *)
Lemma analyze_typed_gen (p : Program) :
  program_ok p = true ->
  forallb stmt_typed (body (typed_root (analyze p))) = true.
Proof.
  intros Hp. unfold program_ok, signatures in Hp.
  unfold analyze, visit_program.
  assert (state_ok new) as Hnew.
  { split; [repeat constructor; apply map_Forall_empty|apply map_Forall_empty]. }
  pose proof (collect_signatures_ok (body p) new _ Hp Hnew) as Hc.
  pose proof (visit_tops_typed (body p) _ Hc Hp) as H.
  by destruct (map_accum visit_top _ (body p)) as [a1 body'].
Qed.

End Typed.

(** The five type names of the analysis. *)
Definition known_type (t : string) : bool :=
  in_list t [BOOL; INT; FLOAT; VOID; ERROR].

(** A program with a call of surplus arguments: [f] takes one
    parameter and is called with two. *)
Definition surplus_argument : Program :=
  mkProgram
    [FunctionDecl "int" "f" [mkParam "int" "a"]
       [Return (Some (Var "a" 1 20 None))];
     ExprStmt (Call "f" [Literal (LInt 1) "int" None;
                         Literal (LInt 2) "int" None] 2 1 None)].

(** The analysis leaves the second argument without a type. *)
Example surplus_argument_untyped :
  forallb (stmt_typed (fun _ => true))
    (body (typed_root (analyze surplus_argument))) = false.
Proof. reflexivity. Qed.

(** X3.  When no function is declared below the top level and no call
    has more arguments than the signature of its callee has parameters,
    the analysis leaves no expression of the program without an
    inferred type. *)
Theorem analyze_infers_every_type (p : Program) :
  program_ok (fun _ => true) p = true ->
  forallb (stmt_typed (fun _ => true)) (body (typed_root (analyze p))) = true.
Proof. by apply analyze_typed_gen. Qed.

Lemma analyze_infers_every_type_witness :
  program_ok (fun _ => true) shadowing_function = true
  /\ forallb (stmt_typed (fun _ => true))
       (body (typed_root (analyze shadowing_function))) = true.
Proof.
  assert (program_ok (fun _ => true) shadowing_function = true) as H
    by reflexivity.
  split; [exact H|]. exact (analyze_infers_every_type shadowing_function H).
Defined.

(** X4.  When moreover the declared types and the literal kinds of the
    program are among the five type names, so is every type the
    analysis infers. *)
Theorem analyze_infers_known_types (p : Program) :
  program_ok known_type p = true ->
  forallb (stmt_typed known_type) (body (typed_root (analyze p))) = true.
Proof. by apply analyze_typed_gen. Qed.

Lemma analyze_infers_known_types_witness :
  program_ok known_type two_globals = true
  /\ forallb (stmt_typed known_type)
       (body (typed_root (analyze two_globals))) = true.
Proof.
  assert (program_ok known_type two_globals = true) as H by reflexivity.
  split; [exact H|]. exact (analyze_infers_known_types two_globals H).
Defined.

(** *** The typed projection of a declaration *)

(** [int x = 1; print(x);], as the parser builds it. *)
Definition declared_and_printed : Program :=
  mkProgram [VarDecl "int" "x" (Some (Literal (LInt 1) "int" None)) 1 1;
             Print (Var "x" 1 18 None)].

(** C4.  The typed projection leaves an expression node without an
    inferred type.  [int x = 1; print(x);] is analysed without a
    diagnostic and the analysis gives the initializer [1] the type
    [int] in the typed tree; but [typed_ast_to_dict] has no case for
    [VarDecl], so in the projection the initializer is the plain
    [Literal] node of [ast_to_dict], with no [inferred] entry, while
    the operand of [print] has one. *)
Theorem typed_json_omits_initializer_type :
  result_errors (analyze declared_and_printed) = []
  /\ body (typed_root (analyze declared_and_printed))
     = [VarDecl "int" "x" (Some (Literal (LInt 1) "int" (Some "int"))) 1 1;
        Print (Var "x" 1 18 (Some "int"))]
  /\ typed_json (analyze declared_and_printed)
     = [("type", JStr "Program");
        ("body",
         JList
           [JDict
              [("type", JStr "VarDecl"); ("var_type", JStr "int");
               ("name", JStr "x");
               ("init",
                JDict
                  [("type", JStr "Literal"); ("value", JInt 1);
                   ("kind", JStr "int")]);
               ("line", JInt 1); ("col", JInt 1)];
            JDict
              [("type", JStr "Print");
               ("expr",
                JDict
                  [("type", JStr "Var"); ("name", JStr "x");
                   ("line", JInt 1); ("col", JInt 18);
                   ("inferred", JStr "int")])]])].
Proof. repeat split; reflexivity. Qed.

(** *** Diagnostics *)

(** [a'] holds the diagnostics of [a] and maybe more behind them. *)
Definition grows (a a' : SemanticAnalyzer) : Prop :=
  exists more, errors a' = errors a ++ more.

Lemma grows_refl a : grows a a.
Proof. exists []. by rewrite app_nil_r. Qed.

Lemma grows_trans a b c : grows a b -> grows b c -> grows a c.
Proof.
  intros [m1 H1] [m2 H2]. exists (m1 ++ m2). by rewrite H2, H1, app_assoc.
Qed.

Lemma grows_err a line col msg : grows a (err a line col msg).
Proof. by eexists. Qed.

Lemma grows_if_err (b : bool) a a' line col msg :
  grows a a' -> grows a (if b then err a' line col msg else a').
Proof.
  intros H. destruct b; [|done]. exact (grows_trans _ _ _ H (grows_err _ _ _ _)).
Qed.

Lemma visit_expr_errors e : forall a, grows a (visit_expr a e).1.1.
Proof.
  induction e as [n v l c t IH|n args l c t IH|v k t|n l c t|o r t IH
                  |x o y t IHx IHy|e t IH] using Expr_induct;
    intros a; cbn [visit_expr].
  - destruct (SymbolTable.resolve _ _) as [sym|].
    + specialize (IH a). destruct (visit_expr a v) as [[a1 v'] vt].
      destruct (negb _); [|exact IH].
      exact (grows_trans _ _ _ IH (grows_err _ _ _ _)).
    + specialize (IH (err a l c ("Undeclared variable '" +:+ n +:+ "'"))).
      destruct (visit_expr _ v) as [[a1 v'] vt].
      exact (grows_trans _ _ _ (grows_err _ _ _ _) IH).
  - destruct (funcs a !! n) as [sig|].
    + match goal with |- context [zip_accum ?f ?a0 ?ps args] =>
        pose proof (zip_accum_inv (grows a) f ps args a0) as Hz;
        destruct (zip_accum f a0 ps args) as [a1 args']
      end.
      apply Hz; [|destruct (negb (_ =? _)%nat);
                  [apply grows_err|apply grows_refl]]. clear Hz.
      eapply Forall_impl; [exact IH|]. intros x Hx st p Hst. cbv beta.
      specialize (Hx st). destruct (visit_expr st x) as [[a' x'] xt].
      cbn [fst snd] in *.
      apply grows_if_err. exact (grows_trans _ _ _ Hst Hx).
    + set (a0 := err a l c _).
      match goal with |- context [map_accum ?f a0 args] =>
        pose proof (map_accum_inv (grows a) f args a0) as Hz end.
      destruct (map_accum _ a0 args) as [a1 args'].
      apply Hz; [|subst a0; apply grows_err]. clear Hz.
      eapply Forall_impl; [exact IH|]. intros x Hx st Hst. cbv beta.
      specialize (Hx st). destruct (visit_expr st x) as [[a' x'] xt].
      exact (grows_trans _ _ _ Hst Hx).
  - apply grows_refl.
  - destruct (SymbolTable.resolve _ _); [apply grows_refl|apply grows_err].
  - specialize (IH a). destruct (visit_expr a r) as [[a1 r'] rt].
    cbn [fst] in IH.
    destruct (String.eqb o "!").
    { destruct (negb _); [|done].
      exact (grows_trans _ _ _ IH (grows_err _ _ _ _)). }
    destruct (in_list o _); [|done].
    destruct (negb _); [|done].
    exact (grows_trans _ _ _ IH (grows_err _ _ _ _)).
  - specialize (IHx a). destruct (visit_expr a x) as [[a1 x'] xt].
    specialize (IHy a1). destruct (visit_expr a1 y) as [[a2 y'] yt].
    cbn [fst] in *.
    pose proof (grows_trans _ _ _ IHx IHy) as H2. cbv zeta.
    repeat match goal with
           | |- context [if ?b then _ else _] => destruct b
           end;
      first [exact H2|exact (grows_trans _ _ _ H2 (grows_err _ _ _ _))].
  - specialize (IH a). by destruct (visit_expr a e) as [[a1 e'] et].
Qed.

(** *** Function signatures *)

(** The signature of the first declaration of [f] in the list. *)
Fixpoint first_sig (f : string) (l : list Stmt) : option FuncSig :=
  match l with
  | [] => None
  | FunctionDecl return_type name ps _ :: l' =>
      if String.eqb name f
      then Some (mkFuncSig return_type (map (fun p => (ptype p, pname p)) ps))
      else first_sig f l'
  | _ :: l' => first_sig f l'
  end.

Lemma collect_signatures_lookup l f : forall a,
  funcs (collect_signatures a l) !! f
  = match funcs a !! f with
    | Some sig => Some sig
    | None => first_sig f l
    end.
Proof.
  unfold collect_signatures.
  induction l as [|s l IH]; intros a; cbn [fold_left first_sig].
  { by destruct (funcs a !! f). }
  rewrite IH. destruct s as [rt n ps b| | | | | | | |]; try done.
  destruct (funcs a !! n) as [sig|] eqn:Hn; cbn [err funcs].
  - destruct (String.eqb_spec n f) as [->|Hne]; [by rewrite Hn|done].
  - destruct (String.eqb_spec n f) as [->|Hne].
    + by rewrite lookup_insert_eq, Hn.
    + by rewrite lookup_insert_ne.
Qed.

Lemma visit_top_funcs a s : funcs (visit_top a s).1 = funcs a.
Proof.
  destruct s as [rt n ps b| | | | | | | |].
  1: { cbn [visit_top]. by destruct (visit_function_same a rt n ps b) as (_ & -> & _). }
  all: match goal with |- funcs (visit_top ?a0 ?s).1 = _ =>
         by destruct (visit_stmt_scoped s a0) as (_ & _ & _ & Hf & _) end.
Qed.

Lemma visit_tops_funcs l : forall a, funcs (map_accum visit_top a l).1 = funcs a.
Proof.
  induction l as [|s l IH]; intros a; [done|]. cbn [map_accum].
  pose proof (visit_top_funcs a s) as H1.
  destruct (visit_top a s) as [a1 s']. cbn [fst] in H1.
  specialize (IH a1). destruct (map_accum visit_top a1 l). cbn [fst] in *.
  congruence.
Qed.

(** X8.  The table of functions of the result
    holds, for each name, the signature of the first top-level
    function of that name: a later one of the same name changes
    nothing in it, and neither does any visit. *)
Theorem analyze_func_table (p : Program) (f : string) :
  func_table (analyze p) !! f = first_sig f (body p).
Proof.
  unfold analyze, visit_program.
  pose proof (visit_tops_funcs (body p) (collect_signatures new (body p))) as H.
  destruct (map_accum visit_top _ (body p)) as [a1 body']. cbn [fst] in H.
  cbn [func_table]. rewrite H, collect_signatures_lookup. cbn [new funcs].
  by rewrite lookup_empty.
Qed.

(** *** The symbol table *)

(** X6.  [define] writes in the first scope
    alone and only where the name is free there: it answers whether
    it was, a name in use keeps its symbol and the table stays as it
    is, and afterwards the name resolves to the symbol of the first
    scope, hiding the scopes around; no other name resolves
    otherwise than before. *)
Theorem define_then_resolve (cur : gmap string SymbolTable.Symbol)
    (parents : list SymbolTable.Scope) (name type_ : string) :
  let st := cur :: parents in
  let r := SymbolTable.define st name type_ in
  r.2 = bool_decide (cur !! name = None)
  /\ (r.2 = false -> r.1 = st)
  /\ SymbolTable.resolve r.1 name
     = Some (default (SymbolTable.mkSymbol name type_) (cur !! name))
  /\ (forall y, y <> name -> SymbolTable.resolve r.1 y = SymbolTable.resolve st y)
  /\ tl r.1 = parents.
Proof.
  cbv zeta. unfold SymbolTable.define, SymbolTable.Scope_define, SymbolTable.resolve.
  unfold SymbolTable.Scope in *.
  destruct (cur !! name) as [sym|] eqn:Hc;
    cbn [fst snd SymbolTable.Scope_resolve tl]; unfold SymbolTable.Scope in *.
  - rewrite Hc. by repeat split.
  - rewrite lookup_insert_eq. split; [done|]. split; [done|]. split; [done|].
    split; [|done]. intros y Hy. by rewrite lookup_insert_ne.
Qed.

(** X7.  A declaration of a name that the
    current scope holds is reported as a redeclaration at its place,
    before anything its initializer gives rise to, and changes no
    scope: the name keeps the type of its first declaration. *)
Theorem redeclaration_reported (a : SemanticAnalyzer)
    (cur : gmap string SymbolTable.Symbol) (parents : list SymbolTable.Scope)
    (sym : SymbolTable.Symbol) (var_type name : string) (init : option Expr)
    (line col : nat) :
  symtab a = cur :: parents ->
  cur !! name = Some sym ->
  let a' := err a line col ("Redeclaration of '" +:+ name +:+ "'") in
  visit_vardecl a var_type name init line col
  = visit_init a' var_type name init line col
  /\ symtab (visit_vardecl a var_type name init line col).1 = symtab a
  /\ SymbolTable.resolve (symtab (visit_vardecl a var_type name init line col).1) name
     = Some sym
  /\ exists more,
       errors (visit_vardecl a var_type name init line col).1
       = errors a ++ mkParseError ("Redeclaration of '" +:+ name +:+ "'") line col
                  :: more.
Proof.
  intros Hst Hc a'.
  assert (visit_vardecl a var_type name init line col
          = visit_init a' var_type name init line col) as ->.
  { unfold visit_vardecl, define, SymbolTable.define, SymbolTable.Scope_define.
    rewrite Hst. unfold SymbolTable.Scope in *. rewrite Hc. cbn [negb].
    subst a'. unfold with_symtab, err. cbn. by rewrite <- Hst. }
  split; [done|].
  pose proof (visit_init_same a' var_type name init line col) as (Hs & _).
  rewrite Hs. subst a'. cbn [err symtab]. split; [done|]. split.
  - rewrite Hst. unfold SymbolTable.resolve. cbn [SymbolTable.Scope_resolve].
    unfold SymbolTable.Scope in *. by rewrite Hc.
  - unfold visit_init. destruct init as [e|].
    + pose proof (visit_expr_errors e (err a line col
                    ("Redeclaration of '" +:+ name +:+ "'"))) as [m Hm].
      destruct (visit_expr _ e) as [[a1 e'] t]. cbn [fst snd] in *.
      destruct (negb _); cbn [err errors]; rewrite Hm; cbn [err errors];
        rewrite <- !app_assoc; cbn [app]; by eexists.
    + exists []. done.
Qed.

Lemma redeclaration_reported_witness :
  symtab (define new "x" "int").1 = {["x" := SymbolTable.mkSymbol "x" "int"]} :: []
  /\ SymbolTable.resolve
       (symtab (visit_vardecl (define new "x" "int").1 "float" "x" None 2 1).1) "x"
     = Some (SymbolTable.mkSymbol "x" "int").
Proof.
  assert (symtab (define new "x" "int").1
          = {["x" := SymbolTable.mkSymbol "x" "int"]} :: []) as H by reflexivity.
  split; [exact H|].
  apply (redeclaration_reported (define new "x" "int").1
           {["x" := SymbolTable.mkSymbol "x" "int"]} []
           (SymbolTable.mkSymbol "x" "int") "float" "x" None 2 1 H).
  reflexivity.
Defined.

End Semantics_facts.

(** ** Facts about the IR builder *)

Module IR_facts.
Import Ast IR.

Section Builder.
Variable py_repr : float -> string.

(** Of a block only the first statement is lowered. *)
Lemma gen_stmt_block_cons b st rest :
  gen_stmt py_repr b (Block (st :: rest)) = gen_stmt py_repr b st.
Proof. reflexivity. Qed.

Lemma gen_stmt_block_nil b : gen_stmt py_repr b (Block []) = b.
Proof. reflexivity. Qed.

(** The same inside an [If]: the statements after the first one of the
    then-branch leave no trace in the IR. *)
Lemma gen_stmt_if_block b cond st rest else_branch :
  gen_stmt py_repr b (If cond (Block (st :: rest)) else_branch)
  = gen_stmt py_repr b (If cond (Block [st]) else_branch).
Proof. reflexivity. Qed.

End Builder.

(** [if (true) { print(1); print(2); }] after semantic analysis. *)
Definition if_two_prints : Program :=
  mkProgram
    [If (Literal (LBool true) "bool" (Some "bool"))
        (Block [Print (Literal (LInt 1) "int" (Some "int"));
                Print (Literal (LInt 2) "int" (Some "int"))])
        None].

(** C1 fails on the code: the then-branch holds two statements, and
    between [IfFalse] and [Goto] the IR holds the lowering of the first
    one only; [print 2] is emitted nowhere. *)
Theorem ir_gen_if_block_drops_statements :
  ir_gen dec_repr if_two_prints
  = [IfFalse "1" "Lelse1"; PrintInstr "1"; Goto "Lend2";
     Label "Lelse1"; Label "Lend2"].
Proof. reflexivity. Qed.

(** *** Label names *)

(** [str(n)] is made of digits. *)
Lemma pretty_N_char_digit x : Py.is_digit (pretty_N_char x) = true.
Proof. unfold pretty_N_char. by repeat case_match. Qed.

Lemma pretty_N_go_digits x : forall s,
  forallb Py.is_digit (list_ascii_of_string s) = true ->
  forallb Py.is_digit (list_ascii_of_string (pretty_N_go x s)) = true.
Proof.
  induction (N.lt_wf_0 x) as [x _ IH]; intros s Hs.
  assert (x = 0 \/ 0 < x)%N as [->|Hx] by lia; [by rewrite pretty_N_go_0|].
  rewrite pretty_N_go_step by done. apply IH.
  - by apply N.div_lt.
  - cbn [list_ascii_of_string forallb]. by rewrite pretty_N_char_digit, Hs.
Qed.

Lemma pretty_nat_digits (n : nat) :
  forallb Py.is_digit (list_ascii_of_string (pretty n)) = true.
Proof.
  unfold pretty, pretty_nat, pretty, pretty_N.
  destruct (decide (N.of_nat n = 0%N)); [done|]. by apply pretty_N_go_digits.
Qed.

(** A word that ends in a letter, then digits: the digits are read off
    the end. *)
Lemma digits_suffix_inj (b1 b2 d1 d2 : list ascii) :
  b1 ++ d1 = b2 ++ d2 ->
  forallb Py.is_digit d1 = true -> forallb Py.is_digit d2 = true ->
  (forall c, last b1 = Some c -> Py.is_digit c = false) ->
  (forall c, last b2 = Some c -> Py.is_digit c = false) ->
  d1 = d2.
Proof.
  intros Heq H1 H2 L1 L2.
  assert (forall (b b' d d' m : list ascii),
            b = b' ++ m -> d' = m ++ d ->
            forallb Py.is_digit d' = true ->
            (forall c, last b = Some c -> Py.is_digit c = false) ->
            m = []) as Hm.
  { intros b b' d d' m -> -> Hd Hl. destruct m as [|c m] using rev_ind; [done|].
    clear IHm. rewrite app_assoc, last_snoc in Hl.
    rewrite forallb_app in Hd.
    apply andb_true_iff in Hd as [Hd _]. rewrite forallb_app in Hd.
    apply andb_true_iff in Hd as [_ Hd]. cbn in Hd.
    rewrite (Hl c eq_refl) in Hd. done. }
  apply app_eq_app in Heq as [m [[Hb Hd]|[Hb Hd]]].
  - rewrite (Hm _ _ _ _ _ Hb Hd H2 L1) in Hd. by rewrite Hd.
  - rewrite (Hm _ _ _ _ _ Hb Hd H1 L2) in Hd. by rewrite Hd.
Qed.

(** The bases [gen_stmt] gives to [new_label]. *)
Definition label_bases : list string :=
  ["Lelse"; "Lend"; "Lwhile"; "Lwend"; "Lfor"; "Lfend"].

(** [x] is the label number [k]. *)
Definition named (x : string) (k : nat) : Prop :=
  exists base, base ∈ label_bases /\ x = base +:+ pretty k.

Lemma named_inj x k k' : named x k -> named x k' -> k = k'.
Proof.
  intros (b & Hb & ->) (b' & Hb' & Heq).
  apply (inj (pretty : nat -> string)).
  apply (f_equal list_ascii_of_string) in Heq.
  rewrite !Lexer_facts.list_ascii_of_string_app in Heq.
  apply (f_equal string_of_list_ascii) in Heq as Heq'. clear Heq'.
  rewrite <- (string_of_list_ascii_of_string (pretty k)),
          <- (string_of_list_ascii_of_string (pretty k')).
  f_equal.
  eapply digits_suffix_inj; [exact Heq|apply pretty_nat_digits..| |].
  - unfold label_bases in Hb.
    repeat (apply elem_of_cons in Hb as [->|Hb]; [by intros c [= <-]|]).
    by apply elem_of_nil in Hb.
  - unfold label_bases in Hb'.
    repeat (apply elem_of_cons in Hb' as [->|Hb']; [by intros c [= <-]|]).
    by apply elem_of_nil in Hb'.
Qed.

(** *** What the builder emits *)

Fixpoint ir_labels (l : list IRInstr) : list string :=
  match l with
  | [] => []
  | Label name :: rest => name :: ir_labels rest
  | _ :: rest => ir_labels rest
  end.

Fixpoint ir_targets (l : list IRInstr) : list string :=
  match l with
  | [] => []
  | Goto label :: rest | IfFalse _ label :: rest => label :: ir_targets rest
  | _ :: rest => ir_targets rest
  end.

Lemma ir_labels_app l1 l2 : ir_labels (l1 ++ l2) = ir_labels l1 ++ ir_labels l2.
Proof.
  induction l1 as [|i l1 IH]; [done|].
  destruct i; cbn [app ir_labels]; by rewrite ?IH.
Qed.

Lemma ir_targets_app l1 l2 : ir_targets (l1 ++ l2) = ir_targets l1 ++ ir_targets l2.
Proof.
  induction l1 as [|i l1 IH]; [done|].
  destruct i; cbn [app ir_targets]; by rewrite ?IH.
Qed.

(** The labels [L] bear distinct numbers, all in [P]. *)
Definition ids_in (P : nat -> Prop) (L : list string) : Prop :=
  exists ks, Forall2 named L ks /\ NoDup ks /\ Forall P ks.

Lemma ids_nil P : ids_in P [].
Proof. exists []. split; [constructor|]. split; constructor. Qed.

Lemma ids_one (P : nat -> Prop) x k : named x k -> P k -> ids_in P [x].
Proof.
  intros Hx Hk. exists [k]. split; [by repeat constructor|].
  split; [apply NoDup_singleton|by repeat constructor].
Qed.

Lemma ids_app (P1 P2 P : nat -> Prop) L1 L2 :
  ids_in P1 L1 -> ids_in P2 L2 ->
  (forall k, P1 k -> P2 k -> False) ->
  (forall k, P1 k -> P k) -> (forall k, P2 k -> P k) ->
  ids_in P (L1 ++ L2).
Proof.
  intros (ks1 & F1 & N1 & A1) (ks2 & F2 & N2 & A2) Hdis H1 H2.
  exists (ks1 ++ ks2). split; [by apply Forall2_app|]. split.
  - apply NoDup_app. split; [done|]. split; [|done].
    intros k Hk1 Hk2. apply (Hdis k).
    + by apply (proj1 (Forall_forall _ _) A1).
    + by apply (proj1 (Forall_forall _ _) A2).
  - apply Forall_app. split; eapply Forall_impl; eauto.
Qed.

Lemma ids_weaken (P Q : nat -> Prop) L :
  (forall k, P k -> Q k) -> ids_in P L -> ids_in Q L.
Proof.
  intros HPQ (ks & F & N & A). exists ks. split; [done|]. split; [done|].
  by eapply Forall_impl.
Qed.

Lemma ids_NoDup P L : ids_in P L -> NoDup L.
Proof.
  intros (ks & F & N & _). revert N.
  induction F as [|x k L ks Hx F IH]; intros N; [constructor|].
  apply NoDup_cons in N as [Hk N]. apply NoDup_cons. split; [|by apply IH].
  intros Hin. apply Hk.
  destruct (proj1 (list_elem_of_lookup _ _) Hin) as [i Hi].
  destruct (Forall2_lookup_l _ _ _ _ _ F Hi) as (k' & Hk' & Hn).
  rewrite (named_inj _ _ _ Hx Hn). by eapply list_elem_of_lookup_2.
Qed.

Section Emits.
Variable py_repr : float -> string.

(** What an expression adds to the builder: instructions without
    labels or jumps, and temporaries. *)
Definition expr_emits (b b' : IRBuilder) (l : list IRInstr) : Prop :=
  code b' = code b ++ l
  /\ temp_counter b <= temp_counter b'
  /\ label_counter b' = label_counter b
  /\ ir_labels l = [] /\ ir_targets l = [].

Lemma expr_emits_refl b : expr_emits b b [].
Proof. unfold expr_emits. by rewrite app_nil_r. Qed.

Lemma expr_emits_trans b b1 b2 l1 l2 :
  expr_emits b b1 l1 -> expr_emits b1 b2 l2 -> expr_emits b b2 (l1 ++ l2).
Proof.
  intros (C1 & T1 & L1 & A1 & J1) (C2 & T2 & L2 & A2 & J2). unfold expr_emits.
  rewrite C2, C1, <- app_assoc, ir_labels_app, ir_targets_app, A1, A2, J1, J2.
  repeat split; [lia|congruence].
Qed.

Lemma expr_emits_emit b i :
  ir_labels [i] = [] -> ir_targets [i] = [] -> expr_emits b (emit b i) [i].
Proof. intros H1 H2. by repeat split. Qed.

Lemma expr_emits_temp b : expr_emits b (new_temp b).1 [].
Proof.
  unfold expr_emits. cbn [new_temp fst code temp_counter label_counter].
  rewrite app_nil_r. repeat split; lia.
Qed.

Lemma gen_args_emits args : forall b,
  Forall (fun e => forall b, exists l, expr_emits b (gen_expr py_repr b e).1 l) args ->
  exists l, expr_emits b (map_accum (gen_expr py_repr) b args).1 l.
Proof.
  induction args as [|a args IH]; intros b Hall.
  { exists []. apply expr_emits_refl. }
  apply Forall_cons in Hall as [Ha Hall]. cbn [map_accum].
  destruct (Ha b) as [l1 H1]. destruct (gen_expr py_repr b a) as [b1 r].
  destruct (IH b1 Hall) as [l2 H2].
  destruct (map_accum (gen_expr py_repr) b1 args) as [b2 rs].
  exists (l1 ++ l2). by eapply expr_emits_trans.
Qed.

Lemma gen_expr_emits e : forall b,
  exists l, expr_emits b (gen_expr py_repr b e).1 l.
Proof.
  induction e as [n v ln c t IH|n args ln c t IH|v k t|n ln c t|o r t IH
                  |x o y t IHx IHy|e' t IH] using Expr_induct;
    intros b; cbn [gen_expr].
  - destruct (IH b) as [l H]. destruct (gen_expr py_repr b v) as [b1 rhs].
    eexists. eapply expr_emits_trans; [exact H|]. by apply expr_emits_emit.
  - pose proof (expr_emits_temp b) as Ht. destruct (new_temp b) as [bt tmp].
    match goal with |- context [match ?r with pair _ _ => _ end] =>
      assert (expr_emits b r.1 []) as Hd
        by (repeat case_match; first [apply expr_emits_refl|exact Ht]);
      destruct r as [b0 dst]
    end.
    destruct (gen_args_emits args b0 IH) as [l H].
    destruct (map_accum (gen_expr py_repr) b0 args) as [b1 args'].
    eexists. eapply expr_emits_trans; [exact Hd|].
    eapply expr_emits_trans; [exact H|]. by apply expr_emits_emit.
  - exists []. destruct (String.eqb k "bool"); apply expr_emits_refl.
  - exists []. apply expr_emits_refl.
  - pose proof (expr_emits_temp b) as Ht. destruct (new_temp b) as [b0 tmp].
    destruct (IH b0) as [l H]. destruct (gen_expr py_repr b0 r) as [b1 r'].
    eexists. eapply expr_emits_trans; [exact Ht|].
    eapply expr_emits_trans; [exact H|]. by apply expr_emits_emit.
  - pose proof (expr_emits_temp b) as Ht. destruct (new_temp b) as [b0 tmp].
    destruct (IHx b0) as [l1 H1]. destruct (gen_expr py_repr b0 x) as [b1 x'].
    destruct (IHy b1) as [l2 H2]. destruct (gen_expr py_repr b1 y) as [b2 y'].
    eexists. eapply expr_emits_trans; [exact Ht|].
    eapply expr_emits_trans; [exact H1|].
    eapply expr_emits_trans; [exact H2|]. by apply expr_emits_emit.
  - apply IH.
Qed.

(** What a statement adds: moreover labels, each of a number of its
    own, and jumps to those labels only. *)
Definition stmt_emits (b b' : IRBuilder) (l : list IRInstr) : Prop :=
  code b' = code b ++ l
  /\ temp_counter b <= temp_counter b'
  /\ label_counter b <= label_counter b'
  /\ ir_targets l ⊆ ir_labels l
  /\ ids_in (fun k => label_counter b < k <= label_counter b') (ir_labels l).

Lemma stmt_emits_refl b : stmt_emits b b [].
Proof.
  unfold stmt_emits. rewrite app_nil_r. repeat split; try done. apply ids_nil.
Qed.

Lemma expr_stmt_emits b b' l : expr_emits b b' l -> stmt_emits b b' l.
Proof.
  intros (C & T & L & A & J). unfold stmt_emits. rewrite A, J, L.
  repeat split; try done. apply ids_nil.
Qed.

Lemma stmt_emits_trans b b1 b2 l1 l2 :
  stmt_emits b b1 l1 -> stmt_emits b1 b2 l2 -> stmt_emits b b2 (l1 ++ l2).
Proof.
  intros (C1 & T1 & L1 & J1 & I1) (C2 & T2 & L2 & J2 & I2). unfold stmt_emits.
  rewrite C2, C1, <- app_assoc, ir_labels_app, ir_targets_app.
  split; [done|]. split; [lia|]. split; [lia|]. split.
  - clear -J1 J2. set_solver.
  - eapply ids_app; [exact I1|exact I2|..]; cbv beta; intros; lia.
Qed.

Lemma new_label_named b base :
  base ∈ label_bases ->
  named (new_label b base).2 (S (label_counter b))
  /\ code (new_label b base).1 = code b
  /\ temp_counter (new_label b base).1 = temp_counter b
  /\ label_counter (new_label b base).1 = S (label_counter b).
Proof. intros Hb. split; [by exists base|done]. Qed.

Ltac ids_split P1 P2 :=
  apply (ids_app P1 P2);
  [ | | cbv beta; intros; lia | cbv beta; intros; lia | cbv beta; intros; lia].

Lemma gen_opt_emits (o : option Stmt) b :
  option_Forall (fun s => forall b, exists l, stmt_emits b (gen_stmt py_repr b s) l) o ->
  exists l, stmt_emits b match o with
                         | Some s' => gen_stmt py_repr b s'
                         | None => b
                         end l.
Proof.
  destruct o as [s|]; intros H; [apply H|]. exists []. apply stmt_emits_refl.
Qed.

Lemma gen_block_emits (ss : list Stmt) b :
  Forall (fun s => forall b, exists l, stmt_emits b (gen_stmt py_repr b s) l) ss ->
  exists l, stmt_emits b match ss with
                         | st :: _ => gen_stmt py_repr b st
                         | [] => b
                         end l.
Proof.
  destruct ss as [|s ss]; intros H.
  - exists []. apply stmt_emits_refl.
  - apply Forall_cons in H as [H _]. apply H.
Qed.

Lemma gen_stmt_emits s : forall b,
  exists l, stmt_emits b (gen_stmt py_repr b s) l.
Proof.
  induction s as [rt n ps body IH|ss IH|t n i ln c|c t e IHt IHe|c body IH
                  |i c p body IHi IHp IHb|e|e|e] using Stmt_induct;
    intros b; cbn [gen_stmt].
  - (* FunctionDecl *)
    destruct (gen_block_emits body (emit b (FuncStart n (map pname ps))) IH)
      as [l H].
    exists ([FuncStart n (map pname ps)] ++ l ++ [FuncEnd n]).
    eapply stmt_emits_trans; [by apply expr_stmt_emits, expr_emits_emit|].
    eapply stmt_emits_trans; [exact H|].
    by apply expr_stmt_emits, expr_emits_emit.
  - (* Block *) by apply gen_block_emits.
  - (* VarDecl *)
    destruct i as [e|]; [|exists []; apply stmt_emits_refl].
    destruct (gen_expr_emits e b) as [l H].
    destruct (gen_expr py_repr b e) as [b1 v].
    eexists. apply expr_stmt_emits.
    eapply expr_emits_trans; [exact H|]. by apply expr_emits_emit.
  - (* If *)
    destruct (new_label_named b "Lelse") as (N1 & C1 & T1 & L1);
      [unfold label_bases; set_solver|].
    destruct (new_label b "Lelse") as [b1 else_lbl]. cbn [fst snd] in *.
    destruct (new_label_named b1 "Lend") as (N2 & C2 & T2 & L2);
      [unfold label_bases; set_solver|].
    destruct (new_label b1 "Lend") as [b2 end_lbl]. cbn [fst snd] in *.
    destruct (gen_expr_emits c b2) as (lc & Cc & Tc & Lc & Ac & Jc).
    destruct (gen_expr py_repr b2 c) as [b3 v]. cbn [fst] in *.
    destruct (IHt (emit b3 (IfFalse v else_lbl))) as (lt & Ct & Tt & Lt & Jt & It).
    set (b5 := gen_stmt py_repr (emit b3 (IfFalse v else_lbl)) t) in *.
    destruct (gen_opt_emits e (emit (emit b5 (Goto end_lbl)) (Label else_lbl)) IHe)
      as (le & Ce & Te & Le & Je & Ie).
    match goal with |- context [emit ?b8 (Label end_lbl)] => set (b8' := b8) in * end.
    cbn [emit code temp_counter label_counter] in *.
    exists (lc ++ [IfFalse v else_lbl] ++ lt ++ [Goto end_lbl; Label else_lbl]
            ++ le ++ [Label end_lbl]).
    unfold stmt_emits. cbn [emit code temp_counter label_counter].
    split; [|split; [lia|split; [lia|split]]].
    + rewrite Ce, Ct, Cc, C2, C1. by rewrite <- !app_assoc.
    + repeat first [rewrite ir_labels_app | rewrite ir_targets_app
                   | progress cbn [ir_targets ir_labels app] | rewrite Ac | rewrite Jc].
      clear -Jt Je. set_solver.
    + repeat first [rewrite ir_labels_app | rewrite ir_targets_app
                   | progress cbn [ir_targets ir_labels app] | rewrite Ac | rewrite Jc].
      ids_split (fun k => label_counter b2 < k <= label_counter b5)
                (fun k => k = label_counter b1 \/ label_counter b5 < k
                          /\ k <= label_counter b8' \/ k = label_counter b2).
      * eapply ids_weaken; [|exact It]; cbv beta; intros; lia.
      * change (else_lbl :: ir_labels le ++ [end_lbl])
          with ([else_lbl] ++ ir_labels le ++ [end_lbl]).
        ids_split (fun k => k = label_counter b1)
                  (fun k => label_counter b5 < k <= label_counter b8'
                            \/ k = label_counter b2).
        -- apply (ids_one _ _ (label_counter b1)); [by rewrite L1|done].
        -- ids_split (fun k => label_counter b5 < k <= label_counter b8')
                     (fun k => k = label_counter b2).
           ++ eapply ids_weaken; [|exact Ie]; cbv beta; intros; lia.
           ++ apply (ids_one _ _ (label_counter b2)); [by rewrite L2|done].
  - (* While *)
    destruct (new_label_named b "Lwhile") as (N1 & C1 & T1 & L1);
      [unfold label_bases; set_solver|].
    destruct (new_label b "Lwhile") as [b1 start]. cbn [fst snd] in *.
    destruct (new_label_named b1 "Lwend") as (N2 & C2 & T2 & L2);
      [unfold label_bases; set_solver|].
    destruct (new_label b1 "Lwend") as [b2 end_]. cbn [fst snd] in *.
    destruct (gen_expr_emits c (emit b2 (Label start)))
      as (lc & Cc & Tc & Lc & Ac & Jc).
    destruct (gen_expr py_repr (emit b2 (Label start)) c) as [b3 v]. cbn [fst] in *.
    destruct (IH (emit b3 (IfFalse v end_))) as (lb & Cb & Tb & Lb & Jb & Ib).
    set (b5 := gen_stmt py_repr (emit b3 (IfFalse v end_)) body) in *.
    cbn [emit code temp_counter label_counter] in *.
    exists ([Label start] ++ lc ++ [IfFalse v end_] ++ lb ++ [Goto start; Label end_]).
    unfold stmt_emits. cbn [emit code temp_counter label_counter].
    split; [|split; [lia|split; [lia|split]]].
    + rewrite Cb, Cc, C2, C1. by rewrite <- !app_assoc.
    + repeat first [rewrite ir_labels_app | rewrite ir_targets_app
                   | progress cbn [ir_targets ir_labels app] | rewrite Ac | rewrite Jc].
      clear -Jb. set_solver.
    + repeat first [rewrite ir_labels_app | rewrite ir_targets_app
                   | progress cbn [ir_targets ir_labels app] | rewrite Ac | rewrite Jc].
      change (start :: ir_labels lb ++ [end_])
        with ([start] ++ ir_labels lb ++ [end_]).
      ids_split (fun k => k = label_counter b1)
                (fun k => label_counter b2 < k <= label_counter b5
                          \/ k = label_counter b2).
      * apply (ids_one _ _ (label_counter b1)); [by rewrite L1|done].
      * ids_split (fun k => label_counter b2 < k <= label_counter b5)
                  (fun k => k = label_counter b2).
        -- eapply ids_weaken; [|exact Ib]; cbv beta; intros; lia.
        -- apply (ids_one _ _ (label_counter b2)); [by rewrite L2|done].
  - (* For *)
    destruct (new_label_named b "Lfor") as (N1 & C1 & T1 & L1);
      [unfold label_bases; set_solver|].
    destruct (new_label b "Lfor") as [b1 start]. cbn [fst snd] in *.
    destruct (new_label_named b1 "Lfend") as (N2 & C2 & T2 & L2);
      [unfold label_bases; set_solver|].
    destruct (new_label b1 "Lfend") as [b2 end_]. cbn [fst snd] in *.
    destruct (gen_opt_emits i b2 IHi) as (li & Ci & Ti & Li & Ji & Ii).
    set (b3 := match i with Some s' => gen_stmt py_repr b2 s' | None => b2 end) in *.
    assert (exists lc b4,
               match c with
               | Some c0 => let '(b0, v) := gen_expr py_repr (emit b3 (Label start)) c0 in
                            emit b0 (IfFalse v end_)
               | None => emit b3 (Label start)
               end = b4
               /\ code b4 = code b3 ++ [Label start] ++ lc
               /\ temp_counter b3 <= temp_counter b4
               /\ label_counter b4 = label_counter b3
               /\ ir_labels lc = []
               /\ ir_targets lc ⊆ [end_]) as (lc & b4 & -> & Cc & Tc & Lc & Ac & Jc).
    { destruct c as [c0|].
      - destruct (gen_expr_emits c0 (emit b3 (Label start)))
          as (lc & Cc & Tc & Lc & Ac & Jc).
        destruct (gen_expr py_repr (emit b3 (Label start)) c0) as [b0 v].
        cbn [fst emit code temp_counter label_counter] in *.
        exists (lc ++ [IfFalse v end_]), (emit b0 (IfFalse v end_)).
        cbn [emit code temp_counter label_counter].
        rewrite Cc, ir_labels_app, ir_targets_app, Ac, Jc, <- !app_assoc.
        repeat split; try done; cbn; set_solver.
      - exists [], (emit b3 (Label start)). repeat split; try done; set_solver. }
    destruct (IHb b4) as (lb & Cb & Tb & Lb & Jb & Ib).
    set (b5 := gen_stmt py_repr b4 body) in *.
    destruct (gen_opt_emits p b5 IHp) as (lp & Cp & Tp & Lp & Jp & Ip).
    set (b6 := match p with Some s' => gen_stmt py_repr b5 s' | None => b5 end) in *.
    exists (li ++ [Label start] ++ lc ++ lb ++ lp ++ [Goto start; Label end_]).
    unfold stmt_emits. cbn [emit code temp_counter label_counter].
    split; [|split; [lia|split; [lia|split]]].
    + rewrite Cp, Cb, Cc, Ci, C2, C1. by rewrite <- !app_assoc.
    + repeat first [rewrite ir_labels_app | rewrite ir_targets_app
                   | progress cbn [ir_targets ir_labels app] | rewrite Ac].
      clear -Ji Jc Jb Jp. set_solver.
    + repeat first [rewrite ir_labels_app | rewrite ir_targets_app
                   | progress cbn [ir_targets ir_labels app] | rewrite Ac].
      ids_split (fun k => label_counter b2 < k <= label_counter b3)
                (fun k => k = label_counter b1
                          \/ label_counter b3 < k /\ k <= label_counter b6
                          \/ k = label_counter b2).
      * eapply ids_weaken; [|exact Ii]; cbv beta; intros; lia.
      * change (start :: ir_labels lb ++ ir_labels lp ++ [end_])
          with ([start] ++ ir_labels lb ++ ir_labels lp ++ [end_]).
        ids_split (fun k => k = label_counter b1)
                  (fun k => label_counter b3 < k <= label_counter b6
                            \/ k = label_counter b2).
        -- apply (ids_one _ _ (label_counter b1)); [by rewrite L1|done].
        -- ids_split (fun k => label_counter b4 < k <= label_counter b5)
                     (fun k => label_counter b5 < k <= label_counter b6
                               \/ k = label_counter b2).
           ++ eapply ids_weaken; [|exact Ib]; cbv beta; intros; lia.
           ++ ids_split (fun k => label_counter b5 < k <= label_counter b6)
                        (fun k => k = label_counter b2).
              ** eapply ids_weaken; [|exact Ip]; cbv beta; intros; lia.
              ** apply (ids_one _ _ (label_counter b2)); [by rewrite L2|done].
  - (* Print *)
    destruct (gen_expr_emits e b) as [l H].
    destruct (gen_expr py_repr b e) as [b1 v].
    eexists. apply expr_stmt_emits.
    eapply expr_emits_trans; [exact H|]. by apply expr_emits_emit.
  - (* Return *)
    destruct e as [e|].
    + destruct (gen_expr_emits e b) as [l H].
      destruct (gen_expr py_repr b e) as [b1 v].
      eexists. apply expr_stmt_emits.
      eapply expr_emits_trans; [exact H|]. by apply expr_emits_emit.
    + eexists. by apply expr_stmt_emits, expr_emits_emit.
  - (* ExprStmt *)
    destruct (gen_expr_emits e b) as [l H].
    exists l. by apply expr_stmt_emits.
Qed.

Lemma gen_fold_emits ss : forall b,
  exists l, stmt_emits b (fold_left (gen_stmt py_repr) ss b) l.
Proof.
  induction ss as [|s ss IH]; intros b; cbn [fold_left].
  - exists []. apply stmt_emits_refl.
  - destruct (gen_stmt_emits s b) as [l1 H1].
    destruct (IH (gen_stmt py_repr b s)) as [l2 H2].
    exists (l1 ++ l2). by eapply stmt_emits_trans.
Qed.

(** X12.  In the IR of a program every label bears a
    name of its own, and every jump goes to a label of the program. *)
Theorem ir_gen_labels (p : Program) :
  NoDup (ir_labels (ir_gen py_repr p))
  /\ ir_targets (ir_gen py_repr p) ⊆ ir_labels (ir_gen py_repr p).
Proof.
  unfold ir_gen, gen.
  destruct (gen_fold_emits (body p) new) as (l & C & _ & _ & J & I).
  cbn [new code app] in C. rewrite C. split; [by eapply ids_NoDup|done].
Qed.

(** X13.  [gen_stmt] only appends to the code of the
    builder, and its counters never go back. *)
Theorem gen_stmt_appends (b : IRBuilder) (s : Stmt) :
  (exists l, code (gen_stmt py_repr b s) = code b ++ l)
  /\ temp_counter b <= temp_counter (gen_stmt py_repr b s)
  /\ label_counter b <= label_counter (gen_stmt py_repr b s).
Proof.
  destruct (gen_stmt_emits s b) as (l & C & T & L & _). split; [by exists l|done].
Qed.
End Emits.

(** *** Destinations *)

Section Temps.
Variable py_repr : float -> string.










End Temps.

End IR_facts.

(** ** Facts about dead-code elimination *)

Module Optimizer_facts.
Import IR Optimizer.

Section Passes.
Variable re_digit : ascii -> bool.
Variable py_float : string -> option float.

Lemma dce_step_out st ins :
  (dce_step re_digit py_float st ins).2 = st.2
  \/ (dce_step re_digit py_float st ins).2 = st.2 ++ [ins].
Proof.
  destruct st as [live out]. unfold dce_step.
  destruct (has_side_effect re_digit ins || _ || _); simpl; auto.
Qed.






End Passes.


Section Elimination.
Variable re_digit : ascii -> bool.
Variable py_float : string -> option float.
Variable py_repr : float -> string.

(** The instructions the loop of [dce] keeps whatever is live: those
    with a side effect and those that define nothing. *)
Definition anchored (ins : IRInstr) : bool :=
  has_side_effect re_digit ins
  || match defined_var ins with
     | Some _ => false
     | None => true
     end.

Lemma dce_fold_anchored l : forall st,
  List.filter anchored (fold_left (dce_step re_digit py_float) l st).2
  = List.filter anchored st.2 ++ List.filter anchored l.
Proof.
  induction l as [|x l IH]; intros [live out]; cbn [fold_left List.filter].
  { by rewrite app_nil_r. }
  rewrite IH. unfold dce_step, anchored at 1 4.
  destruct (has_side_effect re_digit x) eqn:Hs; cbn [orb snd].
  { by rewrite List.filter_app, <- app_assoc; cbn [List.filter]; unfold anchored at 2;
      rewrite Hs. }
  destruct (defined_var x) as [d|] eqn:Hd.
  - rewrite orb_false_r. destruct (bool_decide (d ∈ live)); cbn [snd]; [|done].
    rewrite List.filter_app. cbn [List.filter]. unfold anchored at 2.
    rewrite Hs, Hd. cbn [orb]. by rewrite app_nil_r.
  - rewrite orb_true_r. cbn [snd].
    rewrite List.filter_app, <- app_assoc. cbn [List.filter]. unfold anchored at 2.
    by rewrite Hs, Hd.
Qed.

Lemma dce_fold_sublist l : forall st,
  sublist (fold_left (dce_step re_digit py_float) l st).2 (st.2 ++ l).
Proof.
  induction l as [|x l IH]; intros st; cbn [fold_left].
  { by rewrite app_nil_r. }
  etrans; [apply IH|].
  destruct (dce_step_out re_digit py_float st x) as [-> | ->].
  - apply sublist_app; [done|]. by apply sublist_cons.
  - by rewrite <- app_assoc.
Qed.

Lemma sublist_rev {A} (l k : list A) : sublist l k -> sublist (rev l) (rev k).
Proof.
  induction 1 as [|x l k _ IH|x l k _ IH]; cbn [rev]; [done| |].
  - by apply sublist_app.
  - by apply sublist_inserts_r.
Qed.

Lemma dce_sublist (ir : list IRInstr) : sublist (dce re_digit py_float ir) ir.
Proof.
  unfold dce. rewrite <- (rev_involutive ir) at 2. apply sublist_rev.
  apply (dce_fold_sublist (rev ir) (∅, [])).
Qed.

Lemma dce_anchored (ir : list IRInstr) :
  List.filter anchored (dce re_digit py_float ir) = List.filter anchored ir.
Proof.
  unfold dce. rewrite List.filter_rev, dce_fold_anchored. cbn [snd List.filter app].
  by rewrite <- List.filter_rev, rev_involutive.
Qed.

(** X14.  [dce] only selects: its output is a
    subsequence of its input, and the instructions with a side effect
    or without a destination are all in it, in their order. *)
Theorem dce_selects (ir : list IRInstr) :
  sublist (dce re_digit py_float ir) ir
  /\ List.filter anchored (dce re_digit py_float ir) = List.filter anchored ir.
Proof. split; [apply dce_sublist|apply dce_anchored]. Qed.

(** What [constant_fold] does to one instruction keeps its kind of
    effect. *)
Lemma fold_instr_defined ins :
  defined_var (fold_instr py_float py_repr ins) = defined_var ins.
Proof.
  destruct ins as [| | | |dst op l r|dst op operand| | | | |]; try done;
    cbn [fold_instr].
  - match goal with |- context [match ?o with Some _ => _ | None => _ end] =>
      destruct o end; [done|].
    repeat (match goal with |- context [if ?c then _ else _] => destruct c end;
            [done|]).
    done.
  - match goal with |- context [match ?o with Some _ => _ | None => _ end] =>
      by destruct o end.
Qed.

Definition defines_nothing (ins : IRInstr) : bool :=
  match defined_var ins with
  | Some _ => false
  | None => true
  end.

Lemma constant_fold_defines_nothing (ir : list IRInstr) :
  List.filter defines_nothing (constant_fold py_float py_repr ir)
  = List.filter defines_nothing ir.
Proof.
  unfold constant_fold.
  induction ir as [|ins ir IH]; [done|]. cbn [map List.filter].
  unfold defines_nothing at 1 4. rewrite fold_instr_defined, IH.
  destruct (defined_var ins) eqn:Hd; [done|]. by destruct ins.
Qed.

(** X15.  [constant_fold] rewrites in place:
    the instructions are as many, each defines the variable it defined,
    and those that define none are as they were. *)
Theorem constant_fold_in_place (ir : list IRInstr) :
  length (constant_fold py_float py_repr ir) = length ir
  /\ map defined_var (constant_fold py_float py_repr ir) = map defined_var ir
  /\ List.filter defines_nothing (constant_fold py_float py_repr ir)
     = List.filter defines_nothing ir.
Proof.
  split; [apply length_map|]. split; [|apply constant_fold_defines_nothing].
  unfold constant_fold. rewrite map_map. apply map_ext, fold_instr_defined.
Qed.

Lemma eqb_zero_not_one (v : float) :
  PrimFloat.eqb v 0%float = true -> PrimFloat.eqb v 1%float = false.
Proof.
  rewrite !FloatAxioms.eqb_spec.
  destruct (Prim2SF v) as [s|s| |s m e]; try done; by destruct s.
Qed.

(** X16.  A division or a remainder by a
    constant zero is never folded: the instruction stays for the
    machine to run. *)
Theorem division_by_zero_not_folded (dst op l r : string) (v : float) :
  in_list op ["/"; "%"] = true ->
  const_val py_float r = Some v -> PrimFloat.eqb v 0%float = true ->
  eval_bin py_float py_repr op l r = None
  /\ fold_instr py_float py_repr (BinOp dst op l r) = BinOp dst op l r.
Proof.
  intros Hop Hr Hz.
  assert (op = "/" \/ op = "%") as Hop'.
  { unfold in_list in Hop. cbn [existsb] in Hop.
    destruct (String.eqb_spec op "/"); [by left|].
    destruct (String.eqb_spec op "%"); [by right|done]. }
  assert (eval_bin py_float py_repr op l r = None) as He.
  { unfold eval_bin. rewrite Hr. destruct (const_val py_float l); [|done].
    destruct Hop' as [-> | ->]; cbn [String.eqb Ascii.eqb Bool.eqb].
    - by rewrite Hz.
    - unfold Py.nonzero. rewrite Hz. cbn [negb]. by rewrite andb_false_r. }
  split; [done|]. cbn [fold_instr]. rewrite He.
  assert (const_is py_float r 1%float = false) as H1.
  { unfold const_is. rewrite Hr, (eqb_zero_not_one v Hz). apply andb_false_r. }
  destruct Hop' as [-> | ->]; cbn [in_list existsb String.eqb Ascii.eqb Bool.eqb orb andb];
    rewrite ?H1; by destruct (is_const py_float l && is_const py_float r).
Qed.

Lemma filter_defines_nothing_anchored (l : list IRInstr) :
  List.filter defines_nothing (List.filter anchored l)
  = List.filter defines_nothing l.
Proof.
  induction l as [|i l IH]; [done|]. cbn [List.filter].
  unfold anchored at 1, defines_nothing at 2.
  destruct (defined_var i) eqn:Hd.
  - rewrite orb_false_r. destruct (has_side_effect re_digit i); [|done].
    cbn [List.filter]. unfold defines_nothing at 1. by rewrite Hd.
  - rewrite orb_true_r. cbn [List.filter]. unfold defines_nothing at 1.
    by rewrite Hd, IH.
Qed.

Lemma optimize_ir_defines_nothing (ir : list IRInstr) :
  List.filter defines_nothing (optimize_ir re_digit py_float py_repr ir)
  = List.filter defines_nothing ir.
Proof.
  unfold optimize_ir.
  by rewrite <- filter_defines_nothing_anchored, dce_anchored,
    filter_defines_nothing_anchored, constant_fold_defines_nothing.
Qed.

(** X17.  The two passes together leave the
    skeleton of the code alone: labels, jumps, prints, returns,
    function marks and calls come out as they went in, in their order,
    and the code gets no longer. *)
Theorem optimize_ir_skeleton (ir : list IRInstr) :
  List.filter defines_nothing (optimize_ir re_digit py_float py_repr ir)
  = List.filter defines_nothing ir
  /\ length (optimize_ir re_digit py_float py_repr ir) <= length ir.
Proof.
  split; [apply optimize_ir_defines_nothing|]. unfold optimize_ir.
  rewrite <- (length_map (fold_instr py_float py_repr) ir).
  apply sublist_length, dce_sublist.
Qed.

End Elimination.

(** *** Writes to user variables *)



Section UserWrites.
Variable re_digit : ascii -> bool.
Variable py_float : string -> option float.
Variable py_repr : float -> string.
(** [\d] matches the digits of ASCII. *)
Hypothesis re_digit_ascii : forall c, Py.is_digit c = true -> re_digit c = true.



End UserWrites.




Lemma division_by_zero_not_folded_witness :
  in_list "/" ["/"; "%"] = true
  /\ const_val dec_float "0" = Some 0%float
  /\ fold_instr dec_float dec_repr (BinOp "t1" "/" "x" "0")
     = BinOp "t1" "/" "x" "0".
Proof.
  split; [reflexivity|]. split; [reflexivity|].
  apply (division_by_zero_not_folded dec_float dec_repr "t1" "/" "x" "0"
           0%float eq_refl eq_refl eq_refl).
Defined.

End Optimizer_facts.

(** ** Facts about the peephole passes *)

Module Peephole_facts.
Import Codegen Peephole.

Definition is_label (ins : BCInstr) : bool :=
  match ins with
  | BLabel _ => true
  | _ => false
  end.

(** What the first loop of [collapse_consecutive_labels] keeps: every
    instruction but a label that directly follows a label. *)
Fixpoint keep_first_labels (after_label : bool) (code : list BCInstr) : list BCInstr :=
  match code with
  | [] => []
  | ins :: rest =>
      if is_label ins
      then if after_label then keep_first_labels true rest
           else ins :: keep_first_labels true rest
      else ins :: keep_first_labels false rest
  end.

(** No label directly follows a label ([after_label]: one precedes the list). *)
Fixpoint no_adjacent_labels (after_label : bool) (code : list BCInstr) : bool :=
  match code with
  | [] => true
  | ins :: rest =>
      if is_label ins
      then negb after_label && no_adjacent_labels true rest
      else no_adjacent_labels false rest
  end.

Lemma collapse_fold_out code out label_map prev :
  (fold_left collapse_step code (out, label_map, prev)).1.1
  = out ++ keep_first_labels (bool_decide (is_Some prev)) code.
Proof.
  revert out label_map prev.
  induction code as [|ins rest IH]; intros out label_map prev; simpl.
  - by rewrite app_nil_r.
  - destruct ins; simpl; rewrite ?IH; simpl;
      try (by rewrite <- app_assoc).
    destruct prev as [p|]; simpl; rewrite IH; simpl.
    + done.
    + by rewrite <- app_assoc.
Qed.

Lemma keep_first_labels_no_adjacent b code :
  no_adjacent_labels b (keep_first_labels b code) = true.
Proof.
  revert b. induction code as [|ins rest IH]; intros b; simpl; [done|].
  destruct (is_label ins) eqn:E.
  - destruct b; simpl; [apply IH|]. rewrite E. simpl. apply IH.
  - simpl. rewrite E. apply IH.
Qed.

Lemma collapse_fold_no_adjacent code out label_map prev :
  no_adjacent_labels (bool_decide (is_Some prev)) code = true ->
  exists prev',
    fold_left collapse_step code (out, label_map, prev)
    = (out ++ code, label_map, prev').
Proof.
  revert out prev.
  induction code as [|ins rest IH]; intros out prev H;
    cbn [fold_left]; simpl in H.
  - exists prev. by rewrite app_nil_r.
  - destruct (is_label ins) eqn:E.
    + apply andb_true_iff in H as [Hp H].
      destruct ins; try discriminate. destruct prev as [p|]; [done|].
      cbn [collapse_step].
      destruct (IH (out ++ [BLabel name]) (Some name) H) as [p' ->].
      exists p'. by rewrite <- app_assoc.
    + assert (collapse_step (out, label_map, prev) ins = (out ++ [ins], label_map, None)) as ->.
      { destruct ins; try done. }
      destruct (IH (out ++ [ins]) None H) as [p' ->].
      exists p'. by rewrite <- app_assoc.
Qed.

Lemma remap_instr_label label_map ins ins' :
  remap_instr label_map ins = Some ins' -> is_label ins' = is_label ins.
Proof.
  destruct ins; simpl; intros H; simplify_option_eq; done.
Qed.

Lemma remap_instr_mov_self label_map ins ins' :
  remap_instr label_map ins = Some ins' -> is_mov_self ins' = is_mov_self ins.
Proof.
  destruct ins; simpl; intros H; simplify_option_eq; done.
Qed.

Lemma mapM_remap_no_adjacent label_map code code' b :
  mapM (remap_instr label_map) code = Some code' ->
  no_adjacent_labels b code' = no_adjacent_labels b code.
Proof.
  intros H%mapM_Some_1. revert b.
  induction H as [|ins ins' rest rest' Hins _ IH]; intros b; simpl; [done|].
  rewrite (remap_instr_label _ _ _ Hins).
  destruct (is_label ins); by rewrite IH.
Qed.

Lemma mapM_remap_mov_self label_map code code' :
  mapM (remap_instr label_map) code = Some code' ->
  forallb (fun i => negb (is_mov_self i)) code'
  = forallb (fun i => negb (is_mov_self i)) code.
Proof.
  intros H%mapM_Some_1.
  induction H as [|ins ins' rest rest' Hins _ IH]; simpl; [done|].
  by rewrite (remap_instr_mov_self _ _ _ Hins), IH.
Qed.

Lemma mapM_remap_empty code :
  mapM (remap_instr ∅) code = Some code.
Proof.
  apply mapM_Some_2.
  induction code as [|ins rest IH]; constructor; [|done].
  destruct ins; done.
Qed.

Lemma remove_mov_self_forallb code :
  forallb (fun i => negb (is_mov_self i)) (remove_mov_self code) = true.
Proof.
  induction code as [|ins rest IH]; simpl; [done|].
  destruct (is_mov_self ins) eqn:E; simpl; [done|]. by rewrite E.
Qed.

Lemma remove_mov_self_id code :
  forallb (fun i => negb (is_mov_self i)) code = true ->
  remove_mov_self code = code.
Proof.
  induction code as [|ins rest IH]; simpl; [done|].
  intros [H1 H2]%andb_true_iff. unfold remove_mov_self in *. simpl.
  rewrite H1. f_equal. by apply IH.
Qed.

Lemma remove_jmp_forallb (p : BCInstr -> bool) code :
  forallb p code = true -> forallb p (remove_jmp_to_next_label code) = true.
Proof.
  induction code as [|ins rest IH]; simpl; [done|].
  intros [H1 H2]%andb_true_iff.
  destruct (jmp_to_next ins rest); simpl; auto.
  by rewrite H1, IH.
Qed.

Lemma keep_first_labels_forallb (p : BCInstr -> bool) b code :
  forallb p code = true -> forallb p (keep_first_labels b code) = true.
Proof.
  revert b. induction code as [|ins rest IH]; intros b; simpl; [done|].
  intros [H1 H2]%andb_true_iff.
  destruct (is_label ins), b; simpl; rewrite ?H1; simpl; auto.
Qed.

(** The result of [collapse_consecutive_labels] is a fixed point of it. *)
Lemma collapse_collapse code r :
  collapse_consecutive_labels code = Some r ->
  collapse_consecutive_labels r = Some r.
Proof.
  unfold collapse_consecutive_labels. intros H.
  pose proof (collapse_fold_out code [] ∅ None) as Hout.
  destruct (fold_left collapse_step code ([], ∅, None)) as [[out m] p].
  simpl in Hout. subst out.
  pose proof (mapM_remap_no_adjacent _ _ _ false H) as Hadj.
  rewrite keep_first_labels_no_adjacent in Hadj.
  destruct (collapse_fold_no_adjacent r [] ∅ None Hadj) as [p' ->].
  simpl. apply mapM_remap_empty.
Qed.

Lemma collapse_out code r :
  collapse_consecutive_labels code = Some r ->
  exists label_map,
    mapM (remap_instr label_map) (keep_first_labels false code) = Some r.
Proof.
  unfold collapse_consecutive_labels. intros H.
  pose proof (collapse_fold_out code [] ∅ None) as Hout.
  destruct (fold_left collapse_step code ([], ∅, None)) as [[out m] p].
  simpl in Hout. subst out. by exists m.
Qed.

(** *** The fuel of [remap] *)

Lemma remap_loop_mono label_map k k' name r :
  remap_loop label_map k name = Some r -> k <= k' ->
  remap_loop label_map k' name = Some r.
Proof.
  revert k' name. induction k as [|k IH]; intros k' name H Hle.
  - destruct k'; simpl in *; destruct (label_map !! name); done.
  - destruct k' as [|k']; [lia|]. simpl in *.
    destruct (label_map !! name); [|done]. apply IH; [done|lia].
Qed.

Lemma remap_loop_end label_map k name r :
  remap_loop label_map k name = Some r -> label_map !! r = None.
Proof.
  revert name. induction k as [|k IH]; intros name; simpl;
    destruct (label_map !! name) eqn:E; try done; try (intros [= <-]; done).
  apply IH.
Qed.

(** A walk from [z] either avoids the key [x], or passes it and goes on
    from its image [y] with less fuel. *)
Lemma remap_loop_avoid label_map x y k z r :
  label_map !! x = Some y ->
  remap_loop label_map k z = Some r ->
  remap_loop (delete x label_map) k z = Some r
  \/ exists k1, k1 < k /\ remap_loop label_map k1 y = Some r.
Proof.
  intros Hx. revert z. induction k as [|k IH]; intros z H.
  - simpl in *. destruct (decide (z = x)) as [->|Hne].
    + by rewrite Hx in H.
    + left. rewrite lookup_delete_ne by done.
      by destruct (label_map !! z).
  - simpl in *. destruct (decide (z = x)) as [->|Hne].
    + rewrite Hx in H. right. exists k. split; [lia|done].
    + rewrite lookup_delete_ne by done.
      destruct (label_map !! z) as [z'|]; [|by left].
      destruct (IH z' H) as [Hl|(k1 & Hlt & Hr)]; [by left|].
      right. exists k1. split; [lia|done].
Qed.

Lemma remap_loop_delete label_map x y k r :
  label_map !! x = Some y ->
  remap_loop label_map k y = Some r ->
  remap_loop (delete x label_map) k y = Some r.
Proof.
  intros Hx. induction (lt_wf k) as [k _ IH]. intros H.
  destruct (remap_loop_avoid _ _ _ _ _ _ Hx H) as [Hl|(k1 & Hlt & Hr)]; [done|].
  apply (remap_loop_mono _ k1); [|lia]. by apply IH.
Qed.

Lemma remap_loop_undelete label_map x k z r :
  r <> x ->
  remap_loop (delete x label_map) k z = Some r ->
  remap_loop label_map k z = Some r.
Proof.
  intros Hr. revert z. induction k as [|k IH]; intros z; simpl;
    (destruct (decide (z = x)) as [->|Hne];
     [rewrite lookup_delete_eq; congruence|rewrite lookup_delete_ne by done]);
    destruct (label_map !! z); try done.
  apply IH.
Qed.

(** Fuel [size label_map] is enough for every walk that ends: with it
    [remap] answers [None] only where the loop of the source runs for
    ever. *)
Lemma remap_loop_fuel label_map k name r :
  remap_loop label_map k name = Some r -> remap label_map name = Some r.
Proof.
  unfold remap.
  assert (forall n (m : gmap string string) k x,
            size m <= n -> remap_loop m k x = Some r ->
            remap_loop m n x = Some r) as Hgen.
  { clear. induction n as [|n IH]; intros m k x Hsize H.
    - assert (m = ∅) as -> by (apply map_size_empty_iff; lia).
      destruct k; simpl in *; by rewrite lookup_empty in *.
    - pose proof (remap_loop_end _ _ _ _ H) as Hend.
      destruct k as [|k]; simpl in *;
        destruct (m !! x) as [y|] eqn:Hx; try done.
      assert (r <> x) as Hne by congruence.
      apply (remap_loop_undelete _ x); [done|].
      apply (IH _ k).
      + rewrite map_size_delete, Hx. lia.
      + by apply remap_loop_delete. }
  intros H. by apply (Hgen _ _ k).
Qed.

Lemma remap_diverges label_map name :
  remap label_map name = None -> forall k, remap_loop label_map k name = None.
Proof.
  intros H k. destruct (remap_loop label_map k name) as [r|] eqn:E; [|done].
  apply remap_loop_fuel in E. congruence.
Qed.

(** *** Idempotence *)

(** The bytecode of [if (true) print(1);]. *)
Definition if_without_else : list BCInstr :=
  [BIfFalse "1" "Lelse1"; BPrint "1"; BJmp "Lend2"; BLabel "Lelse1"; BLabel "Lend2"].

Example if_without_else_compiled :
  Codegen.codegen
    (IR.ir_gen dec_repr
       (Ast.mkProgram
          [Ast.If (Ast.Literal (Ast.LBool true) "bool" (Some "bool"))
                  (Ast.Print (Ast.Literal (Ast.LInt 1) "int" (Some "int"))) None]))
  = if_without_else.
Proof. reflexivity. Qed.

(** C3, as stated, fails: [peephole(peephole(c))] differs from
    [peephole(c)] on this bytecode.  Collapsing the two labels turns
    [JMP Lend2] into a jump to the label that now follows it, and only
    a second run of [peephole] removes that jump. *)
Lemma peephole_not_idempotent :
  peephole if_without_else
  = Some [BIfFalse "1" "Lelse1"; BPrint "1"; BJmp "Lelse1"; BLabel "Lelse1"]
  /\ (peephole if_without_else ≫= peephole)
     = Some [BIfFalse "1" "Lelse1"; BPrint "1"; BLabel "Lelse1"]
  /\ (peephole if_without_else ≫= peephole) <> peephole if_without_else.
Proof. split; [|split]; vm_compute; congruence. Qed.

(** C3, amended: a second run of [peephole] changes nothing when the
    first result holds no [JMP] directly followed by its target label;
    the second run then returns, and returns its input. *)
Theorem peephole_idempotent_without_jmp_to_next (c r : list BCInstr) :
  peephole c = Some r ->
  remove_jmp_to_next_label r = r ->
  peephole r = Some r.
Proof.
  unfold peephole. intros Hc Hjmp.
  destruct (collapse_out _ _ Hc) as [m Hm].
  assert (remove_mov_self r = r) as ->.
  { apply remove_mov_self_id.
    rewrite (mapM_remap_mov_self _ _ _ Hm).
    apply keep_first_labels_forallb, remove_jmp_forallb, remove_mov_self_forallb. }
  rewrite Hjmp. by eapply collapse_collapse.
Qed.

Lemma peephole_idempotent_without_jmp_to_next_witness :
  peephole [BMov "x" "x"; BJmp "A"; BLabel "A"; BLabel "B"; BJmp "B"]
  = Some [BLabel "A"; BJmp "A"]
  /\ remove_jmp_to_next_label [BLabel "A"; BJmp "A"] = [BLabel "A"; BJmp "A"]
  /\ peephole [BLabel "A"; BJmp "A"] = Some [BLabel "A"; BJmp "A"].
Proof.
  split; [reflexivity|]. split; [reflexivity|].
  apply (peephole_idempotent_without_jmp_to_next
           [BMov "x" "x"; BJmp "A"; BLabel "A"; BLabel "B"; BJmp "B"]);
    reflexivity.
Defined.

(** *** What [peephole] keeps *)

(** The names of the labels of some code, and the targets of its jumps. *)
Fixpoint label_names (code : list BCInstr) : list string :=
  match code with
  | [] => []
  | BLabel name :: rest => name :: label_names rest
  | _ :: rest => label_names rest
  end.

Fixpoint jump_targets (code : list BCInstr) : list string :=
  match code with
  | [] => []
  | BJmp label :: rest | BIfFalse _ label :: rest => label :: jump_targets rest
  | _ :: rest => jump_targets rest
  end.

(** The instructions no pass removes or rewrites. *)
Definition is_plain (ins : BCInstr) : bool :=
  match ins with
  | BLabel _ | BJmp _ | BIfFalse _ _ => false
  | _ => negb (is_mov_self ins)
  end.

Lemma label_names_app c1 c2 :
  label_names (c1 ++ c2) = label_names c1 ++ label_names c2.
Proof.
  induction c1 as [|ins c1 IH]; [done|].
  destruct ins; cbn [app label_names]; by rewrite ?IH.
Qed.

Lemma remove_mov_self_names code :
  label_names (remove_mov_self code) = label_names code
  /\ jump_targets (remove_mov_self code) = jump_targets code
  /\ List.filter is_plain (remove_mov_self code) = List.filter is_plain code.
Proof.
  unfold remove_mov_self.
  induction code as [|ins rest (IH1 & IH2 & IH3)]; [done|].
  cbn [List.filter]. destruct (is_mov_self ins) eqn:E; cbn [negb].
  - destruct ins; try done.
    cbn [label_names jump_targets List.filter is_plain]. by rewrite E.
  - cbn [List.filter]. rewrite IH3.
    destruct ins; cbn [label_names jump_targets]; by rewrite ?IH1, ?IH2.
Qed.

Lemma remove_jmp_names code :
  label_names (remove_jmp_to_next_label code) = label_names code
  /\ jump_targets (remove_jmp_to_next_label code) ⊆ jump_targets code
  /\ List.filter is_plain (remove_jmp_to_next_label code) = List.filter is_plain code
  /\ length (remove_jmp_to_next_label code) <= length code.
Proof.
  induction code as [|ins rest (IH1 & IH2 & IH3 & IH4)]; [done|].
  cbn [remove_jmp_to_next_label].
  destruct (jmp_to_next ins rest) eqn:E.
  - destruct ins; try done.
    cbn [label_names jump_targets List.filter is_plain length].
    split; [done|]. split; [set_solver|]. split; [done|lia].
  - cbn [List.filter length]. rewrite IH3.
    split; [|split; [|split; [done|lia]]].
    + destruct ins; cbn [label_names]; by rewrite ?IH1.
    + destruct ins; cbn [jump_targets]; set_solver.
Qed.

Lemma keep_first_labels_plain b code :
  jump_targets (keep_first_labels b code) = jump_targets code
  /\ List.filter is_plain (keep_first_labels b code) = List.filter is_plain code
  /\ length (keep_first_labels b code) <= length code.
Proof.
  revert b. induction code as [|ins rest IH]; intros b; [done|].
  cbn [keep_first_labels].
  destruct (IH true) as (T1 & T2 & T3), (IH false) as (F1 & F2 & F3).
  destruct ins; cbn [is_label]; try destruct b;
    cbn [jump_targets List.filter is_plain length];
    rewrite ?T1, ?T2, ?F1, ?F2; (split; [done|]); (split; [done|lia]).
Qed.

Lemma mapM_remap_plain label_map code code' :
  mapM (remap_instr label_map) code = Some code' ->
  label_names code' = label_names code
  /\ List.filter is_plain code' = List.filter is_plain code
  /\ length code' = length code.
Proof.
  intros H%mapM_Some_1.
  induction H as [|ins ins' rest rest' Hins _ (IH1 & IH2 & IH3)]; [done|].
  destruct ins; cbn in Hins; simplify_option_eq;
    cbn [label_names List.filter is_plain length];
    by rewrite ?IH1, ?IH2, ?IH3.
Qed.

Lemma peephole_plain (code r : list BCInstr) :
  peephole code = Some r ->
  List.filter is_plain r = List.filter is_plain code
  /\ length r <= length code.
Proof.
  unfold peephole. intros H.
  destruct (collapse_out _ _ H) as [m Hm].
  destruct (mapM_remap_plain _ _ _ Hm) as (_ & M2 & M3).
  destruct (keep_first_labels_plain false
              (remove_jmp_to_next_label (remove_mov_self code))) as (_ & K2 & K3).
  destruct (remove_jmp_names (remove_mov_self code)) as (_ & _ & J3 & J4).
  destruct (remove_mov_self_names code) as (_ & _ & S3).
  split; [congruence|].
  assert (length (remove_mov_self code) <= length code)
    by apply List.filter_length_le.
  lia.
Qed.

(** X18.  [peephole] removes labels, jumps and
    self-moves, and rewrites the targets of jumps; every other
    instruction comes out as it went in, in its order, and the code
    gets no longer. *)
Theorem peephole_keeps_plain (code r : list BCInstr) :
  peephole code = Some r ->
  List.filter is_plain r = List.filter is_plain code
  /\ length r <= length code.
Proof. apply peephole_plain. Qed.

Lemma peephole_keeps_plain_witness :
  peephole if_without_else
  = Some [BIfFalse "1" "Lelse1"; BPrint "1"; BJmp "Lelse1"; BLabel "Lelse1"]
  /\ List.filter is_plain
       [BIfFalse "1" "Lelse1"; BPrint "1"; BJmp "Lelse1"; BLabel "Lelse1"]
     = List.filter is_plain if_without_else.
Proof.
  assert (peephole if_without_else
          = Some [BIfFalse "1" "Lelse1"; BPrint "1"; BJmp "Lelse1"; BLabel "Lelse1"])
    as H by reflexivity.
  split; [exact H|]. apply (peephole_keeps_plain _ _ H).
Defined.

(** *** Jump targets *)

(** What the first loop of [collapse_consecutive_labels] maintains,
    [pre] being the code read so far: a label read is kept or mapped,
    and what a label is mapped to, like the previous label, is kept. *)
Definition collapse_inv (pre : list BCInstr)
  (st : list BCInstr * gmap string string * option string) : Prop :=
  let '(out, label_map, prev_label) := st in
  (forall x, x ∈ label_names pre -> x ∈ label_names out \/ is_Some (label_map !! x))
  /\ (forall k v, label_map !! k = Some v -> v ∈ label_names out)
  /\ (forall p, prev_label = Some p -> p ∈ label_names out).

Lemma collapse_step_inv pre st ins :
  collapse_inv pre st -> collapse_inv (pre ++ [ins]) (collapse_step st ins).
Proof.
  destruct st as [[out m] prev]. intros (H1 & H2 & H3).
  assert (forall x, x ∈ label_names (pre ++ [ins]) ->
                    x ∈ label_names pre \/ x ∈ label_names [ins]) as Happ.
  { intros x. rewrite label_names_app. set_solver. }
  destruct ins; cbn [collapse_step];
    try (split; [|split]; [| |done];
         [intros x [Hx|Hx]%Happ; [|by apply elem_of_nil in Hx];
          destruct (H1 x Hx); [left|by right];
          rewrite label_names_app; set_solver
         |intros k v Hk; rewrite label_names_app;
          specialize (H2 k v Hk); set_solver]).
  destruct prev as [p|].
  - split; [|split].
    + intros x [Hx|Hx]%Happ.
      * destruct (H1 x Hx) as [|Hs]; [by left|]. right.
        destruct (decide (x = name)) as [->|Hne];
          [by rewrite lookup_insert_eq|by rewrite lookup_insert_ne].
      * right. cbn [label_names] in Hx. apply list_elem_of_singleton in Hx as ->.
        by rewrite lookup_insert_eq.
    + intros k v. destruct (decide (k = name)) as [->|Hne].
      * rewrite lookup_insert_eq. intros [= <-]. by apply H3.
      * rewrite lookup_insert_ne by done. apply H2.
    + done.
  - split; [|split].
    + intros x [Hx|Hx]%Happ.
      * destruct (H1 x Hx) as [|Hs]; [left|by right].
        rewrite label_names_app. set_solver.
      * left. rewrite label_names_app. set_solver.
    + intros k v Hk. rewrite label_names_app. specialize (H2 k v Hk). set_solver.
    + intros p [= <-]. rewrite label_names_app. cbn [label_names]. set_solver.
Qed.

Lemma collapse_fold_inv code : forall pre st,
  collapse_inv pre st ->
  collapse_inv (pre ++ code) (fold_left collapse_step code st).
Proof.
  induction code as [|ins rest IH]; intros pre st H; cbn [fold_left].
  - by rewrite app_nil_r.
  - replace (pre ++ ins :: rest) with ((pre ++ [ins]) ++ rest)
      by (by rewrite <- app_assoc).
    by apply IH, collapse_step_inv.
Qed.

(** A walk ends at its start or at a value of the map. *)
Lemma remap_loop_range label_map k name r :
  remap_loop label_map k name = Some r ->
  r = name \/ exists x, label_map !! x = Some r.
Proof.
  revert name. induction k as [|k IH]; intros name; cbn [remap_loop];
    destruct (label_map !! name) as [y|] eqn:E; try done;
    try (intros [= <-]; by left).
  intros H. destruct (IH y H) as [->|Hx]; [|by right].
  right. by exists name.
Qed.

Lemma mapM_remap_targets label_map code code' (P : string -> Prop) :
  mapM (remap_instr label_map) code = Some code' ->
  (forall t r, t ∈ jump_targets code -> remap label_map t = Some r -> P r) ->
  forall r, r ∈ jump_targets code' -> P r.
Proof.
  intros H%mapM_Some_1.
  induction H as [|ins ins' rest rest' Hins _ IH]; intros HP r Hr.
  { by apply elem_of_nil in Hr. }
  assert (forall r, r ∈ jump_targets rest' -> P r) as IH'.
  { apply IH. intros t r' Ht. apply HP.
    destruct ins; cbn [jump_targets]; set_solver. }
  destruct ins; cbn in Hins; simplify_option_eq; cbn [jump_targets] in Hr;
    try (by apply IH');
    apply elem_of_cons in Hr as [->|Hr]; try (by apply IH');
    (eapply HP; [|eassumption]); cbn [jump_targets]; set_solver.
Qed.

Lemma peephole_closed (code r : list BCInstr) :
  peephole code = Some r ->
  jump_targets code ⊆ label_names code ->
  jump_targets r ⊆ label_names r.
Proof.
  unfold peephole. intros H Hsub.
  set (c2 := remove_jmp_to_next_label (remove_mov_self code)) in *.
  assert (jump_targets c2 ⊆ label_names c2) as Hsub2.
  { subst c2.
    destruct (remove_jmp_names (remove_mov_self code)) as (J1 & J2 & _).
    destruct (remove_mov_self_names code) as (S1 & S2 & _).
    rewrite J1, S1. rewrite S2 in J2. set_solver. }
  clearbody c2. clear Hsub.
  unfold collapse_consecutive_labels in H.
  pose proof (collapse_fold_out c2 [] ∅ None) as Hout.
  pose proof (collapse_fold_inv c2 [] ([], ∅, None)) as Hinv.
  destruct (fold_left collapse_step c2 ([], ∅, None)) as [[out m] prev].
  cbn [fst app] in Hout.
  destruct Hinv as (H1 & H2 & _).
  { split; [|split]; [by intros x Hx%elem_of_nil|
                      by intros k v; rewrite lookup_empty|done]. }
  cbn [app] in H1.
  destruct (mapM_remap_plain _ _ _ H) as (Hnames & _).
  rewrite Hnames. intros t.
  apply (mapM_remap_targets m out r (fun t => t ∈ label_names out) H).
  intros t0 r0 Ht0 Hr0.
  assert (t0 ∈ label_names c2) as Hl.
  { apply Hsub2. subst out.
    by destruct (keep_first_labels_plain false c2) as (<- & _). }
  pose proof (remap_loop_end _ _ _ _ Hr0) as Hend.
  destruct (remap_loop_range _ _ _ _ Hr0) as [->|[x Hx]].
  - destruct (H1 t0 Hl) as [|Hs]; [done|]. rewrite Hend in Hs. by destruct Hs.
  - by apply (H2 x).
Qed.

(** X19.  [peephole] leaves no jump without
    its label: when every jump of the code goes to a label of the
    code, so does every jump of the result. *)
Theorem peephole_targets_defined (code r : list BCInstr) :
  peephole code = Some r ->
  jump_targets code ⊆ label_names code ->
  jump_targets r ⊆ label_names r.
Proof. apply peephole_closed. Qed.

Lemma peephole_targets_defined_witness :
  peephole if_without_else
  = Some [BIfFalse "1" "Lelse1"; BPrint "1"; BJmp "Lelse1"; BLabel "Lelse1"]
  /\ jump_targets if_without_else ⊆ label_names if_without_else
  /\ jump_targets [BIfFalse "1" "Lelse1"; BPrint "1"; BJmp "Lelse1"; BLabel "Lelse1"]
     ⊆ label_names [BIfFalse "1" "Lelse1"; BPrint "1"; BJmp "Lelse1"; BLabel "Lelse1"].
Proof.
  assert (peephole if_without_else
          = Some [BIfFalse "1" "Lelse1"; BPrint "1"; BJmp "Lelse1"; BLabel "Lelse1"])
    as H by reflexivity.
  assert (jump_targets if_without_else ⊆ label_names if_without_else) as Hs
    by (cbn; set_solver).
  split; [exact H|]. split; [exact Hs|].
  exact (peephole_targets_defined _ _ H Hs).
Defined.

(** *** Termination *)

(** With labels of distinct names, a label is mapped to a label that is
    not mapped itself. *)
Definition flat_inv (pre : list BCInstr)
  (st : list BCInstr * gmap string string * option string) : Prop :=
  let '(_, label_map, prev_label) := st in
  (forall k, is_Some (label_map !! k) -> k ∈ label_names pre)
  /\ (forall k v, label_map !! k = Some v ->
        v ∈ label_names pre /\ label_map !! v = None)
  /\ (forall p, prev_label = Some p ->
        p ∈ label_names pre /\ label_map !! p = None).

Lemma collapse_step_flat pre st ins :
  NoDup (label_names (pre ++ [ins])) ->
  flat_inv pre st -> flat_inv (pre ++ [ins]) (collapse_step st ins).
Proof.
  destruct st as [[out m] prev]. unfold flat_inv, collapse_step.
  rewrite label_names_app. intros Hnd (H1 & H2 & H3).
  destruct ins; cbn [label_names] in *;
    rewrite ?app_nil_r in *; try done.
  apply NoDup_app in Hnd as (_ & Hnew & _).
  assert (name ∉ label_names pre) as Hname.
  { intros Hin. apply (Hnew name Hin). by left. }
  assert (m !! name = None) as Hm.
  { destruct (m !! name) eqn:E; [|done]. destruct Hname. apply H1. by eexists. }
  assert (forall x, x ∈ label_names pre -> x ∈ label_names pre ++ [name]) as Hl
    by (intros x Hx; apply elem_of_app; by left).
  assert (name ∈ label_names pre ++ [name]) as Hr
    by (apply elem_of_app; right; by left).
  destruct prev as [p|].
  - destruct (H3 p eq_refl) as [Hp Hmp].
    assert (p <> name) as Hpn by (by intros ->).
    split; [|split].
    + intros k. destruct (decide (k = name)) as [->|Hne]; [by intros _|].
      rewrite lookup_insert_ne by done. intros Hk%H1. by apply Hl.
    + intros k v. destruct (decide (k = name)) as [->|Hne].
      * rewrite lookup_insert_eq. intros [= <-].
        split; [by apply Hl|]. by rewrite lookup_insert_ne.
      * rewrite lookup_insert_ne by done. intros [Hv Hmv]%H2.
        split; [by apply Hl|]. rewrite lookup_insert_ne; [done|].
        by intros ->.
    + intros p' [= <-]. split; [by apply Hl|]. by rewrite lookup_insert_ne.
  - split; [|split].
    + intros k Hk%H1. by apply Hl.
    + intros k v [Hv Hmv]%H2. split; [by apply Hl|done].
    + intros p [= <-]. by split.
Qed.

Lemma collapse_fold_flat code : forall pre st,
  NoDup (label_names (pre ++ code)) ->
  flat_inv pre st ->
  flat_inv (pre ++ code) (fold_left collapse_step code st).
Proof.
  induction code as [|ins rest IH]; intros pre st Hnd H; cbn [fold_left].
  - by rewrite app_nil_r.
  - replace (pre ++ ins :: rest) with ((pre ++ [ins]) ++ rest) in *
      by (by rewrite <- app_assoc).
    apply IH; [done|]. apply collapse_step_flat; [|done].
    rewrite label_names_app in Hnd. by apply NoDup_app in Hnd as (? & _).
Qed.

Lemma mapM_remap_total label_map code :
  (forall name, is_Some (remap label_map name)) ->
  is_Some (mapM (remap_instr label_map) code).
Proof.
  intros Hr. apply mapM_is_Some, Forall_forall. intros ins _.
  unfold compose.
  destruct ins as [|l|c l| | | | | | | |]; cbn [remap_instr];
    try (by eexists); destruct (Hr l) as [r ->]; by eexists.
Qed.

Lemma peephole_total (code : list BCInstr) :
  NoDup (label_names code) -> is_Some (peephole code).
Proof.
  intros Hnd. unfold peephole.
  set (c2 := remove_jmp_to_next_label (remove_mov_self code)).
  assert (NoDup (label_names c2)) as Hnd2.
  { subst c2.
    destruct (remove_jmp_names (remove_mov_self code)) as (-> & _).
    by destruct (remove_mov_self_names code) as (-> & _). }
  clearbody c2. unfold collapse_consecutive_labels.
  pose proof (collapse_fold_flat c2 [] ([], ∅, None) Hnd2) as Hinv.
  destruct (fold_left collapse_step c2 ([], ∅, None)) as [[out m] prev].
  destruct Hinv as (_ & H2 & _).
  { split; [|split]; [by intros k [v Hk]; rewrite lookup_empty in Hk|
                      by intros k v; rewrite lookup_empty|done]. }
  apply mapM_remap_total. intros name.
  assert (is_Some (remap_loop m 1 name)) as [r Hr].
  { cbn [remap_loop]. destruct (m !! name) as [v|] eqn:E; [|by eexists].
    destruct (H2 _ _ E) as [_ ->]. by eexists. }
  exists r. by apply (remap_loop_fuel m 1).
Qed.

(** X20.  On code whose labels bear distinct names
    the loop of [remap] ends, and [peephole] returns. *)
Theorem peephole_returns (code : list BCInstr) :
  NoDup (label_names code) -> is_Some (peephole code).
Proof. apply peephole_total. Qed.

Lemma peephole_returns_witness :
  NoDup (label_names if_without_else) /\ is_Some (peephole if_without_else).
Proof.
  assert (NoDup (label_names if_without_else)) as H.
  { cbn. apply NoDup_cons. split; [set_solver|]. apply NoDup_singleton. }
  split; [exact H|]. exact (peephole_returns if_without_else H).
Defined.

(** Labels that bear one name can close the map on itself: the loop of
    [remap] then runs for ever. *)
Example peephole_loops_on_repeated_labels :
  peephole [BLabel "A"; BLabel "B"; BPrint "1"; BLabel "B"; BLabel "A"; BJmp "A"]
  = None.
Proof. reflexivity. Qed.

(** X21.  The result of
    [collapse_consecutive_labels] has no label next to a label, and a
    second run returns it as it is. *)
Theorem collapse_fixed_point (code r : list BCInstr) :
  collapse_consecutive_labels code = Some r ->
  no_adjacent_labels false r = true
  /\ collapse_consecutive_labels r = Some r.
Proof.
  intros H. split; [|by eapply collapse_collapse].
  destruct (collapse_out _ _ H) as [m Hm].
  rewrite (mapM_remap_no_adjacent _ _ _ false Hm).
  apply keep_first_labels_no_adjacent.
Qed.

Lemma collapse_fixed_point_witness :
  collapse_consecutive_labels if_without_else
  = Some [BIfFalse "1" "Lelse1"; BPrint "1"; BJmp "Lelse1"; BLabel "Lelse1"]
  /\ collapse_consecutive_labels
       [BIfFalse "1" "Lelse1"; BPrint "1"; BJmp "Lelse1"; BLabel "Lelse1"]
     = Some [BIfFalse "1" "Lelse1"; BPrint "1"; BJmp "Lelse1"; BLabel "Lelse1"].
Proof.
  assert (collapse_consecutive_labels if_without_else
          = Some [BIfFalse "1" "Lelse1"; BPrint "1"; BJmp "Lelse1"; BLabel "Lelse1"])
    as H by reflexivity.
  split; [exact H|]. apply (collapse_fixed_point _ _ H).
Defined.

(** X22.  The walk of [remap] ends exactly when it
    ends within as many rounds as the map has entries. *)
Theorem remap_fuel_adequate (label_map : gmap string string) (name r : string) :
  remap label_map name = Some r
  <-> exists k, remap_loop label_map k name = Some r.
Proof.
  split; [intros H; by exists (size label_map)|].
  intros [k H]. by eapply remap_loop_fuel.
Qed.

End Peephole_facts.

(** ** Facts about the virtual machine *)

Module VM_facts.
Import Codegen VM.

(** The instruction [step] fetches, when it fetches one. *)
Definition fetch (vm : VM) : option BCInstr :=
  if (n vm <=? pc vm)%nat then None else code vm !! pc vm.

(** The state once the program counter has moved past the instruction. *)
Definition next (vm : VM) : VM := with_pc vm (S (pc vm)).

Definition known_unary (op : string) : bool := in_list op ["!"; "+"; "-"].

Definition is_finite (v : float) : bool := Py.is_ok (Py.int_of_float v).

(** The operators of [BIN] on operands where Python computes a value. *)
Definition safe_binary (op : string) (a b : float) : bool :=
  in_list op ["+"; "-"; "*"; "<"; "<="; ">"; ">="; "=="; "!="; "&&"; "||"]
  || (String.eqb op "/" && negb (PrimFloat.eqb b 0%float))
  || (String.eqb op "%" && is_finite a &&
      match Py.int_of_float b with
      | Ok y => negb (y =? 0)%Z
      | Raise _ => false
      end).

Section Machine.
Variable py_float : string -> option float.
Variable py_repr : float -> string.

Local Abbreviation step := (VM.step py_float py_repr).
Local Abbreviation _get := (VM._get py_float).

Lemma fetch_Some vm ins :
  fetch vm = Some ins ->
  (n vm <=? pc vm)%nat = false /\ code vm !! pc vm = Some ins.
Proof. unfold fetch. by destruct (n vm <=? pc vm)%nat. Qed.

Lemma get_next vm x : _get (next vm) x = _get vm x.
Proof. reflexivity. Qed.

Lemma unary_known op a :
  known_unary op = true -> exists v, unary op a = Ok v.
Proof.
  unfold known_unary, unary, in_list. simpl.
  destruct (String.eqb_spec op "!") as [->|]; [by eexists|].
  destruct (String.eqb_spec op "+") as [->|]; [by eexists|].
  destruct (String.eqb_spec op "-") as [->|]; [by eexists|].
  done.
Qed.

Lemma unary_raises op a e :
  unary op a = Raise e -> known_unary op = false.
Proof.
  intros H. destruct (known_unary op) eqn:E; [|done].
  destruct (unary_known op a E) as [v Hv]. congruence.
Qed.

Lemma binary_safe op a b :
  safe_binary op a b = true -> exists v, binary op a b = Ok v.
Proof.
  unfold safe_binary, binary, in_list. simpl.
  repeat match goal with
         | |- context [String.eqb op ?s] =>
             destruct (String.eqb_spec op s) as [->|]; simpl;
             [try (by eexists)|]
         end; try done.
  - unfold Py.truediv. rewrite orb_false_r.
    intros ->%negb_true_iff. by eexists.
  - unfold is_finite. destruct (Py.int_of_float a) as [x|]; [|done]. simpl.
    destruct (Py.int_of_float b) as [y|]; [|done]. simpl.
    unfold Py.int_mod. intros ->%negb_true_iff. by eexists.
Qed.

Lemma binary_raises op a b e :
  binary op a b = Raise e -> safe_binary op a b = false.
Proof.
  intros H. destruct (safe_binary op a b) eqn:E; [|done].
  destruct (binary_safe op a b E) as [v Hv]. congruence.
Qed.

(** An error of [step] comes from the operator of a [UNARY] or from the
    operator or the operands of a [BIN]. *)
Definition arithmetic_fault (vm : VM) : Prop :=
  (exists dst op src,
      fetch vm = Some (BUnary dst op src) /\ known_unary op = false)
  \/ (exists dst op l r,
         fetch vm = Some (BBin dst op l r)
         /\ safe_binary op (_get vm l) (_get vm r) = false).

Lemma step_raises vm e :
  n vm <= length (code vm) -> step vm = Raise e -> arithmetic_fault vm.
Proof.
  intros Hn. unfold VM.step, arithmetic_fault, fetch.
  destruct (n vm <=? pc vm)%nat eqn:Hpc; [done|].
  apply Nat.leb_gt in Hpc.
  destruct (code vm !! pc vm) as [ins|] eqn:Hins.
  2:{ apply lookup_ge_None in Hins. lia. }
  destruct ins; cbn [Py.bind]; try done.
  - destruct (negb _); done.
  - destruct (unary op _) eqn:E; [done|]. intros _.
    left. do 3 eexists. split; [done|]. by eapply unary_raises.
  - destruct (binary op _ _) eqn:E; [done|]. intros _.
    right. do 4 eexists. split; [done|]. by eapply binary_raises.
  - by destruct (stack _).
  - by destruct (stack _).
  - by destruct (stack _).
  - by destruct (func_meta _ !! name).
Qed.

(** Errors surface only from [UNARY] and [BIN]; an unknown label or
    function and a missing variable surface none. *)
Lemma step_defensive (vm : VM) :
  n vm <= length (code vm) ->
  (forall e, step vm = Raise e -> arithmetic_fault vm)
  /\ (forall label,
         fetch vm = Some (BJmp label) -> labels vm !! label = None ->
         step vm = Ok (next vm, true))
  /\ (forall cond label,
         fetch vm = Some (BIfFalse cond label) -> labels vm !! label = None ->
         step vm = Ok (next vm, true))
  /\ (forall dst name args,
         fetch vm = Some (BCall dst name args) -> func_meta vm !! name = None ->
         step vm = Ok (next vm, true))
  /\ (forall x,
         py_float x = None -> cur_env vm !! x = None ->
         global_env vm !! x = None -> _get vm x = 0%float)
  /\ (forall dst op src,
         fetch vm = Some (BUnary dst op src) -> known_unary op = true ->
         exists v, VM.unary op (_get vm src) = Ok v
                   /\ step vm = Ok (_set (next vm) dst v, true))
  /\ (forall dst op l r,
         fetch vm = Some (BBin dst op l r) ->
         safe_binary op (_get vm l) (_get vm r) = true ->
         exists v, VM.binary op (_get vm l) (_get vm r) = Ok v
                   /\ step vm = Ok (_set (next vm) dst v, true)).
Proof.
  intros Hn. split; [intros e; by apply step_raises|].
  repeat split.
  - intros label [Hpc Hins]%fetch_Some Hl. unfold VM.step.
    rewrite Hpc, Hins. simpl. by rewrite Hl.
  - intros cond label [Hpc Hins]%fetch_Some Hl. unfold VM.step.
    rewrite Hpc, Hins. simpl. rewrite Hl. by destruct (negb _).
  - intros dst name args [Hpc Hins]%fetch_Some Hf. unfold VM.step.
    rewrite Hpc, Hins. simpl. by rewrite Hf.
  - intros x Hx He Hg. unfold VM._get, _parse_num. by rewrite Hx, He, Hg.
  - intros dst op src [Hpc Hins]%fetch_Some Hop. unfold VM.step.
    rewrite Hpc, Hins. simpl.
    destruct (unary_known op (_get vm src) Hop) as [v Hv].
    exists v. split; [done|].
    change (VM._get py_float (with_pc vm (S (pc vm))) src) with (_get vm src).
    by rewrite Hv.
  - intros dst op l r [Hpc Hins]%fetch_Some Hop. unfold VM.step.
    rewrite Hpc, Hins. simpl.
    destruct (binary_safe op _ _ Hop) as [v Hv].
    exists v. split; [done|].
    change (VM._get py_float (with_pc vm (S (pc vm))) l) with (_get vm l).
    change (VM._get py_float (with_pc vm (S (pc vm))) r) with (_get vm r).
    by rewrite Hv.
Qed.

(** *** CALL *)

Lemma bind_params_take ps vals d :
  length ps <= length vals ->
  bind_params ps vals d = bind_params ps (take (length ps) vals) d.
Proof.
  revert vals d. induction ps as [|p ps IH]; intros vals d H; simpl; [done|].
  destruct vals as [|v vals]; simpl in *; [lia|]. apply IH. lia.
Qed.

Lemma bind_params_dom ps vals d :
  dom (bind_params ps vals d) = list_to_set ps ∪ dom d.
Proof.
  revert vals d. induction ps as [|p ps IH]; intros vals d; simpl.
  - set_solver.
  - destruct vals as [|v vals]; rewrite IH, dom_insert_L; set_solver.
Qed.

Lemma bind_params_not_in ps vals d p :
  p ∉ ps -> bind_params ps vals d !! p = d !! p.
Proof.
  revert vals d. induction ps as [|q ps IH]; intros vals d H; simpl; [done|].
  apply not_elem_of_cons in H as [Hne H].
  destruct vals as [|v vals]; rewrite IH by done; by rewrite lookup_insert_ne.
Qed.

(** A parameter is bound to the value at its last position. *)
Lemma bind_params_lookup ps vals d i p :
  ps !! i = Some p ->
  (forall j, i < j -> ps !! j <> Some p) ->
  bind_params ps vals d !! p = Some (default 0%float (vals !! i)).
Proof.
  revert vals d i. induction ps as [|q ps IH]; intros vals d i Hi Hlast; [done|].
  destruct i as [|i]; simpl in *.
  - injection Hi as ->.
    assert (p ∉ ps) as Hnot.
    { intros [j Hj]%list_elem_of_lookup. by apply (Hlast (S j)); [lia|]. }
    destruct vals as [|v vals]; simpl;
      rewrite bind_params_not_in by done; by rewrite lookup_insert_eq.
  - assert (forall j, i < j -> ps !! j <> Some p) as Hlast'.
    { intros j Hj. apply (Hlast (S j)). lia. }
    destruct vals as [|v vals]; simpl.
    + rewrite (IH [] _ i) by done. done.
    + by rewrite (IH vals _ i).
Qed.

(** C9.  A [CALL] with more arguments than parameters raises no error
    and enters the function.  Every argument operand is read in the
    caller's environment: a numeral is its number, another operand is
    what the caller's current environment, else the globals, hold for
    it, else [0].  The fresh environment binds the parameters, in
    order, to the first values and holds no other binding; the surplus
    values are not used. *)
Theorem call_surplus_args (vm : VM) dst name args meta :
  fetch vm = Some (BCall dst name args) ->
  func_meta vm !! name = Some meta ->
  length (params meta) < length args ->
  let value (a : string) :=
    match py_float a with
    | Some w => w
    | None =>
        match cur_env vm !! a with
        | Some w => w
        | None => default 0%float (global_env vm !! a)
        end
    end in
  let fresh := bind_params (params meta)
                 (map value (take (length (params meta)) args)) ∅ in
  step vm
  = Ok (mkVM (code vm) (labels vm) (func_meta vm) (start meta + 1) (n vm)
             (mkFrame (env vm) (S (pc vm)) dst :: stack vm)
             (global_env vm) (ELocal fresh) (output vm), true)
  /\ dom fresh = list_to_set (params meta)
  /\ (forall i p a,
         params meta !! i = Some p ->
         (forall j, i < j -> params meta !! j <> Some p) ->
         args !! i = Some a ->
         fresh !! p = Some (value a)).
Proof.
  intros [Hpc Hins]%fetch_Some Hmeta Hlen value fresh.
  assert (map (_get vm) args = map value args) as Hvals by reflexivity.
  assert (bind_params (params meta) (map (_get vm) args) ∅ = fresh) as Hfresh.
  { rewrite Hvals, bind_params_take by (rewrite length_map; lia).
    unfold fresh. by rewrite <- fmap_take. }
  split; [|split].
  - unfold VM.step. rewrite Hpc, Hins. cbn [func_meta with_pc]. rewrite Hmeta.
    cbv zeta. change (VM._get py_float (with_pc vm (S (pc vm)))) with (_get vm).
    by rewrite Hfresh.
  - unfold fresh. rewrite bind_params_dom. set_solver.
  - intros i p a Hp Hlast Ha. rewrite <- Hfresh, Hvals.
    rewrite (bind_params_lookup _ _ _ i) by done.
    by rewrite list_lookup_fmap, Ha.
Qed.

(** *** RET *)

(** C8.  [RET] under a call pops the frame: the machine goes on at the
    saved return pc with the caller's saved environment, in which the
    frame's destination, when it has one, holds the return value and
    nothing else has changed; neither have the globals (unless they are
    the caller's environment), the output or the program.  The return
    value is [0] for a [RET] without operand; else it is the operand
    read where the [RET] stands: its number for a numeral, else what
    the callee's environment, else the globals, hold for it, else [0].
    [RET] outside any call stops the machine and prints nothing. *)
Theorem ret_frame_effect (vm : VM) value :
  fetch vm = Some (BRet value) ->
  let ret_val :=
    match value with
    | Some x =>
        match py_float x with
        | Some w => w
        | None =>
            match cur_env vm !! x with
            | Some w => w
            | None => default 0%float (global_env vm !! x)
            end
        end
    | None => 0%float
    end in
  match stack vm with
  | [] =>
      step vm = Ok (with_pc vm (n vm), false)
      /\ (forall fuel, run_loop py_float py_repr (S fuel) vm
                       = Some (Ok (with_pc vm (n vm))))
      /\ output (with_pc vm (n vm)) = output vm
  | frame :: rest =>
      exists vm',
        step vm = Ok (vm', true)
        /\ pc vm' = ret_pc frame
        /\ stack vm' = rest
        /\ output vm' = output vm
        /\ env vm'
           = match frame_env frame, ret_dst frame with
             | ELocal d, Some dst => ELocal (<[dst := ret_val]> d)
             | r, _ => r
             end
        /\ cur_env vm'
           = match ret_dst frame with
             | Some dst => <[dst := ret_val]> (deref vm (frame_env frame))
             | None => deref vm (frame_env frame)
             end
        /\ global_env vm'
           = match frame_env frame with
             | EGlobal => cur_env vm'
             | ELocal _ => global_env vm
             end
        /\ (code vm', labels vm', func_meta vm', n vm')
           = (code vm, labels vm, func_meta vm, n vm)
  end.
Proof.
  intros [Hpc Hins]%fetch_Some ret_val.
  destruct (stack vm) as [|frame rest] eqn:Hstack.
  - assert (step vm = Ok (with_pc vm (n vm), false)) as Hstep.
    { unfold VM.step. rewrite Hpc, Hins. simpl. by rewrite Hstack. }
    split; [done|]. split; [|done].
    intros fuel. cbn [run_loop]. by rewrite Hstep.
  - eexists. split.
    { unfold VM.step. rewrite Hpc, Hins. simpl. rewrite Hstack. reflexivity. }
    unfold do_return.
    destruct frame as [fenv fpc [dst|]], fenv as [|d]; simpl; repeat split;
      destruct value; reflexivity.
Qed.

End Machine.

(** [BIN t, /, 1, 0] stops the machine with [ZeroDivisionError], and so
    does [%] with a zero divisor; an operator the machine does not know
    raises [RuntimeError]. *)
Lemma step_surfaces_errors :
  VM.run dec_float dec_repr 10 [BBin "t" "/" "1" "0"] = Some (Raise ZeroDivisionError)
  /\ VM.run dec_float dec_repr 10 [BBin "t" "%" "1" "0"] = Some (Raise ZeroDivisionError)
  /\ VM.run dec_float dec_repr 10 [BUnary "t" "~" "1"]
     = Some (Raise (RuntimeError "Unknown unary op ~")).
Proof. repeat split; vm_compute; reflexivity. Qed.

Lemma step_defensive_witness :
  n (VM.init [BJmp "nowhere"; BPrint "x"])
  <= length (code (VM.init [BJmp "nowhere"; BPrint "x"]))
  /\ VM.step dec_float dec_repr (VM.init [BJmp "nowhere"; BPrint "x"])
     = Ok (next (VM.init [BJmp "nowhere"; BPrint "x"]), true).
Proof.
  assert (n (VM.init [BJmp "nowhere"; BPrint "x"])
          <= length (code (VM.init [BJmp "nowhere"; BPrint "x"]))) as H
    by (simpl; lia).
  split; [exact H|].
  destruct (step_defensive dec_float dec_repr _ H) as (_ & Hjmp & _).
  apply (Hjmp "nowhere"); reflexivity.
Defined.

(** [f(n)] called with two arguments, then [RET] inside and outside it. *)
Definition surplus_call : VM :=
  VM.init [BFunc "f" ["n"]; BRet (Some "n"); BEndFunc "f";
           BCall (Some "r") "f" ["4"; "5"]; BRet None].

(** [a = 7; r = f(a, 5); print(r)] for a function [f(n)] that returns
    [n]. *)
Definition surplus_variable : list BCInstr :=
  [BFunc "f" ["n"]; BRet (Some "n"); BEndFunc "f";
   BMov "a" "7"; BCall (Some "r") "f" ["a"; "5"]; BPrint "r"; BRet None].

(** The machine in front of the [CALL], with [a] in the globals. *)
Definition before_call : VM :=
  mkVM surplus_variable ∅ {["f" := mkMeta 0 2 ["n"]]} 4 7 []
       {["a" := 7%float]} EGlobal [].

(** The machine inside the call, in front of [RET n]. *)
Definition inside_call : VM :=
  mkVM surplus_variable ∅ {["f" := mkMeta 0 2 ["n"]]} 1 7
       [mkFrame EGlobal 5 (Some "r")]
       {["a" := 7%float]} (ELocal {["n" := 7%float]}) [].

(** The machine back in the caller, in front of [PRINT r]. *)
Definition after_call : VM :=
  mkVM surplus_variable ∅ {["f" := mkMeta 0 2 ["n"]]} 5 7 []
       (<["r" := 7%float]> {["a" := 7%float]}) EGlobal [].

(** The machine in front of the last [RET], outside any call. *)
Definition at_last_ret : VM :=
  mkVM surplus_variable ∅ {["f" := mkMeta 0 2 ["n"]]} 6 7 []
       (<["r" := 7%float]> {["a" := 7%float]}) EGlobal ["7"].

(** These are the states of the run of that program. *)
Example surplus_variable_run :
  VM.step dec_float dec_repr (VM.init surplus_variable)
  = Ok (with_pc (VM.init surplus_variable) 3, true)
  /\ VM.step dec_float dec_repr (with_pc (VM.init surplus_variable) 3)
     = Ok (before_call, true)
  /\ VM.step dec_float dec_repr before_call = Ok (inside_call, true)
  /\ VM.step dec_float dec_repr inside_call = Ok (after_call, true)
  /\ VM.step dec_float dec_repr after_call = Ok (at_last_ret, true)
  /\ VM.run dec_float dec_repr 7 surplus_variable = Some (Ok "7").
Proof. repeat split; reflexivity. Qed.

Lemma call_surplus_args_witness :
  fetch before_call = Some (BCall (Some "r") "f" ["a"; "5"])
  /\ func_meta before_call !! "f" = Some (mkMeta 0 2 ["n"])
  /\ VM.step dec_float dec_repr before_call = Ok (inside_call, true).
Proof.
  split; [reflexivity|]. split; [reflexivity|].
  apply (call_surplus_args dec_float dec_repr before_call
           (Some "r") "f" ["a"; "5"] (mkMeta 0 2 ["n"]));
    [reflexivity | reflexivity | simpl; lia].
Defined.

Lemma ret_frame_effect_witness :
  (fetch inside_call = Some (BRet (Some "n"))
   /\ exists vm',
        VM.step dec_float dec_repr inside_call = Ok (vm', true)
        /\ pc vm' = 5
        /\ stack vm' = []
        /\ output vm' = []
        /\ env vm' = EGlobal
        /\ cur_env vm' = <["r" := 7%float]> {["a" := 7%float]}
        /\ global_env vm' = cur_env vm'
        /\ (code vm', labels vm', func_meta vm', n vm')
           = (code inside_call, labels inside_call, func_meta inside_call,
              n inside_call))
  /\ (fetch at_last_ret = Some (BRet None)
      /\ VM.step dec_float dec_repr at_last_ret
         = Ok (with_pc at_last_ret 7, false)
      /\ (forall fuel, run_loop dec_float dec_repr (S fuel) at_last_ret
                       = Some (Ok (with_pc at_last_ret 7)))
      /\ output (with_pc at_last_ret 7) = ["7"]).
Proof.
  split.
  - split; [reflexivity|].
    apply (ret_frame_effect dec_float dec_repr inside_call (Some "n")).
    reflexivity.
  - split; [reflexivity|].
    apply (ret_frame_effect dec_float dec_repr at_last_ret None).
    reflexivity.
Defined.

(** The whole run: the call returns [4] into [r]. *)
Example surplus_call_run :
  match run_loop dec_float dec_repr 10 surplus_call with
  | Some (Ok vm) => (global_env vm !! "r", output vm) = (Some 4%float, [])
  | _ => False
  end.
Proof. vm_compute. reflexivity. Qed.

(** *** The index *)

(** The index of the last [name:] of [code], counted from [i]. *)
Fixpoint last_label (name : string) (i : nat) (code : list BCInstr) : option nat :=
  match code with
  | [] => None
  | ins :: rest =>
      match last_label name (S i) rest with
      | Some j => Some j
      | None =>
          match ins with
          | BLabel name' => if String.eqb name' name then Some i else None
          | _ => None
          end
      end
  end.

Lemma index_step_labels st i ins name :
  (index_step st i ins).1.1 !! name
  = match ins with
    | BLabel name' => if String.eqb name' name then Some i else st.1.1 !! name
    | _ => st.1.1 !! name
    end.
Proof.
  destruct st as [[L F] S].
  destruct ins as [name'| | | | | | | | | |]; cbn [index_step fst]; try done.
  - destruct (String.eqb_spec name' name) as [->|Hne].
    + by rewrite lookup_insert_eq.
    + by rewrite lookup_insert_ne.
  - by destruct S.
Qed.

Lemma index_from_labels code name : forall i st,
  (index_from i code st).1.1 !! name
  = match last_label name i code with
    | Some j => Some j
    | None => st.1.1 !! name
    end.
Proof.
  induction code as [|ins rest IH]; intros i st; [done|].
  cbn [index_from last_label]. rewrite IH, index_step_labels.
  destruct (last_label name (S i) rest); [done|].
  destruct ins as [name'| | | | | | | | | |]; try done.
  by destruct (String.eqb name' name).
Qed.

Lemma last_label_Some name code : forall i j,
  last_label name i code = Some j ->
  exists k, j = i + k /\ code !! k = Some (BLabel name)
            /\ forall k', k < k' -> code !! k' <> Some (BLabel name).
Proof.
  induction code as [|ins rest IH]; intros i j; [done|].
  cbn [last_label].
  destruct (last_label name (S i) rest) as [j'|] eqn:E.
  - intros [= ->]. destruct (IH _ _ E) as (k & -> & Hk & Hlast).
    exists (S k). split; [lia|]. split; [done|].
    intros [|k'] Hlt; [lia|]. apply Hlast. lia.
  - intros H. exists 0.
    assert (forall k, rest !! k <> Some (BLabel name)) as Hnone.
    { clear -E. revert i E. induction rest as [|x rest IH]; intros i E k; [done|].
      cbn [last_label] in E.
      destruct (last_label name (S (S i)) rest) eqn:E'; [done|].
      destruct k as [|k]; [|by apply (IH _ E')].
      cbn. intros [= ->]. by rewrite String.eqb_refl in E. }
    destruct ins as [name'| | | | | | | | | |]; try done.
    destruct (String.eqb_spec name' name) as [->|]; [|done].
    injection H as <-. split; [lia|]. split; [done|].
    intros [|k'] Hlt; [lia|]. apply Hnone.
Qed.

Lemma last_label_None name code : forall i,
  last_label name i code = None -> BLabel name ∉ code.
Proof.
  induction code as [|ins rest IH]; intros i H; [by intros ?%elem_of_nil|].
  cbn [last_label] in H.
  destruct (last_label name (S i) rest) eqn:E; [done|].
  apply not_elem_of_cons. split; [|by apply (IH _ E)].
  intros <-. by rewrite String.eqb_refl in H.
Qed.

Lemma index_last_label (code : list BCInstr) (name : string) :
  match (_index code).1 !! name with
  | Some i =>
      code !! i = Some (BLabel name)
      /\ forall j, i < j -> code !! j <> Some (BLabel name)
  | None => BLabel name ∉ code
  end.
Proof.
  unfold _index.
  pose proof (index_from_labels code name 0 (∅, ∅, [])) as H.
  cbn [fst] in H. rewrite lookup_empty in H.
  destruct (last_label name 0 code) as [j|] eqn:E; rewrite H.
  - destruct (last_label_Some _ _ _ _ E) as (k & -> & Hk & Hlast). done.
  - by apply (last_label_None _ _ 0).
Qed.

(** X23.  [_index] sends the name of a label to the
    place of its last occurrence in the code, and knows every label
    of the code. *)
Theorem index_labels (code : list BCInstr) (name : string) :
  match (_index code).1 !! name with
  | Some i =>
      code !! i = Some (BLabel name)
      /\ forall j, i < j -> code !! j <> Some (BLabel name)
  | None => BLabel name ∉ code
  end.
Proof. apply index_last_label. Qed.

Section Runs.
Variable py_float : string -> option float.
Variable py_repr : float -> string.

Local Abbreviation step := (VM.step py_float py_repr).
Local Abbreviation _get := (VM._get py_float).

(** *** Reading and writing *)

(** X24.  After [_set] a name reads as the value
    written, unless [float] reads the name as a number: then [_get]
    answers that number whatever was written.  Other names read as
    before. *)
Theorem get_after_set (vm : VM) (x y : string) (v : float) :
  _get (_set vm x v) y
  = match py_float y with
    | Some w => w
    | None => if String.eqb y x then v else _get vm y
    end.
Proof.
  unfold VM._get, _parse_num. destruct (py_float y) as [w|]; [done|].
  unfold _set, cur_env.
  destruct (env vm) as [|d]; cbn [deref env global_env with_env];
    (destruct (String.eqb_spec y x) as [->|Hne];
     [by rewrite lookup_insert_eq|by rewrite lookup_insert_ne]).
Qed.

(** *** What a step leaves alone *)

(** The code and what [_index] made of it. *)
Definition program (vm : VM)
  : list BCInstr * gmap string nat * gmap string FuncMeta * nat :=
  (code vm, labels vm, func_meta vm, n vm).

Lemma set_program vm x v :
  program (_set vm x v) = program vm /\ output (_set vm x v) = output vm
  /\ pc (_set vm x v) = pc vm.
Proof. unfold _set. by destruct (env vm). Qed.

Lemma do_return_program vm frame rest v :
  program (do_return vm frame rest v) = program vm
  /\ output (do_return vm frame rest v) = output vm
  /\ pc (do_return vm frame rest v) = ret_pc frame.
Proof.
  unfold do_return. destruct (ret_dst frame) as [dst|]; [|done].
  destruct (set_program (with_env (with_stack vm rest) (frame_env frame)) dst v)
    as (H1 & H2 & H3).
  unfold program in *. cbn [code labels func_meta n output pc with_pc] in *.
  by rewrite H2; injection H1 as -> -> -> ->.
Qed.

(** X25.  A step never touches the code or its
    index and never takes back output: it appends one line at most.
    When it answers [False] the program counter is at the end or past
    it, nothing was printed, and every later step answers [False] in
    the same state. *)
Theorem step_keeps_program (vm vm' : VM) (running : bool) :
  step vm = Ok (vm', running) ->
  program vm' = program vm
  /\ (exists lines, output vm' = output vm ++ lines /\ length lines <= 1)
  /\ (running = false ->
        n vm' <= pc vm' /\ output vm' = output vm /\ step vm' = Ok (vm', false)).
Proof.
  intros H. unfold VM.step in H. revert H.
  destruct (n vm <=? pc vm)%nat eqn:Hpc.
  { intros [= <- <-]. split; [done|]. split.
    - exists []. split; [by rewrite app_nil_r|cbn; lia].
    - intros _. apply Nat.leb_le in Hpc as Hle.
      split; [done|]. split; [done|]. unfold VM.step. by rewrite Hpc. }
  destruct (code vm !! pc vm) as [ins|]; [|done].
  assert (forall w : VM, program w = program vm -> output w = output vm ->
            program w = program vm
            /\ (exists lines, output w = output vm ++ lines /\ length lines <= 1)
            /\ (true = false ->
                n w <= pc w /\ output w = output vm
                /\ VM.step py_float py_repr w = Ok (w, false))) as Hsame.
  { intros w Hp Ho. split; [done|]. split; [|done].
    exists []. split; [by rewrite app_nil_r|cbn; lia]. }
  destruct ins as [name|label|cond label|dst src|dst op src|dst op l r
                   |value|value|name ps|name|dst name args];
    cbn [stack with_pc].
  - intros [= <- <-]. by apply Hsame.
  - intros [= <- <-]. by apply Hsame.
  - destruct (negb _); intros [= <- <-]; by apply Hsame.
  - intros [= <- <-].
    destruct (set_program (with_pc vm (S (pc vm))) dst
                (_get (with_pc vm (S (pc vm))) src)) as (H1 & H2 & _).
    by apply Hsame.
  - destruct (unary op _) as [v|e]; [|done]. cbn [Py.bind]. intros [= <- <-].
    destruct (set_program (with_pc vm (S (pc vm))) dst v) as (H1 & H2 & _).
    by apply Hsame.
  - destruct (binary op _ _) as [v|e]; [|done]. cbn [Py.bind]. intros [= <- <-].
    destruct (set_program (with_pc vm (S (pc vm))) dst v) as (H1 & H2 & _).
    by apply Hsame.
  - intros [= <- <-]. split; [done|]. split; [|done].
    eexists [_]. split; [done|]. cbn. lia.
  - destruct (stack vm) as [|frame rest].
    + intros [= <- <-]. split; [done|]. split.
      * exists []. split; [by rewrite app_nil_r|cbn; lia].
      * intros _. cbn [n pc with_pc output]. split; [done|]. split; [done|].
        unfold VM.step. cbn [n pc with_pc]. by rewrite Nat.leb_refl.
    + intros [= <- <-].
      match goal with |- context [do_return ?w ?f ?r ?v] =>
        destruct (do_return_program w f r v) as (H1 & H2 & _) end.
      by apply Hsame.
  - destruct (stack vm); intros [= <- <-]; by apply Hsame.
  - destruct (stack vm) as [|frame rest]; intros [= <- <-]; [by apply Hsame|].
    match goal with |- context [do_return ?w ?f ?r ?v] =>
      destruct (do_return_program w f r v) as (H1 & H2 & _) end.
    by apply Hsame.
  - change (func_meta (with_pc vm (S (pc vm)))) with (func_meta vm).
    destruct (func_meta vm !! name) as [meta|];
      intros [= <- <-]; by apply Hsame.
Qed.

(** *** Call and return *)

(** X26.  A call of a function whose body starts
    with [RET x] is, after two steps, a write to the caller's
    destination: [x] is read in the environment of the call, which
    binds the parameters only, and from the globals; the caller's
    environment, stack and output are those of before. *)
Theorem call_then_return (vm : VM) (dst name x : string) (args : list string)
    (meta : FuncMeta) :
  fetch vm = Some (BCall (Some dst) name args) ->
  func_meta vm !! name = Some meta ->
  start meta + 1 < n vm ->
  code vm !! (start meta + 1) = Some (BRet (Some x)) ->
  let fresh := bind_params (params meta) (map (_get vm) args) ∅ in
  let ret_val := match py_float x with
                 | Some w => w
                 | None =>
                     match fresh !! x with
                     | Some w => w
                     | None => default 0%float (global_env vm !! x)
                     end
                 end in
  exists vm1,
    step vm = Ok (vm1, true)
    /\ step vm1 = Ok (_set (next vm) dst ret_val, true).
Proof.
  intros [Hpc Hins]%fetch_Some Hmeta Hlt Hret fresh ret_val.
  eexists. split.
  { unfold VM.step. rewrite Hpc, Hins. cbn [func_meta with_pc]. rewrite Hmeta.
    reflexivity. }
  unfold VM.step. cbn [n pc code with_pc with_env with_stack].
  assert ((n vm <=? start meta + 1)%nat = false) as -> by (apply Nat.leb_gt; lia).
  rewrite Hret. cbn [stack with_pc with_env with_stack].
  unfold do_return, _set, next. cbn. by destruct (env vm).
Qed.
End Runs.

Lemma call_then_return_witness :
  fetch (with_pc surplus_call 3) = Some (BCall (Some "r") "f" ["4"; "5"])
  /\ func_meta surplus_call !! "f" = Some (mkMeta 0 2 ["n"])
  /\ exists vm1,
       VM.step dec_float dec_repr (with_pc surplus_call 3) = Ok (vm1, true)
       /\ VM.step dec_float dec_repr vm1
          = Ok (_set (with_pc surplus_call 4) "r" 4%float, true).
Proof.
  split; [reflexivity|]. split; [reflexivity|].
  apply (call_then_return dec_float dec_repr (with_pc surplus_call 3)
           "r" "f" "n" ["4"; "5"] (mkMeta 0 2 ["n"]));
    [reflexivity | reflexivity | simpl; lia | reflexivity].
Defined.

Lemma step_keeps_program_witness :
  VM.step dec_float dec_repr (with_pc surplus_call 4)
  = Ok (with_pc surplus_call 5, false)
  /\ program (with_pc surplus_call 5) = program (with_pc surplus_call 4).
Proof.
  assert (VM.step dec_float dec_repr (with_pc surplus_call 4)
          = Ok (with_pc surplus_call 5, false)) as H by reflexivity.
  split; [exact H|].
  apply (step_keeps_program dec_float dec_repr _ _ _ H).
Defined.

(** *** Function bodies at the top level *)

Definition is_func_mark (ins : BCInstr) : bool :=
  match ins with
  | BFunc _ _ | BEndFunc _ => true
  | _ => false
  end.

Definition is_func_named (name : string) (ins : BCInstr) : bool :=
  match ins with
  | BFunc name' _ => String.eqb name' name
  | _ => false
  end.

Lemma index_from_app l1 l2 : forall i st,
  index_from i (l1 ++ l2) st = index_from (i + length l1) l2 (index_from i l1 st).
Proof.
  induction l1 as [|ins l1 IH]; intros i st; cbn [app index_from length].
  - by rewrite Nat.add_0_r.
  - rewrite IH. f_equal. lia.
Qed.

(** Code without function marks leaves [func_meta] and the stack of
    open functions alone. *)
Lemma index_from_body body : forall i st,
  forallb (fun ins => negb (is_func_mark ins)) body = true ->
  (index_from i body st).1.2 = st.1.2 /\ (index_from i body st).2 = st.2.
Proof.
  induction body as [|ins body IH]; intros i [[L F] FS] H; [done|].
  cbn [forallb] in H. apply andb_true_iff in H as [Hi H].
  cbn [index_from]. destruct (IH (S i) (index_step (L, F, FS) i ins) H)
    as [-> ->].
  by destruct ins.
Qed.

(** Code that does not open [name] leaves its entry alone, when [name]
    is not open. *)
Lemma index_from_other name code : forall i st,
  forallb (fun ins => negb (is_func_named name ins)) code = true ->
  name ∉ st.2 ->
  (index_from i code st).1.2 !! name = st.1.2 !! name
  /\ name ∉ (index_from i code st).2.
Proof.
  induction code as [|ins code IH]; intros i [[L F] FS] H Hn; [done|].
  cbn [forallb] in H. apply andb_true_iff in H as [Hi H].
  cbn [index_from fst snd] in *.
  assert ((index_step (L, F, FS) i ins).1.2 !! name = F !! name
          /\ name ∉ (index_step (L, F, FS) i ins).2) as [HF HS].
  { destruct ins as [| | | | | | | |name' ps|nm|]; cbn [index_step fst snd];
      try done.
    - cbn [is_func_named] in Hi.
      destruct (String.eqb_spec name' name) as [|Hne]; [done|].
      split; [by rewrite lookup_insert_ne|].
      apply not_elem_of_cons. split; [by intros ->|done].
    - destruct FS as [|top FS']; [done|]. cbn [fst snd].
      apply not_elem_of_cons in Hn as [Hne Hn].
      split; [by rewrite lookup_alter_ne|done]. }
  destruct (IH (S i) (index_step (L, F, FS) i ins) H HS) as [-> Hs].
  by rewrite HF.
Qed.

(** The entry [_index] makes for a function that the code opens once
    and whose body holds no function mark: from its [FUNC] to the next
    [ENDFUNC], whatever name that one bears. *)
Lemma index_func_meta pre name ps body nm post :
  forallb (fun ins => negb (is_func_mark ins)) body = true ->
  forallb (fun ins => negb (is_func_named name ins)) (pre ++ post) = true ->
  (_index (pre ++ BFunc name ps :: body ++ BEndFunc nm :: post)).2 !! name
  = Some (mkMeta (length pre) (length pre + length body + 1) ps).
Proof.
  intros Hbody Hother. rewrite forallb_app in Hother.
  apply andb_true_iff in Hother as [Hpre Hpost].
  unfold _index. rewrite index_from_app. cbn [index_from Nat.add].
  destruct (index_from_other name pre 0 (∅, ∅, []) Hpre) as [_ Hs1];
    [by intros ?%elem_of_nil|].
  destruct (index_from 0 pre (∅, ∅, [])) as [[L1 F1] S1]. cbn [snd] in Hs1.
  cbn [index_step]. rewrite index_from_app. cbn [index_from].
  destruct (index_from_body body (S (length pre))
              (L1, <[name := mkMeta (length pre) (length pre) ps]> F1, name :: S1)
              Hbody) as [HF HS].
  destruct (index_from (S (length pre)) body _) as [[L2 F2] S2].
  cbn [fst snd] in HF, HS. subst F2 S2. cbn [index_step].
  match goal with |- (index_from ?i post ?st).1.2 !! name = _ =>
    destruct (index_from_other name post i st Hpost) as [-> _]; [done|] end.
  cbn [fst snd]. rewrite lookup_alter_eq, lookup_insert_eq. cbn.
  do 2 f_equal. lia.
Qed.

Section Skips.
Variable py_float : string -> option float.
Variable py_repr : float -> string.

(** X27.  Outside any call the machine steps over
    a function: at the [FUNC] of a function that the code opens once
    and whose body holds no function mark, one step leads behind the
    next [ENDFUNC], whatever name that one bears.  The entry of the
    function says where: a call enters behind the [FUNC]. *)
Theorem func_body_skipped (pre body post : list BCInstr) (name nm : string)
    (ps : list string) (vm : VM) :
  forallb (fun ins => negb (is_func_mark ins)) body = true ->
  forallb (fun ins => negb (is_func_named name ins)) (pre ++ post) = true ->
  program vm = program (VM.init (pre ++ BFunc name ps :: body ++ BEndFunc nm :: post)) ->
  pc vm = length pre ->
  stack vm = [] ->
  func_meta vm !! name
  = Some (mkMeta (length pre) (length pre + length body + 1) ps)
  /\ VM.step py_float py_repr vm
     = Ok (with_pc vm (length pre + length body + 2), true).
Proof.
  intros Hbody Hother Hprog Hpc Hstack.
  set (code := pre ++ BFunc name ps :: body ++ BEndFunc nm :: post) in *.
  pose proof (index_func_meta pre name ps body nm post Hbody Hother) as Hmeta.
  fold code in Hmeta.
  assert (program (VM.init code) = (code, (_index code).1, (_index code).2, length code))
    as Hinit by (unfold VM.init, program; by destruct (_index code)).
  rewrite Hinit in Hprog. unfold program in Hprog.
  injection Hprog as Hcode Hlabels Hfm Hn.
  assert (func_meta vm !! name
          = Some (mkMeta (length pre) (length pre + length body + 1) ps)) as Hm
    by (by rewrite Hfm).
  split; [done|]. unfold VM.step. rewrite Hn, Hpc, Hcode.
  assert ((length code <=? length pre)%nat = false) as ->.
  { apply Nat.leb_gt. subst code. rewrite length_app. cbn [length]. lia. }
  assert (code !! length pre = Some (BFunc name ps)) as ->
    by (subst code; by rewrite list_lookup_middle).
  cbn [stack with_pc func_meta]. rewrite Hstack, Hm. cbn [end_].
  unfold with_pc. cbn. do 2 f_equal. f_equal. lia.
Qed.
End Skips.

Lemma func_body_skipped_witness :
  program surplus_call
  = program (VM.init ([] ++ BFunc "f" ["n"] :: [BRet (Some "n")]
                      ++ BEndFunc "f" :: [BCall (Some "r") "f" ["4"; "5"]; BRet None]))
  /\ VM.step dec_float dec_repr surplus_call = Ok (with_pc surplus_call 3, true).
Proof.
  split; [reflexivity|].
  apply (func_body_skipped dec_float dec_repr [] [BRet (Some "n")]
           [BCall (Some "r") "f" ["4"; "5"]; BRet None] "f" "f" ["n"] surplus_call);
    reflexivity.
Defined.

End VM_facts.

(** ** Facts about the stages together *)

Module Pipeline_facts.
Import Ast IR Optimizer Codegen Peephole VM.
Import IR_facts Optimizer_facts Peephole_facts VM_facts.

(** The instructions that act on the world or on the stack of calls. *)
Definition ir_effect (ins : IRInstr) : bool :=
  match ins with
  | PrintInstr _ | ReturnInstr _ | FuncStart _ _ | FuncEnd _ | CallInstr _ _ _ => true
  | _ => false
  end.

Definition is_effect (ins : BCInstr) : bool :=
  match ins with
  | BPrint _ | BRet _ | BFunc _ _ | BEndFunc _ | BCall _ _ _ => true
  | _ => false
  end.

Lemma filter_filter_sub {A} (p q : A -> bool) (l : list A) :
  (forall x, p x = true -> q x = true) ->
  List.filter p (List.filter q l) = List.filter p l.
Proof.
  intros Hpq. induction l as [|x l IH]; [done|]. cbn [List.filter].
  destruct (q x) eqn:Hq; cbn [List.filter]; rewrite IH; [done|].
  destruct (p x) eqn:Hp; [|done]. by rewrite (Hpq x Hp) in Hq.
Qed.

Lemma codegen_names (ir : list IRInstr) :
  label_names (codegen ir) = ir_labels ir
  /\ jump_targets (codegen ir) = ir_targets ir.
Proof.
  unfold codegen. induction ir as [|ins ir [IH1 IH2]]; [done|].
  destruct ins; cbn [map gen_instr label_names jump_targets ir_labels ir_targets];
    by rewrite IH1, IH2.
Qed.

Lemma codegen_effects (ir : list IRInstr) :
  List.filter is_effect (codegen ir) = codegen (List.filter ir_effect ir).
Proof.
  unfold codegen. induction ir as [|ins ir IH]; [done|].
  destruct ins; cbn [map gen_instr List.filter is_effect ir_effect]; by rewrite IH.
Qed.

Lemma skeleton_names (l : list IRInstr) :
  ir_labels (List.filter defines_nothing l) = ir_labels l
  /\ ir_targets (List.filter defines_nothing l) = ir_targets l.
Proof.
  induction l as [|ins l [IH1 IH2]]; [done|].
  destruct ins; cbn [List.filter defines_nothing defined_var ir_labels ir_targets];
    by rewrite IH1, IH2.
Qed.

Lemma label_names_elem (code : list BCInstr) (name : string) :
  name ∈ label_names code -> BLabel name ∈ code.
Proof.
  induction code as [|ins code IH]; [by intros ?%elem_of_nil|].
  destruct ins; cbn [label_names]; intros H;
    try (right; by apply IH).
  apply elem_of_cons in H as [->|H]; [by left|right; by apply IH].
Qed.

Section Pipeline.
Variable re_digit : ascii -> bool.
Variable py_float : string -> option float.
Variable py_repr : float -> string.

(** Stages 04 to 07 of [CompilerService.compile]: from the typed tree
    to the bytecode the machine runs. *)
Definition bytecode_opt (typed_root : Program) : option (list BCInstr) :=
  let ir_code := ir_gen py_repr typed_root in
  let ir_opt := optimize_ir re_digit py_float py_repr ir_code in
  let bytecode := codegen ir_opt in
  peephole bytecode.

Lemma optimize_ir_names (ir : list IRInstr) :
  ir_labels (optimize_ir re_digit py_float py_repr ir) = ir_labels ir
  /\ ir_targets (optimize_ir re_digit py_float py_repr ir) = ir_targets ir.
Proof.
  destruct (skeleton_names (optimize_ir re_digit py_float py_repr ir)) as [<- <-].
  destruct (skeleton_names ir) as [<- <-].
  by rewrite optimize_ir_defines_nothing.
Qed.

(** X28.  For every program the back end
    returns bytecode, and in it every jump goes to a label that the
    machine's index sends to the place of that label: no jump of
    compiled code falls through for want of a target. *)
Theorem compiled_jumps_resolve (p : Program) :
  exists r,
    bytecode_opt p = Some r
    /\ jump_targets r ⊆ label_names r
    /\ forall label, label ∈ jump_targets r ->
         exists i, labels (VM.init r) !! label = Some i
                   /\ r !! i = Some (BLabel label).
Proof.
  unfold bytecode_opt. cbv zeta.
  set (c := codegen (optimize_ir re_digit py_float py_repr (ir_gen py_repr p))).
  assert (NoDup (label_names c) /\ jump_targets c ⊆ label_names c) as [Hnd Hcl].
  { subst c. destruct (codegen_names (optimize_ir re_digit py_float py_repr (ir_gen py_repr p)))
      as [-> ->].
    destruct (optimize_ir_names (ir_gen py_repr p)) as [-> ->].
    unfold ir_gen, gen.
    destruct (gen_fold_emits py_repr (body p) new) as (l & C & _ & _ & J & I).
    cbn [new code app] in C. rewrite C. split; [by eapply ids_NoDup|done]. }
  destruct (peephole_total c Hnd) as [r Hr]. exists r. split; [done|].
  pose proof (peephole_closed c r Hr Hcl) as Hr'. split; [done|].
  intros label Hl%Hr'%label_names_elem.
  pose proof (index_last_label r label) as Hi.
  assert (labels (VM.init r) = (_index r).1) as ->
    by (unfold VM.init; by destruct (_index r)).
  destruct ((_index r).1 !! label) as [i|]; [|done].
  exists i. by destruct Hi.
Qed.

(** X29.  Optimizer, code generator and
    peephole pass together neither drop, add nor reorder what acts on
    the world: the prints, returns, calls and function marks of the
    bytecode are those of the IR. *)
Theorem back_end_keeps_effects (ir : list IRInstr) (r : list BCInstr) :
  peephole (codegen (optimize_ir re_digit py_float py_repr ir)) = Some r ->
  List.filter is_effect r = codegen (List.filter ir_effect ir).
Proof.
  intros H. destruct (peephole_plain _ _ H) as [Hp _].
  rewrite <- (filter_filter_sub is_effect is_plain r) by (by intros []).
  rewrite Hp, filter_filter_sub by (by intros []).
  rewrite codegen_effects.
  rewrite <- (filter_filter_sub ir_effect defines_nothing) by (by intros []).
  rewrite optimize_ir_defines_nothing.
  by rewrite filter_filter_sub by (by intros []).
Qed.
End Pipeline.

Lemma back_end_keeps_effects_witness :
  peephole (codegen (optimize_ir Py.is_digit dec_float dec_repr (ir_gen dec_repr if_two_prints)))
  = Some [BIfFalse "1" "Lelse1"; BPrint "1"; BJmp "Lelse1"; BLabel "Lelse1"]
  /\ List.filter is_effect
       [BIfFalse "1" "Lelse1"; BPrint "1"; BJmp "Lelse1"; BLabel "Lelse1"]
     = codegen (List.filter ir_effect (ir_gen dec_repr if_two_prints)).
Proof.
  assert (peephole (codegen (optimize_ir Py.is_digit dec_float dec_repr
                               (ir_gen dec_repr if_two_prints)))
          = Some [BIfFalse "1" "Lelse1"; BPrint "1"; BJmp "Lelse1"; BLabel "Lelse1"])
    as H by reflexivity.
  split; [exact H|].
  exact (back_end_keeps_effects Py.is_digit dec_float dec_repr _ _ H).
Defined.

(** *** A runtime error of a program without diagnostics *)

(** [print(1 / 0);] and [print(1 % 0);], as the parser builds them. *)
Definition print_by_zero (op : string) : Program :=
  mkProgram [Print (Binary (Literal (LInt 1) "int" None) op
                           (Literal (LInt 0) "int" None) None)].

(** C2.  The machine does surface a runtime error.  [print(1 / 0);]
    passes the semantic analysis without a diagnostic; the back end
    compiles it to [BIN t1, /, 1, 0; PRINT t1], for the optimizer
    declines to fold a division by zero; and [run] stops on that [BIN]
    with the [ZeroDivisionError] of Python's [/], whatever the number
    of steps it is given, so nothing is printed.  The same holds of
    [%]. *)
Theorem division_by_zero_surfaces :
  Semantics.result_errors (Semantics.analyze (print_by_zero "/")) = []
  /\ bytecode_opt Py.is_digit dec_float dec_repr
       (Semantics.typed_root (Semantics.analyze (print_by_zero "/")))
     = Some [BBin "t1" "/" "1" "0"; BPrint "t1"]
  /\ (forall fuel,
         VM.run dec_float dec_repr (S fuel) [BBin "t1" "/" "1" "0"; BPrint "t1"]
         = Some (Raise Py.ZeroDivisionError))
  /\ Semantics.result_errors (Semantics.analyze (print_by_zero "%")) = []
  /\ bytecode_opt Py.is_digit dec_float dec_repr
       (Semantics.typed_root (Semantics.analyze (print_by_zero "%")))
     = Some [BBin "t1" "%" "1" "0"; BPrint "t1"]
  /\ (forall fuel,
         VM.run dec_float dec_repr (S fuel) [BBin "t1" "%" "1" "0"; BPrint "t1"]
         = Some (Raise Py.ZeroDivisionError)).
Proof.
  split; [reflexivity|]. split; [reflexivity|]. split; [by intros fuel|].
  split; [reflexivity|]. split; [reflexivity|]. by intros fuel.
Qed.

End Pipeline_facts.
